(** * Terrain surface analysis: slope, aspect, profile and DEM quality gate

    A shallow embedding of the numerical core of the terrain lambdas
    ([slope_operations.py], [aspect_operations.py], [profile_operations.py],
    [validation.py] and the DEM-generation [handler]).

    Conventions of the embedding:
    - a Python or numpy float is a real number ([R]); arithmetic is exact,
      so rounding, NaN, infinities and signed zeros are outside the model;
      [_calculate_circular_mean], whose result at the wrap from 360 to 0
      is decided by rounding, is embedded a second time in binary64
      ([Binary64]);
    - a numpy 2D array is a list of rows ([list (list R)]), indexed
      [row, column] as in the source;
    - a Python exception is [None] (or a value of [exn] in the handler);
    - raster file I/O is replaced by the in-memory array it reads or writes. *)

From Stdlib Require Import Floats.
From Stdlib Require Import Reals Lra Lia ZArith String Sorted.
From stdpp Require Import base decidable option list.

Open Scope R_scope.

(** * Part I: the embedding *)

(** ** Numeric prelude: comparisons, degrees, [atan2], rounding *)

Module Num.

#[export] Instance Rlt_decision : RelDecision Rlt := Rlt_dec.
#[export] Instance Rle_decision : RelDecision Rle := Rle_dec.
#[export] Instance Rgt_decision : RelDecision Rgt := Rgt_dec.
#[export] Instance Rge_decision : RelDecision Rge := Rge_dec.
#[export] Instance Req_decision : EqDecision R := Req_dec_T.

(** [math.radians] and [math.degrees]. *)
Definition radians (d : R) : R := d * PI / 180.
Definition degrees (r : R) : R := r * 180 / PI.

(** [math.atan2 y x] on the reals: the angle of the point [(x, y)] in
    [(-PI, PI]], with [atan2 0 0 = 0] (at the origin the floating-point
    function returns 0 or PI, up to sign, by the signs of the two zeros). *)
Definition atan2 (y x : R) : R :=
  if decide (0 < x) then atan (y / x)
  else if decide (x < 0) then
    if decide (0 <= y) then atan (y / x) + PI else atan (y / x) - PI
  else if decide (0 < y) then PI / 2
  else if decide (y < 0) then - (PI / 2)
  else 0.

(** [math.floor] and [math.ceil], as integers. *)
Definition floor (x : R) : Z := (up x - 1)%Z.
Definition ceil (x : R) : Z := (1 - up (- x))%Z.

(** Python's [round]: to the nearest integer, ties to the even one. *)
Definition round_half_even (x : R) : Z :=
  let f := floor x in
  let d := x - IZR f in
  if decide (d < 1 / 2) then f
  else if decide (1 / 2 < d) then (f + 1)%Z
  else if Z.even f then f else (f + 1)%Z.

(** [round(x, 1)]. *)
Definition round1 (x : R) : R := IZR (round_half_even (x * 10)) / 10.

(** Sum of a list of reals, left to right as an accumulating loop does. *)
Definition Rsum (l : list R) : R := fold_left Rplus l 0.

(** A [for] loop over a list whose body may raise. *)
Fixpoint for_each {A S : Type} (l : list A) (body : S → A → option S) (s : S)
  : option S :=
  match l with
  | [] => Some s
  | a :: l' => s' ← body s a; for_each l' body s'
  end.

End Num.
Import Num.

(** ** Rasters: a GDAL dataset with one band *)

Module Raster.

Abbreviation grid := (list (list R)).

(** The 6-tuple of [GetGeoTransform()], by index. *)
Record geotransform := {
  gt0 : R;  (* origin x (longitude of the left edge) *)
  gt1 : R;  (* pixel width *)
  gt2 : R;
  gt3 : R;  (* origin y (latitude of the top edge) *)
  gt4 : R;
  gt5 : R   (* pixel height, negative for north-up rasters *)
}.

Record dataset := {
  RasterXSize : nat;
  RasterYSize : nat;
  GetGeoTransform : geotransform;
  GetNoDataValue : option R;
  ReadAsArray : grid
}.

(** A grid of [h] rows of [w] cells, a property of all cells, and the
    optional cell at row [y] and column [x]. *)
Definition has_shape (h w : nat) (a : grid) : Prop :=
  length a = h ∧ Forall (λ row, length row = w) a.

Definition all_cells (P : R → Prop) (a : grid) : Prop :=
  Forall (Forall P) a.

Definition lookup2 (a : grid) (y x : nat) : option R :=
  a !! y ≫= (.!! x).

(** A Python index into a sequence of length [len]: negative indices count
    from the end, anything else out of range raises [IndexError]. *)
Definition py_index (len : nat) (i : Z) : option nat :=
  if decide (0 <= i < Z.of_nat len)%Z then Some (Z.to_nat i)
  else if decide (- Z.of_nat len <= i < 0)%Z then Some (Z.to_nat (Z.of_nat len + i))
  else None.

(** [a[i, :]] and [a[i, :] = r]. *)
Definition get_row (a : grid) (i : Z) : option (list R) :=
  k ← py_index (length a) i; a !! k.

Definition set_row (a : grid) (i : Z) (r : list R) : option grid :=
  k ← py_index (length a) i; Some (<[k := r]> a).

(** [a[i, j]] and [a[i, j] = v]. *)
Definition get2 (a : grid) (i j : Z) : option R :=
  row ← get_row a i; k ← py_index (length row) j; row !! k.

Definition set2 (a : grid) (i j : Z) (v : R) : option grid :=
  ki ← py_index (length a) i;
  row ← a !! ki;
  kj ← py_index (length row) j;
  Some (<[ki := <[kj := v]> row]> a).

(** [a[j, :] = a[k, :]]: row [k] is copied over row [j]. *)
Definition copy_row (a : grid) (k j : Z) : option grid :=
  r ← get_row a k; set_row a j r.

(** [a[:, j] = a[:, k]]: in every row, entry [k] is copied to entry [j]. *)
Definition copy_entry (k j : Z) (row : list R) : option (list R) :=
  kk ← py_index (length row) k;
  v ← row !! kk;
  kj ← py_index (length row) j;
  Some (<[kj := v]> row).

Definition copy_column (a : grid) (k j : Z) : option grid :=
  mapM (copy_entry k j) a.

(** A read [a[y, x]] at indices the loops keep inside the declared shape;
    0 stands for the read numpy would refuse on an array of another shape. *)
Definition cell (a : grid) (y x : nat) : R :=
  default 0 (lookup2 a y x).

(** The interior of a [height] by [width] grid: the cells visited by
    [for y in range(1, height - 1): for x in range(1, width - 1)]. *)
Definition interior (height width y x : nat) : Prop :=
  (1 <= y ∧ y + 1 < height ∧ 1 <= x ∧ x + 1 < width)%nat.

#[export] Instance interior_dec h w y x : Decision (interior h w y x).
Proof. unfold interior. apply _. Defined.

(** The nested interior loop writing [f y x] into [out[y, x]]. *)
Definition fill_interior (height width : nat) (f : nat → nat → R) (out : grid)
  : grid :=
  imap (λ y row,
          imap (λ x v, if decide (interior height width y x) then f y x else v)
               row) out.

(** The array of a dataset has the declared shape. *)
Definition well_formed (ds : dataset) : Prop :=
  has_shape (RasterYSize ds) (RasterXSize ds) (ReadAsArray ds).

End Raster.
Import Raster.

(** ** [slope_operations.py] *)

Module SlopeOps.

Section Slope.

(** [scipy.ndimage.gaussian_filter(elevation, sigma=sigma)], an external
    library routine. *)
Variable gaussian_filter : R → grid → grid.

(** Central differences at an interior cell. *)
Definition dz_dx (elevation : grid) (cell_size_x_m : R) (y x : nat) : R :=
  (cell elevation y (x + 1) - cell elevation y (x - 1)) / (2 * cell_size_x_m).

Definition dz_dy (elevation : grid) (cell_size_y_m : R) (y x : nat) : R :=
  (cell elevation (y + 1) x - cell elevation (y - 1) x) / (2 * cell_size_y_m).

Definition slope_percent (gx gy : R) : R := sqrt (gx * gx + gy * gy) * 100.

(** Cell size in metres at the centre latitude of the raster. *)
Definition cell_size_x_m (ds : dataset) : R :=
  let gt := GetGeoTransform ds in
  let cell_size_x := Rabs (gt1 gt) in
  let center_lat := INR (RasterYSize ds) * gt5 gt / 2 + gt3 gt in
  let meters_per_degree_x := 111320 * Rabs (cos (radians center_lat)) in
  cell_size_x * meters_per_degree_x.

Definition cell_size_y_m (ds : dataset) : R :=
  let gt := GetGeoTransform ds in
  let cell_size_y := Rabs (gt5 gt) in
  let meters_per_degree_y := 111320 in
  cell_size_y * meters_per_degree_y.

(** The elevation array the gradients are taken of. *)
Definition read_elevation (ds : dataset) (smoothing_enabled : bool)
    (smoothing_kernel_size : Z) : grid :=
  let elevation := ReadAsArray ds in
  if smoothing_enabled
  then gaussian_filter (IZR smoothing_kernel_size / 3) elevation
  else elevation.

(** The array after the nested loop over the interior cells. *)
Definition slope_interior (ds : dataset) (smoothing_enabled : bool)
    (smoothing_kernel_size : Z) : grid :=
  let width := RasterXSize ds in
  let height := RasterYSize ds in
  let elevation := read_elevation ds smoothing_enabled smoothing_kernel_size in
  let slope := map (map (λ _, 0)) elevation in
  fill_interior height width
    (λ y x, slope_percent (dz_dx elevation (cell_size_x_m ds) y x)
                          (dz_dy elevation (cell_size_y_m ds) y x))
    slope.

(** [calculate_slope]: the array written to the output raster, or [None]
    where an edge copy raises [IndexError]. *)
Definition calculate_slope (ds : dataset) (smoothing_enabled : bool)
    (smoothing_kernel_size : Z) : option grid :=
  let width := RasterXSize ds in
  let height := RasterYSize ds in
  let slope := slope_interior ds smoothing_enabled smoothing_kernel_size in
  (* top and bottom rows *)
  slope ← copy_row slope 1 0;
  slope ← copy_row slope (Z.of_nat height - 2) (Z.of_nat height - 1);
  (* left and right columns *)
  slope ← copy_column slope 1 0;
  copy_column slope (Z.of_nat width - 2) (Z.of_nat width - 1).

End Slope.

(** The [thresholds] dictionary with its three keys. *)
Record thresholds := {
  flat : R;
  moderate : R;
  steep : R
}.

(** Codes written to the classified raster. *)
Definition NODATA_CLASS : nat := 0.
Definition FLAT : nat := 1.
Definition MODERATE : nat := 2.
Definition STEEP : nat := 3.
Definition VERY_STEEP : nat := 4.

(** One cell of [classify_slope]: the array starts at 0 and the four masked
    assignments run in this order, a later one overwriting an earlier one. *)
Definition classify_cell (th : thresholds) (s : R) : nat :=
  let c := NODATA_CLASS in
  let c := if decide (s <= flat th) then FLAT else c in
  let c := if decide (flat th < s ∧ s <= moderate th) then MODERATE else c in
  let c := if decide (moderate th < s ∧ s <= steep th) then STEEP else c in
  let c := if decide (steep th < s) then VERY_STEEP else c in
  c.

Definition classify_slope (th : thresholds) (slope : grid) : list (list nat) :=
  map (map (classify_cell th)) slope.

(** [np.sum(mask)]: the number of entries satisfying the mask. *)
Definition count_where (P : R → Prop) `{!∀ s, Decision (P s)} (a : list R)
  : nat :=
  length (filter P a).

(** The returned dictionary ([medianSlope] is left out: it needs a sort and
    nothing below depends on it). *)
Record slope_stats := {
  meanSlope : R;
  maxSlope : R;
  flatPercent : R;
  moderatePercent : R;
  steepPercent : R;
  verySteepPercent : R;
  unbuildablePercent : R
}.

Definition SLOPE_NODATA : R := -9999.

(** [slope[slope != -9999]]: the valid cells, flattened in row order. *)
Definition valid_cells (slope : grid) : list R :=
  filter (λ s, s ≠ SLOPE_NODATA) (concat slope).

Definition percent_of (count total : nat) : R := INR count / INR total * 100.

(** [calculate_slope_statistics]; [np.max] raises on an empty selection. *)
Definition calculate_slope_statistics (slope : grid) (th : thresholds)
    (max_buildable_slope : R) : option slope_stats :=
  let valid_slope := valid_cells slope in
  match valid_slope with
  | [] => None
  | v0 :: rest =>
    let total_cells := length valid_slope in
    let flat_count := count_where (λ s, s <= flat th) valid_slope in
    let moderate_count :=
      count_where (λ s, flat th < s ∧ s <= moderate th) valid_slope in
    let steep_count :=
      count_where (λ s, moderate th < s ∧ s <= steep th) valid_slope in
    let very_steep_count := count_where (λ s, steep th < s) valid_slope in
    let unbuildable_count :=
      count_where (λ s, max_buildable_slope < s) valid_slope in
    Some {| meanSlope := Rsum valid_slope / INR total_cells;
            maxSlope := fold_left Rmax rest v0;
            flatPercent := percent_of flat_count total_cells;
            moderatePercent := percent_of moderate_count total_cells;
            steepPercent := percent_of steep_count total_cells;
            verySteepPercent := percent_of very_steep_count total_cells;
            unbuildablePercent := percent_of unbuildable_count total_cells |}
  end.

End SlopeOps.

(** ** [aspect_operations.py] *)

Module AspectOps.

Definition FLAT_ASPECT : R := -1.

(** The aspect of one interior cell that is not flat. *)
Definition aspect_degrees (gx gy : R) : R :=
  let aspect_rad := atan2 gy (- gx) in
  let aspect_deg := degrees aspect_rad in
  let aspect_deg := 90 - aspect_deg in
  let aspect_deg := if decide (aspect_deg < 0) then aspect_deg + 360 else aspect_deg in
  let aspect_deg := if decide (aspect_deg >= 360) then aspect_deg - 360 else aspect_deg in
  aspect_deg.

Definition cell_size_x_m (ds : dataset) : R :=
  let gt := GetGeoTransform ds in
  let cell_size_x_deg := gt1 gt in
  let cell_size_y_deg := Rabs (gt5 gt) in
  let lat := gt3 gt - cell_size_y_deg * INR (RasterYSize ds) / 2 in
  let meters_per_deg_lng := 111320 * cos (radians lat) in
  cell_size_x_deg * meters_per_deg_lng.

Definition cell_size_y_m (ds : dataset) : R :=
  let gt := GetGeoTransform ds in
  let cell_size_y_deg := Rabs (gt5 gt) in
  let meters_per_deg_lat := 111320 in
  cell_size_y_deg * meters_per_deg_lat.

(** The value the interior loop writes to [aspect[y, x]], for a read
    [slope[y, x]] that numpy accepts ([slope_readable] below). At a gradient
    of zero the bearing is the one [atan2] gives at the origin; in binary64
    it is decided by the signs of the two zeros. *)
Definition interior_aspect (dem : dataset) (slope : grid) (flat_threshold : R)
    (y x : nat) : R :=
  let elevation := ReadAsArray dem in
  if decide (cell slope y x < flat_threshold) then FLAT_ASPECT
  else aspect_degrees (SlopeOps.dz_dx elevation (cell_size_x_m dem) y x)
                      (SlopeOps.dz_dy elevation (cell_size_y_m dem) y x).

(** One round of the loop over columns: the top and bottom rows take the
    aspect of rows 1 and [height - 2] where that is defined. *)
Definition copy_rows_at (height : nat) (aspect : grid) (x : nat) : option grid :=
  a ← get2 aspect 1 (Z.of_nat x);
  aspect ← (if decide (a ≠ -1) then set2 aspect 0 (Z.of_nat x) a else Some aspect);
  b ← get2 aspect (Z.of_nat height - 2) (Z.of_nat x);
  if decide (b ≠ -1) then set2 aspect (Z.of_nat height - 1) (Z.of_nat x) b
  else Some aspect.

(** One round of the loop over rows, for the left and right columns. *)
Definition copy_columns_at (width : nat) (aspect : grid) (y : nat) : option grid :=
  a ← get2 aspect (Z.of_nat y) 1;
  aspect ← (if decide (a ≠ -1) then set2 aspect (Z.of_nat y) 0 a else Some aspect);
  b ← get2 aspect (Z.of_nat y) (Z.of_nat width - 2);
  if decide (b ≠ -1) then set2 aspect (Z.of_nat y) (Z.of_nat width - 1) b
  else Some aspect.

(** Every read [slope[y, x]] of the interior loop,
    [for y in range(1, height - 1): for x in range(1, width - 1)], is inside
    the slope array; where one is not, numpy raises [IndexError]. *)
Definition slope_readable (height width : nat) (slope : grid) : Prop :=
  Forall (λ y, Forall (λ x, is_Some (lookup2 slope y x)) (seq 1 (width - 2)))
         (seq 1 (height - 2)).

#[export] Instance slope_readable_dec h w slope :
  Decision (slope_readable h w slope).
Proof. unfold slope_readable. apply _. Defined.

(** The array after the nested loop over the interior cells, when every
    read of the slope array was accepted. *)
Definition aspect_interior (dem slope : dataset) (flat_threshold : R) : grid :=
  let width := RasterXSize dem in
  let height := RasterYSize dem in
  let aspect := replicate height (replicate width FLAT_ASPECT) in
  fill_interior height width
    (interior_aspect dem (ReadAsArray slope) flat_threshold) aspect.

(** [calculate_aspect]: the array written to the output raster; [None] when
    the interior loop reads outside the slope array (a slope raster smaller
    than the DEM) or an edge copy is out of range. *)
Definition calculate_aspect (dem slope : dataset) (flat_threshold : R)
  : option grid :=
  let width := RasterXSize dem in
  let height := RasterYSize dem in
  if decide (slope_readable height width (ReadAsArray slope)) then
    let aspect := aspect_interior dem slope flat_threshold in
    aspect ← for_each (seq 0 width) (copy_rows_at height) aspect;
    for_each (seq 0 height) (copy_columns_at width) aspect
  else None.

(** Codes written by [classify_aspect]. *)
Definition D_FLAT : nat := 0.
Definition D_N : nat := 1.
Definition D_NE : nat := 2.
Definition D_E : nat := 3.
Definition D_SE : nat := 4.
Definition D_S : nat := 5.
Definition D_SW : nat := 6.
Definition D_W : nat := 7.
Definition D_NW : nat := 8.

(** The [if]/[elif] chain of [classify_aspect], for one cell. *)
Definition classify_angle (angle : R) : nat :=
  if decide (angle < 0) then D_FLAT
  else if decide (angle >= 337.5 ∨ angle < 22.5) then D_N
  else if decide (22.5 <= angle ∧ angle < 67.5) then D_NE
  else if decide (67.5 <= angle ∧ angle < 112.5) then D_E
  else if decide (112.5 <= angle ∧ angle < 157.5) then D_SE
  else if decide (157.5 <= angle ∧ angle < 202.5) then D_S
  else if decide (202.5 <= angle ∧ angle < 247.5) then D_SW
  else if decide (247.5 <= angle ∧ angle < 292.5) then D_W
  else D_NW.

Definition classify_aspect (aspect : grid) : list (list nat) :=
  map (map classify_angle) aspect.

(** The [counts] dictionary of [calculate_aspect_statistics], indexed by
    class code, with the two aggregates. *)
Record counts := {
  by_class : nat → nat;
  northFacing : nat;
  southFacing : nat
}.

Definition zero_counts : counts :=
  {| by_class := λ _, 0%nat; northFacing := 0; southFacing := 0 |}.

Definition bump (c : counts) (k : nat) (north south : bool) : counts :=
  {| by_class := λ j, if decide (j = k) then S (by_class c j) else by_class c j;
     northFacing := if north then S (northFacing c) else northFacing c;
     southFacing := if south then S (southFacing c) else southFacing c |}.

(** The body of [for angle in aspect.flat], on the pair of the counts and
    the list [valid_aspects]. *)
Definition count_angle (st : counts * list R) (angle : R) : counts * list R :=
  let '(c, valid_aspects) := st in
  if decide (angle < 0) then (bump c D_FLAT false false, valid_aspects)
  else
    let valid_aspects := valid_aspects ++ [angle] in
    if decide (angle >= 337.5 ∨ angle < 22.5) then (bump c D_N true false, valid_aspects)
    else if decide (22.5 <= angle ∧ angle < 67.5) then (bump c D_NE true false, valid_aspects)
    else if decide (67.5 <= angle ∧ angle < 112.5) then (bump c D_E false false, valid_aspects)
    else if decide (112.5 <= angle ∧ angle < 157.5) then (bump c D_SE false true, valid_aspects)
    else if decide (157.5 <= angle ∧ angle < 202.5) then (bump c D_S false true, valid_aspects)
    else if decide (202.5 <= angle ∧ angle < 247.5) then (bump c D_SW false true, valid_aspects)
    else if decide (247.5 <= angle ∧ angle < 292.5) then (bump c D_W false false, valid_aspects)
    else (bump c D_NW true false, valid_aspects).

(** [_get_dominant_direction]: the first direction with the largest count. *)
Definition _get_dominant_direction (c : counts) : nat :=
  let directions := [D_N; D_NE; D_E; D_SE; D_S; D_SW; D_W; D_NW] in
  snd (fold_left (λ '(max_count, dominant) direction,
                    if decide (max_count < by_class c direction)%nat
                    then (by_class c direction, direction)
                    else (max_count, dominant))
                 directions (0%nat, D_N)).

(** [_calculate_circular_mean]. *)
Definition _calculate_circular_mean (aspects : list R) : option R :=
  match aspects with
  | [] => None
  | _ =>
    let '(sum_sin, sum_cos) :=
      fold_left (λ '(sum_sin, sum_cos) aspect,
                   let rad := radians aspect in
                   (sum_sin + sin rad, sum_cos + cos rad))
                aspects (0, 0) in
    let n := INR (length aspects) in
    let mean_rad := atan2 (sum_sin / n) (sum_cos / n) in
    let mean_deg := degrees mean_rad in
    let mean_deg := if decide (mean_deg < 0) then mean_deg + 360 else mean_deg in
    Some mean_deg
  end.

Record aspect_stats := {
  flatPercent : R;
  northPercent : R;
  northeastPercent : R;
  eastPercent : R;
  southeastPercent : R;
  southPercent : R;
  southwestPercent : R;
  westPercent : R;
  northwestPercent : R;
  northFacingPercent : R;
  southFacingPercent : R;
  dominantDirection : nat;
  circularMeanAspect : option R
}.

(** [calculate_aspect_statistics]; dividing by [aspect.size = 0] raises. *)
Definition calculate_aspect_statistics (aspect : grid) : option aspect_stats :=
  let total_cells := length (concat aspect) in
  let '(c, valid_aspects) := fold_left count_angle (concat aspect) (zero_counts, []) in
  if decide (total_cells = 0%nat) then None
  else
    let pct (k : nat) := INR k / INR total_cells * 100 in
    Some {| flatPercent := pct (by_class c D_FLAT);
            northPercent := pct (by_class c D_N);
            northeastPercent := pct (by_class c D_NE);
            eastPercent := pct (by_class c D_E);
            southeastPercent := pct (by_class c D_SE);
            southPercent := pct (by_class c D_S);
            southwestPercent := pct (by_class c D_SW);
            westPercent := pct (by_class c D_W);
            northwestPercent := pct (by_class c D_NW);
            northFacingPercent := pct (northFacing c);
            southFacingPercent := pct (southFacing c);
            dominantDirection := _get_dominant_direction c;
            circularMeanAspect :=
              match valid_aspects with
              | [] => None
              | _ => _calculate_circular_mean valid_aspects
              end |}.

End AspectOps.

(** ** [_calculate_circular_mean] in binary64

    Python floats are IEEE-754 binary64 numbers, here the primitive floats
    with their correctly rounded [+], [*] and [/]. [math.sin], [math.cos] and
    [math.atan2] are those of the C library and are parameters. *)

Module Binary64.

Local Open Scope float_scope.

(** [Py_MATH_PI], and the two constants [math.radians] and [math.degrees]
    multiply by. *)
Definition pi : float := 0x1.921fb54442d18p+1.
Definition degToRad : float := pi / 180.
Definition radToDeg : float := 180 / pi.

Definition radians (x : float) : float := x * degToRad.
Definition degrees (x : float) : float := x * radToDeg.

(** The conversion of [len(aspects)] to a float by the division. *)
Definition float_of_len (n : nat) : float :=
  PrimFloat.of_uint63 (Uint63.of_Z (Z.of_nat n)).

Section Libm.

Variables sin cos : float → float.
Variable atan2 : float → float → float.

Definition _calculate_circular_mean (aspects : list float) : option float :=
  match aspects with
  | [] => None
  | _ =>
    let '(sum_sin, sum_cos) :=
      fold_left (λ '(sum_sin, sum_cos) aspect,
                   let rad := radians aspect in
                   (sum_sin + sin rad, sum_cos + cos rad))
                aspects (0, 0) in
    let n := float_of_len (length aspects) in
    let mean_rad := atan2 (sum_sin / n) (sum_cos / n) in
    let mean_deg := degrees mean_rad in
    let mean_deg := if mean_deg <? 0 then mean_deg + 360 else mean_deg in
    Some mean_deg
  end.

End Libm.

End Binary64.

(** ** [profile_operations.py] *)

Module ProfileOps.

(** A point along an elevation profile. *)
Record ProfilePoint := {
  distance : R;
  elevation : R;
  lat : R;
  lng : R;
  grade : R
}.

(** The assignment [p.grade = g]. *)
Definition set_grade (g : R) (p : ProfilePoint) : ProfilePoint :=
  {| distance := distance p; elevation := elevation p; lat := lat p;
     lng := lng p; grade := g |}.

(** Great-circle distance in metres between two points given in degrees. *)
Definition haversine_distance (lat1 lng1 lat2 lng2 : R) : R :=
  let R_earth := 6371000 in
  let phi1 := radians lat1 in
  let phi2 := radians lat2 in
  let delta_phi := radians (lat2 - lat1) in
  let delta_lambda := radians (lng2 - lng1) in
  let a := sin (delta_phi / 2) ^ 2
           + cos phi1 * cos phi2 * sin (delta_lambda / 2) ^ 2 in
  let c := 2 * atan2 (sqrt a) (sqrt (1 - a)) in
  R_earth * c.

(** The loop of [interpolate_point_on_line] from the segment that starts at
    the head of [coords]; [None] when the loop ends without returning.
    Coordinates are [(lng, lat)] pairs. *)
Fixpoint walk_segments (coords : list (R * R)) (cumulative_distance : R)
    (distance_along : R) : option (R * R) :=
  match coords with
  | (lng1, lat1) :: rest =>
    match rest with
    | (lng2, lat2) :: _ =>
      let segment_distance := haversine_distance lat1 lng1 lat2 lng2 in
      if decide (cumulative_distance + segment_distance >= distance_along) then
        let remaining := distance_along - cumulative_distance in
        let fraction :=
          if decide (segment_distance > 0) then remaining / segment_distance
          else 0 in
        Some (lng1 + (lng2 - lng1) * fraction, lat1 + (lat2 - lat1) * fraction)
      else walk_segments rest (cumulative_distance + segment_distance)
                         distance_along
    | [] => None
    end
  | [] => None
  end.

(** [interpolate_point_on_line]; [coords[-1]] raises on an empty list. *)
Definition interpolate_point_on_line (coords : list (R * R))
    (distance_along total_distance : R) : option (R * R) :=
  match walk_segments coords 0 distance_along with
  | Some p => Some p
  | None => last coords
  end.

(** The loop of [calculate_line_length], with the running total. *)
Fixpoint line_length_from (total : R) (coords : list (R * R)) : R :=
  match coords with
  | (lng1, lat1) :: rest =>
    match rest with
    | (lng2, lat2) :: _ =>
      line_length_from (total + haversine_distance lat1 lng1 lat2 lng2) rest
    | [] => total
    end
  | [] => total
  end.

Definition calculate_line_length (coords : list (R * R)) : R :=
  line_length_from 0 coords.

Definition geo_to_pixel (lng lat : R) (gt : geotransform) : R * R :=
  ((lng - gt0 gt) / gt1 gt, (lat - gt3 gt) / gt5 gt).

(** [data.shape] of a rectangular array. *)
Definition shape (data : grid) : nat * nat :=
  (length data, match data with row :: _ => length row | [] => 0%nat end).

(** [bilinear_interpolation]; [None] is the [ValueError] for a point outside
    the DEM. *)
Definition bilinear_interpolation (data : grid) (x y nodata : R) : option R :=
  let '(height, width) := shape data in
  let x0 := floor x in
  let x1 := (x0 + 1)%Z in
  let y0 := floor y in
  let y1 := (y0 + 1)%Z in
  if decide ((x0 < 0)%Z ∨ (x1 >= Z.of_nat width)%Z ∨
             (y0 < 0)%Z ∨ (y1 >= Z.of_nat height)%Z)
  then None
  else
    let z00 := cell data (Z.to_nat y0) (Z.to_nat x0) in
    let z10 := cell data (Z.to_nat y0) (Z.to_nat x1) in
    let z01 := cell data (Z.to_nat y1) (Z.to_nat x0) in
    let z11 := cell data (Z.to_nat y1) (Z.to_nat x1) in
    if decide (z00 = nodata ∨ z10 = nodata ∨ z01 = nodata ∨ z11 = nodata)
    then Some (cell data (Z.to_nat (round_half_even y))
                         (Z.to_nat (round_half_even x)))
    else
      let dx := x - IZR x0 in
      let dy := y - IZR y0 in
      let z0 := z00 * (1 - dx) + z10 * dx in
      let z1 := z01 * (1 - dx) + z11 * dx in
      Some (z0 * (1 - dy) + z1 * dy).





(** The grade of [curr] after [prev], in percent. *)
Definition grade_between (prev curr : ProfilePoint) : R :=
  let horizontal_distance := distance curr - distance prev in
  let elevation_change := elevation curr - elevation prev in
  if decide (horizontal_distance > 0)
  then elevation_change / horizontal_distance * 100
  else 0.

(** One round of the loop of [calculate_grades], which updates the point at
    index [i] in place. *)
Definition grade_step (profile_points : list ProfilePoint) (i : nat)
  : option (list ProfilePoint) :=
  prev ← profile_points !! (i - 1)%nat;
  curr ← profile_points !! i;
  Some (<[i := set_grade (grade_between prev curr) curr]> profile_points).

(** [calculate_grades]; [profile_points[0]] raises on an empty list. *)
Definition calculate_grades (profile_points : list ProfilePoint)
  : option (list ProfilePoint) :=
  profile_points ←
    for_each (seq 1 (length profile_points - 1)) grade_step profile_points;
  first ← profile_points !! 0%nat;
  Some (<[0%nat := set_grade 0 first]> profile_points).

(** The accumulators of the loop of [calculate_profile_statistics]; a
    segment is [(start, end, grade)]. *)
Record accumulators := {
  elevation_gain : R;
  elevation_loss : R;
  max_grade_uphill : R;
  max_grade_downhill : R;
  excessive_grade_distance : R;
  excessive_segments : list (R * R * R)
}.

Definition stat_step (profile_points : list ProfilePoint)
    (max_grade_threshold : R) (acc : accumulators) (i : nat)
  : option accumulators :=
  prev ← profile_points !! (i - 1)%nat;
  curr ← profile_points !! i;
  let elevation_change := elevation curr - elevation prev in
  let segment_distance := distance curr - distance prev in
  let grade := grade curr in
  let excessive := bool_decide (Rabs grade > max_grade_threshold) in
  Some {|
    elevation_gain :=
      if decide (elevation_change > 0)
      then elevation_gain acc + elevation_change else elevation_gain acc;
    elevation_loss :=
      if decide (elevation_change > 0)
      then elevation_loss acc else elevation_loss acc + Rabs elevation_change;
    max_grade_uphill :=
      if decide (grade > max_grade_uphill acc) then grade
      else max_grade_uphill acc;
    max_grade_downhill :=
      if decide (grade < max_grade_downhill acc) then grade
      else max_grade_downhill acc;
    excessive_grade_distance :=
      if excessive then excessive_grade_distance acc + segment_distance
      else excessive_grade_distance acc;
    excessive_segments :=
      if excessive
      then excessive_segments acc ++ [(distance prev, distance curr, round1 grade)]
      else excessive_segments acc
  |}.

Record profile_stats := {
  totalDistance : R;
  elevationGain : R;
  elevationLoss : R;
  netElevationChange : R;
  startElevation : R;
  endElevation : R;
  minElevation : R;
  maxElevation : R;
  maxGradeUphill : R;
  maxGradeDownhill : R;
  excessiveGradeDistance : R;
  excessiveGradePercent : R;
  excessiveSegments : list (R * R * R)
}.

(** [calculate_profile_statistics]; [profile_points[-1]] raises on an empty
    list. *)
Definition calculate_profile_statistics (profile_points : list ProfilePoint)
    (max_grade_threshold : R) : option profile_stats :=
  let elevations := elevation <$> profile_points in
  acc ← for_each (seq 1 (length profile_points - 1))
                 (stat_step profile_points max_grade_threshold)
                 {| elevation_gain := 0; elevation_loss := 0;
                    max_grade_uphill := 0; max_grade_downhill := 0;
                    excessive_grade_distance := 0; excessive_segments := [] |};
  last_point ← last profile_points;
  first_point ← profile_points !! 0%nat;
  let total_distance := distance last_point in
  Some {|
    totalDistance := total_distance;
    elevationGain := elevation_gain acc;
    elevationLoss := elevation_loss acc;
    netElevationChange := elevation last_point - elevation first_point;
    startElevation := elevation first_point;
    endElevation := elevation last_point;
    minElevation := foldr Rmin (elevation first_point) elevations;
    maxElevation := foldr Rmax (elevation first_point) elevations;
    maxGradeUphill := max_grade_uphill acc;
    maxGradeDownhill := Rabs (max_grade_downhill acc);
    excessiveGradeDistance := excessive_grade_distance acc;
    excessiveGradePercent :=
      if decide (total_distance > 0)
      then excessive_grade_distance acc / total_distance * 100 else 0;
    excessiveSegments := excessive_segments acc
  |}.

End ProfileOps.

(** ** [validation.py] and the DEM-generation [handler] *)

Module DemGenerator.

Local Open Scope string_scope.

(** A raised Python exception: its class name and [str(e)]. *)
Record exn := mk_exn {
  exn_type : string;
  exn_message : string
}.

Definition ValueError (message : string) : exn := mk_exn "ValueError" message.

(** A result or a raised exception. *)
Definition result (A : Type) : Type := exn + A.

(** [int(x)] on a float: truncation toward zero. *)
Definition trunc (x : R) : Z := if decide (0 <= x) then floor x else ceil x.

(** [geo_to_pixel] of [validation.py]: integer pixel indices. *)
Definition geo_to_pixel (lng lat : R) (gt : geotransform) : Z * Z :=
  let origin_x := gt0 gt in
  let origin_y := gt3 gt in
  let pixel_width := gt1 gt in
  let pixel_height := gt5 gt in
  (trunc ((lng - origin_x) / pixel_width),
   trunc ((lat - origin_y) / pixel_height)).

(** A contour line: its elevation and its GeoJSON geometry. *)
Record contour := {
  contour_elevation : R;
  geometry_type : string;
  coordinates : list (R * R)
}.

(** [range(0, n, step)] for a positive [step]. *)
Definition range_step (n step : nat) : list nat :=
  filter (λ i, i `mod` step = 0)%nat (seq 0 n).

(** The error at one sampled vertex, or nothing when the vertex is outside
    the DEM or on a no-data cell. *)
Definition sample_error (dem : dataset) (elevation : R) (coord : R * R)
  : option R :=
  let '(lng, lat) := coord in
  let '(px, py) := geo_to_pixel lng lat (GetGeoTransform dem) in
  let '(rows, columns) := ProfileOps.shape (ReadAsArray dem) in
  if decide ((0 <= px < Z.of_nat columns)%Z ∧ (0 <= py < Z.of_nat rows)%Z) then
    let dem_elevation := cell (ReadAsArray dem) (Z.to_nat py) (Z.to_nat px) in
    if decide (dem_elevation ≠ -9999)
    then Some (Rabs (dem_elevation - elevation))
    else None
  else None.

(** The errors appended for one contour. *)
Definition contour_errors (dem : dataset) (c : contour) : list R :=
  if string_dec (geometry_type c) "LineString" then
    let sample_interval := Nat.max 1 (length (coordinates c) / 20) in
    omap (λ i, coord ← coordinates c !! i;
               sample_error dem (contour_elevation c) coord)
         (range_step (length (coordinates c)) sample_interval)
  else [].

(** The metrics dictionary returned by [validate_dem]. *)
Record metrics := {
  rmse : R;
  maxDeviation : R;
  contourMatchPercentage : R;
  sampleCount : nat
}.

Definition tolerance : R := 0.5.

Definition validate_dem (dem : dataset) (contours : list contour)
  : result metrics :=
  let errors := concat (contour_errors dem <$> contours) in
  match errors with
  | [] => inl (ValueError "No valid elevation samples for validation")
  | e0 :: rest =>
    inr {| rmse := sqrt (Rsum ((λ e, e ^ 2) <$> errors) / INR (length errors));
           maxDeviation := fold_left Rmax rest e0;
           contourMatchPercentage :=
             INR (length (filter (λ e, e <= tolerance) errors))
             / INR (length errors) * 100;
           sampleCount := length errors |}
  end.

(** What the handler does to the outside world, in order. *)
Inductive event :=
  | StatusUpdate (status : string) (progress : nat) (dem_id : option string)
                 (error : option string)
  | S3Upload (s3_path : string)
  | DemRecord (dem_id : string).

(** Computations that log events and may raise. *)
Definition M (A : Type) : Type := list event → result A * list event.

Definition ret {A : Type} (a : A) : M A := λ log, (inr a, log).

Definition bind {A B : Type} (m : M A) (k : A → M B) : M B :=
  λ log, match m log with
         | (inr a, log') => k a log'
         | (inl e, log') => (inl e, log')
         end.

Definition raise {A : Type} (e : exn) : M A := λ log, (inl e, log).

Definition emit (ev : event) : M unit := λ log, (inr tt, (log ++ [ev])%list).

Definition lift {A : Type} (r : result A) : M A := λ log, (r, log).

Notation "'let!' x ':=' m 'in' k" := (bind m (λ x, k))
  (at level 10, x name, m at level 200, k at level 200, only parsing).

(** The SQS payload. *)
Record bounds := {
  minLat : R;
  maxLat : R;
  minLng : R;
  maxLng : R
}.

Record payload := {
  jobId : string;
  projectId : string;
  propertyBoundaryId : string;
  resolution : R;
  interpolationMethod : string;
  payload_bounds : bounds
}.

(** The body of a response. *)
Inductive response :=
  | Response (statusCode : nat) (body : string + (string * string * metrics)).

Section Handler.

(** The collaborators of the handler: database, GDAL gridding, object store
    and float formatting. A DEM file is identified with the raster in it. *)
Variable fetch_contours_from_postgis : string → string → result (list contour).
Variable generate_dem :
  list contour → bounds → R → string → string → result (dataset * Z * Z).
Variable calculate_dem_stats : dataset → result (R * R * R).
Variable upload_to_s3 : dataset → string → result unit.
Variable create_dem_record : payload → string → metrics → result string.
Variable format_2f : R → string.
Variable format_float : R → string.

(** [update_job_status] over a job table that takes every update: it only
    logs the update. [DemLambda] below has the handler with updates that can
    raise; [handler_reliable_job_table] relates the two. *)
Definition update_job_status (status : string) (progress : nat)
    (dem_id error : option string) : M unit :=
  emit (StatusUpdate status progress dem_id error).

(** The [try] block of [handler]; the processing time written with the last
    status update is left out here (it is in [DemLambda.run_job]). *)
Definition run_job (p : payload) : M (string * string * metrics) :=
  let! _ := update_job_status "processing" 0 None None in
  let! contours :=
    lift (fetch_contours_from_postgis (projectId p) (propertyBoundaryId p)) in
  let! _ := update_job_status "processing" 20 None None in
  let! _ := (if decide (length contours = 0%nat)
             then raise (ValueError "No contour data found for project")
             else ret tt) in
  let! generated :=
    lift (generate_dem contours (payload_bounds p) (resolution p)
            (interpolationMethod p) (projectId p)) in
  let '(dem, width, height) := generated in
  let! _ := update_job_status "processing" 70 None None in
  let! validation_metrics := lift (validate_dem dem contours) in
  let! _ := update_job_status "processing" 85 None None in
  let! _ := (if decide (rmse validation_metrics > 2.0)
             then raise (ValueError ("DEM validation failed: RMSE "
                                     ++ format_2f (rmse validation_metrics)
                                     ++ "m exceeds threshold"))
             else ret tt) in
  let! dem_stats := lift (calculate_dem_stats dem) in
  let s3_path := ("dems/" ++ projectId p ++ "/dem_"
                  ++ format_float (resolution p) ++ "m.tif")%string in
  let! _ := lift (upload_to_s3 dem s3_path) in
  let! _ := emit (S3Upload s3_path) in
  let! _ := update_job_status "processing" 95 None None in
  let! dem_id := lift (create_dem_record p s3_path validation_metrics) in
  let! _ := emit (DemRecord dem_id) in
  let! _ := update_job_status "completed" 100 (Some dem_id) None in
  ret (dem_id, s3_path, validation_metrics).

(** [handler]: the [try] block and its [except Exception] clause. *)
Definition handler (p : payload) : response * list event :=
  match run_job p [] with
  | (inr ok, log) => (Response 200 (inr ok), log)
  | (inl e, log) =>
    let error_message := (exn_type e ++ ": " ++ exn_message e)%string in
    (Response 500 (inl error_message),
     (log ++ [StatusUpdate "failed" 0 None (Some error_message)])%list)
  end.

End Handler.

End DemGenerator.

(** ** The DEM-generation [handler] with its job table

    [handler] once more, with the two functions that reach the row of the
    job in "DEMProcessingJob" as they are: [update_job_status] and
    [get_job_start_time] open a connection and run a statement, and either
    can raise. The payload is taken as parsed: the keys read before the
    [try] block are the fields of [payload]. *)

Module DemLambda.

Import -(notations) DemGenerator.
Local Open Scope string_scope.

#[local] Instance string_eq_dec : EqDecision string := string_dec.

(** The columns one [UPDATE "DEMProcessingJob"] of [update_job_status]
    sets; [startedAt] and [completedAt] are set to [NOW()]. *)
Record job_update := {
  set_status : string;
  set_progress : nat;
  set_startedAt : bool;
  set_demId : option string;
  set_processingTime : option Z;
  set_errorMessage : option string;
  set_completedAt : bool
}.

(** The calls to the outside world that returned, in order: a status update,
    the upload of the DEM, the insertion of the DEM record. *)
Inductive event :=
  | JobUpdated (u : job_update)
  | DemUploaded (s3_path : string)
  | DemRecorded (dem_id : string).

(** Computations that log the calls that returned and may raise. *)
Definition M (A : Type) : Type := list event → result A * list event.

Definition ret {A : Type} (a : A) : M A := λ log, (inr a, log).

Definition bind {A B : Type} (m : M A) (k : A → M B) : M B :=
  λ log, match m log with
         | (inr a, log') => k a log'
         | (inl e, log') => (inl e, log')
         end.

Definition raise {A : Type} (e : exn) : M A := λ log, (inl e, log).

Definition emit (ev : event) : M unit := λ log, (inr tt, (log ++ [ev])%list).

Definition lift {A : Type} (r : result A) : M A := λ log, (r, log).

Notation "'let!' x ':=' m 'in' k" := (bind m (λ x, k))
  (at level 10, x name, m at level 200, k at level 200, only parsing).

(** The statement [update_job_status] chooses by status and progress. *)
Definition job_update_for (status : string) (progress : nat)
    (dem_id : option string) (processing_time : option Z)
    (error : option string) : job_update :=
  if decide (status = "processing" ∧ progress = 0%nat) then
    {| set_status := status; set_progress := progress; set_startedAt := true;
       set_demId := None; set_processingTime := None;
       set_errorMessage := None; set_completedAt := false |}
  else if decide (status = "completed") then
    {| set_status := status; set_progress := progress; set_startedAt := false;
       set_demId := dem_id; set_processingTime := processing_time;
       set_errorMessage := None; set_completedAt := true |}
  else if decide (status = "failed") then
    {| set_status := status; set_progress := progress; set_startedAt := false;
       set_demId := None; set_processingTime := None;
       set_errorMessage := error; set_completedAt := true |}
  else
    {| set_status := status; set_progress := progress; set_startedAt := false;
       set_demId := None; set_processingTime := None;
       set_errorMessage := None; set_completedAt := false |}.

Section Handler.

(** The collaborators of the handler: PostGIS, GDAL gridding, object store
    and float formatting, as in [DemGenerator]. *)
Variable fetch_contours_from_postgis : string → string → result (list contour).
Variable generate_dem :
  list contour → bounds → R → string → string → result (dataset * Z * Z).
Variable calculate_dem_stats : dataset → result (R * R * R).
Variable upload_to_s3 : dataset → string → result unit.
Variable create_dem_record : payload → string → metrics → result string.
Variable format_2f : R → string.
Variable format_float : R → string.

(** The job table: connecting, executing and committing one update of the
    row of a job, and selecting its ["startedAt"] ([cursor.fetchone()]: no
    row, or a row whose column may be NULL). Both can raise. *)
Variable execute_update : string → job_update → result unit.
Variable select_startedAt : string → result (option (option R)).

(** [datetime.now()], in seconds, in [handler] and then in
    [get_job_start_time]. *)
Variable now : R.
Variable now_in_lookup : R.

(** [update_job_status]: the update is logged when the call returns. *)
Definition update_job_status (job_id status : string) (progress : nat)
    (dem_id : option string) (processing_time : option Z)
    (error : option string) : M unit :=
  let u := job_update_for status progress dem_id processing_time error in
  let! _ := lift (execute_update job_id u) in
  emit (JobUpdated u).

(** [get_job_start_time]: [result[0] if result else datetime.now()]. *)
Definition get_job_start_time (job_id : string) : result (option R) :=
  match select_startedAt job_id with
  | inl e => inl e
  | inr (Some startedAt) => inr startedAt
  | inr None => inr (Some now_in_lookup)
  end.

(** [int((datetime.now() - started).total_seconds())]; subtracting [None]
    from a datetime raises [TypeError]. *)
Definition processing_time_since (started : option R) : result Z :=
  match started with
  | Some t => inr (trunc (now - t))
  | None =>
    inl (mk_exn "TypeError"
           "unsupported operand type(s) for -: 'datetime.datetime' and 'NoneType'")
  end.

(** The [try] block of [handler]. *)
Definition run_job (p : payload) : M (string * string * metrics) :=
  let job_id := jobId p in
  let! _ := update_job_status job_id "processing" 0 None None None in
  let! contours :=
    lift (fetch_contours_from_postgis (projectId p) (propertyBoundaryId p)) in
  let! _ := update_job_status job_id "processing" 20 None None None in
  let! _ := (if decide (length contours = 0%nat)
             then raise (ValueError "No contour data found for project")
             else ret tt) in
  let! generated :=
    lift (generate_dem contours (payload_bounds p) (resolution p)
            (interpolationMethod p) (projectId p)) in
  let '(dem, width, height) := generated in
  let! _ := update_job_status job_id "processing" 70 None None None in
  let! validation_metrics := lift (validate_dem dem contours) in
  let! _ := update_job_status job_id "processing" 85 None None None in
  let! _ := (if decide (rmse validation_metrics > 2.0)
             then raise (ValueError ("DEM validation failed: RMSE "
                                     ++ format_2f (rmse validation_metrics)
                                     ++ "m exceeds threshold"))
             else ret tt) in
  let! dem_stats := lift (calculate_dem_stats dem) in
  let s3_path := ("dems/" ++ projectId p ++ "/dem_"
                  ++ format_float (resolution p) ++ "m.tif")%string in
  let! _ := lift (upload_to_s3 dem s3_path) in
  let! _ := emit (DemUploaded s3_path) in
  let! _ := update_job_status job_id "processing" 95 None None None in
  let! dem_id := lift (create_dem_record p s3_path validation_metrics) in
  let! _ := emit (DemRecorded dem_id) in
  let! started := lift (get_job_start_time job_id) in
  let! processing_time := lift (processing_time_since started) in
  let! _ := update_job_status job_id "completed" 100 (Some dem_id)
              (Some processing_time) None in
  ret (dem_id, s3_path, validation_metrics).

(** [handler]: the [try] block and its [except Exception] clause; an
    exception raised by the update in the [except] clause leaves the
    handler. *)
Definition handler (p : payload) : result response * list event :=
  match run_job p [] with
  | (inr ok, log) => (inr (Response 200 (inr ok)), log)
  | (inl e, log) =>
    let error_message := (exn_type e ++ ": " ++ exn_message e)%string in
    match update_job_status (jobId p) "failed" 0 None None (Some error_message)
            log with
    | (inr _, log') => (inr (Response 500 (inl error_message)), log')
    | (inl e', log') => (inl e', log')
    end
  end.

End Handler.

End DemLambda.

(** ** Masks of [identify_facing_areas] and [identify_unbuildable_areas] *)

Module AreaMasks.

(** The entries written to [north_facing_mask] and [south_facing_mask] for
    one angle by the nested loop of [identify_facing_areas]; the masks start
    at 0 and a negative angle is skipped. *)
Definition north_facing_cell (angle : R) : nat :=
  if decide (angle < 0) then 0%nat
  else if decide (angle >= 315 ∨ angle < 45) then 1%nat else 0%nat.

Definition south_facing_cell (angle : R) : nat :=
  if decide (angle < 0) then 0%nat
  else if decide (135 <= angle ∧ angle < 225) then 1%nat else 0%nat.

Definition north_facing_mask (aspect : grid) : list (list nat) :=
  map (map north_facing_cell) aspect.

Definition south_facing_mask (aspect : grid) : list (list nat) :=
  map (map south_facing_cell) aspect.

(** [(slope > max_buildable_slope).astype(np.uint8)]. *)
Definition unbuildable_mask (slope : grid) (max_buildable_slope : R)
  : list (list nat) :=
  map (map (λ s, if decide (s > max_buildable_slope) then 1%nat else 0%nat))
      slope.

(** [np.sum(mask)]. *)
Definition mask_sum (mask : list (list nat)) : nat :=
  foldr Nat.add 0%nat (concat mask).

End AreaMasks.

(** ** The computation of [process_profile_generation] *)

Module ProfileLambda.

Import ProfileOps.


End ProfileLambda.

(** ** [gdal_operations.py] and the grid of [generate_dem] *)

Module GdalOps.

Import DemGenerator.

(** The grid dimensions computed by [generate_dem]; a resolution of 0 raises
    [ZeroDivisionError]. *)
Definition grid_dimensions (b : bounds) (resolution : R) : option (Z * Z) :=
  let lat_range := maxLat b - minLat b in
  let lng_range := maxLng b - minLng b in
  let height_m := lat_range * 111320 in
  let width_m :=
    lng_range * 111320 * Rabs ((minLat b + maxLat b) / 2 * 3.14159 / 180) in
  if decide (resolution = 0) then None
  else Some (trunc (width_m / resolution), trunc (height_m / resolution)).

(** The geotransform set by [run_gdal_grid] and by [create_geotiff]; a width
    or a height of 0 raises [ZeroDivisionError]. *)
Definition grid_geotransform (b : bounds) (width height : Z)
  : option geotransform :=
  if decide (width = 0%Z) then None
  else if decide (height = 0%Z) then None
  else Some {| gt0 := minLng b;
               gt1 := (maxLng b - minLng b) / IZR width;
               gt2 := 0;
               gt3 := maxLat b;
               gt4 := 0;
               gt5 := - (maxLat b - minLat b) / IZR height |}.

(** The dictionary returned by [calculate_dem_stats], with its keys [min],
    [max] and [avg]. *)
Record dem_stats := {
  dem_min : R;
  dem_max : R;
  dem_avg : R
}.

(** [calculate_dem_stats] on the array of the DEM; [np.min] raises on an
    empty selection. *)
Definition calculate_dem_stats (array : grid) : option dem_stats :=
  let valid_data := filter (λ v, v ≠ -9999) (concat array) in
  match valid_data with
  | [] => None
  | v0 :: rest =>
    Some {| dem_min := fold_left Rmin rest v0;
            dem_max := fold_left Rmax rest v0;
            dem_avg := Rsum valid_data / INR (length valid_data) |}
  end.

End GdalOps.

(** ** Vocabulary of the statements *)

Definition ascending (th : SlopeOps.thresholds) : Prop :=
  SlopeOps.flat th < SlopeOps.moderate th ∧
  SlopeOps.moderate th < SlopeOps.steep th.

Definition default_thresholds : SlopeOps.thresholds :=
  {| SlopeOps.flat := 5; SlopeOps.moderate := 15; SlopeOps.steep := 25 |}.

(** A grid all of whose cells are [c]. *)
Definition uniform (c : R) (a : grid) : Prop := all_cells (λ v, v = c) a.


(** A ramp facing east: the elevation drops by one metre per column and
    does not change along a column. *)
Definition east_ramp (e0 : R) (dem : dataset) : Prop :=
  ∀ y x, (y < RasterYSize dem)%nat → (x < RasterXSize dem)%nat →
         cell (ReadAsArray dem) y x = e0 - INR x.

(** Cells of one metre by one metre, for both calculators. *)
Definition one_metre_cells (dem : dataset) : Prop :=
  SlopeOps.cell_size_x_m dem = 1 ∧ SlopeOps.cell_size_y_m dem = 1 ∧
  AspectOps.cell_size_x_m dem = 1 ∧ AspectOps.cell_size_y_m dem = 1.

(** Test rasters at the equator with cells of one metre: a 3 by 3 ramp
    facing east, a 2 by 2 plateau and a 3 by 3 plateau. *)
Definition metre_geotransform (height : nat) : geotransform :=
  {| gt0 := 0; gt1 := 1 / 111320; gt2 := 0;
     gt3 := INR height / 2 / 111320; gt4 := 0; gt5 := - (1 / 111320) |}.

Definition ramp3 : dataset :=
  {| RasterXSize := 3; RasterYSize := 3;
     GetGeoTransform := metre_geotransform 3;
     GetNoDataValue := None;
     ReadAsArray := [[10; 9; 8]; [10; 9; 8]; [10; 9; 8]] |}.

Definition plateau2 : dataset :=
  {| RasterXSize := 2; RasterYSize := 2;
     GetGeoTransform := metre_geotransform 2;
     GetNoDataValue := None;
     ReadAsArray := [[5; 5]; [5; 5]] |}.


(** A raster that differs from [ds] in its array only. *)
Definition with_array (ds : dataset) (a : grid) : dataset :=
  {| RasterXSize := RasterXSize ds; RasterYSize := RasterYSize ds;
     GetGeoTransform := GetGeoTransform ds;
     GetNoDataValue := GetNoDataValue ds;
     ReadAsArray := a |}.

(** No smoothing: the filter that returns its input. *)
Definition no_filter (sigma : R) (a : grid) : grid := a.

(** Two profile points at the same place: all fields but the grade agree. *)
Definition same_track (p q : ProfileOps.ProfilePoint) : Prop :=
  ProfileOps.distance p = ProfileOps.distance q ∧
  ProfileOps.elevation p = ProfileOps.elevation q ∧
  ProfileOps.lat p = ProfileOps.lat q ∧
  ProfileOps.lng p = ProfileOps.lng q.

(** The point at index [i] once the grade loop has passed the indices below
    [k]: graded against its predecessor in the input when [1 <= i < k]. *)
Definition graded_upto (pts : list ProfileOps.ProfilePoint) (k i : nat)
  : option ProfileOps.ProfilePoint :=
  curr ← pts !! i;
  if decide (1 <= i < k)%nat
  then prev ← pts !! (i - 1)%nat;
       Some (ProfileOps.set_grade (ProfileOps.grade_between prev curr) curr)
  else Some curr.

(** Elevation at index [i], the change of elevation on the step that ends
    at index [i], and its positive and negative parts. *)
Definition elev_at (pts : list ProfileOps.ProfilePoint) (i : nat) : R :=
  default 0 (ProfileOps.elevation <$> pts !! i).

Definition delta (pts : list ProfileOps.ProfilePoint) (i : nat) : R :=
  elev_at pts i - elev_at pts (i - 1).

Definition positive_part (d : R) : R := if decide (d > 0) then d else 0.
Definition negative_part (d : R) : R := if decide (d > 0) then 0 else Rabs d.

(** The sum of [f i] over the indices [i] of a list. *)
Definition sum_over (f : nat → R) (l : list nat) : R :=
  foldr Rplus 0 (f <$> l).

(** A two-point profile that rises 12.5 m over 250 m. *)
Definition short_climb : list ProfileOps.ProfilePoint :=
  [ {| ProfileOps.distance := 0; ProfileOps.elevation := 100;
       ProfileOps.lat := 0; ProfileOps.lng := 0; ProfileOps.grade := 0 |};
    {| ProfileOps.distance := 250; ProfileOps.elevation := 112.5;
       ProfileOps.lat := 0; ProfileOps.lng := 0; ProfileOps.grade := 0 |} ].

(** A line of 1000 m due north from the equator: [(lng, lat)] pairs. *)
Definition line_1000m : list (R * R) :=
  [(0, 0); (0, 1000 / 6371000 * 180 / PI)].




(** A DEM of one cell at elevation 0, a contour at elevation 10 through that
    cell, and collaborators that never fail. *)
Definition one_cell_dem : dataset :=
  {| RasterXSize := 1; RasterYSize := 1;
     GetGeoTransform :=
       {| gt0 := 0; gt1 := 1; gt2 := 0; gt3 := 0; gt4 := 0; gt5 := -1 |};
     GetNoDataValue := Some (-9999);
     ReadAsArray := [[0]] |}.

Definition high_contour : DemGenerator.contour :=
  {| DemGenerator.contour_elevation := 10;
     DemGenerator.geometry_type := "LineString";
     DemGenerator.coordinates := [(0, 0)] |}.

Definition test_payload : DemGenerator.payload :=
  {| DemGenerator.jobId := "job_abc123";
     DemGenerator.projectId := "proj_456";
     DemGenerator.propertyBoundaryId := "boundary_789";
     DemGenerator.resolution := 1;
     DemGenerator.interpolationMethod := "tin";
     DemGenerator.payload_bounds :=
       {| DemGenerator.minLat := -1; DemGenerator.maxLat := 0;
          DemGenerator.minLng := 0; DemGenerator.maxLng := 1 |} |}.



Definition generate_one_cell (contours : list DemGenerator.contour)
    (b : DemGenerator.bounds) (resolution : R) (method project_id : string)
  : DemGenerator.result (dataset * Z * Z) := inr (one_cell_dem, 1%Z, 1%Z).

Definition stats_ok (dem : dataset) : DemGenerator.result (R * R * R) :=
  inr (0, 0, 0).

Definition upload_ok (dem : dataset) (s3_path : string)
  : DemGenerator.result unit := inr tt.

Definition record_ok (p : DemGenerator.payload) (s3_path : string)
    (m : DemGenerator.metrics) : DemGenerator.result string := inr "dem_1"%string.

(** Formatting of the one RMSE of the example, 10. *)
Definition format_ten (x : R) : string := "10.00".

(** The number of cells of direction class [k]. *)
Definition cells_of_class (k : nat) (cells : list R) : nat :=
  length (filter (λ a, AspectOps.classify_angle a = k) cells).

Definition north_class (k : nat) : bool :=
  bool_decide (k = AspectOps.D_N ∨ k = AspectOps.D_NE ∨ k = AspectOps.D_NW).

Definition south_class (k : nat) : bool :=
  bool_decide (k = AspectOps.D_S ∨ k = AspectOps.D_SE ∨ k = AspectOps.D_SW).

(** The cells that carry the slope no-data value. *)
Definition nodata_cells (slope : grid) : nat :=
  length (filter (λ s, s = SlopeOps.SLOPE_NODATA) (concat slope)).

(** The mean of [f] over the angles, in radians. *)
Definition mean_of (f : R → R) (angles : list R) : R :=
  foldr Rplus 0 ((λ a, f (radians a)) <$> angles) / INR (length angles).

(** The valid population: the cells whose aspect is not negative (the flat
    sentinel is -1). *)
Definition valid_angles (aspect : grid) : list R :=
  filter (λ a, ¬ a < 0) (concat aspect).

(** [a'] has the shape of [a], every property of all cells of [a] holds of all
    cells of [a'], and the interior cells are those of [a]. *)
Definition edge_update (h w : nat) (a a' : grid) : Prop :=
  has_shape h w a' ∧
  (∀ P : R → Prop, all_cells P a → all_cells P a') ∧
  (∀ y x, interior h w y x → lookup2 a' y x = lookup2 a y x).

(** The interior index nearest to [i] among [n] indices. *)
Definition nearest_interior (n i : nat) : nat := Nat.max 1 (Nat.min i (n - 2)).

(** Thresholds that do not decrease from flat to steep. *)
Definition ordered (th : SlopeOps.thresholds) : Prop :=
  SlopeOps.flat th <= SlopeOps.moderate th ∧
  SlopeOps.moderate th <= SlopeOps.steep th.

(** A point of the segment from [a] to [b]. *)
Definition on_segment (p a b : R * R) : Prop :=
  ∃ t, 0 <= t <= 1 ∧
       p = (a.1 + (b.1 - a.1) * t, a.2 + (b.2 - a.2) * t).

(** The grade [calculate_grades] gives the point at index [i]. *)
Definition grade_at (pts : list ProfileOps.ProfilePoint) (i : nat) : R :=
  match i with
  | O => 0
  | S j =>
    match pts !! j, pts !! i with
    | Some prev, Some curr => ProfileOps.grade_between prev curr
    | _, _ => 0
    end
  end.

(** The length of a reported segment [(start, end, grade)], and the segment
    the statistics report for the step that ends at index [i]. *)
Definition segment_length (s : R * R * R) : R := s.1.2 - s.1.1.

Definition excessive_segment (pts : list ProfileOps.ProfilePoint) (th : R)
    (i : nat) : option (R * R * R) :=
  prev ← pts !! (i - 1)%nat;
  curr ← pts !! i;
  if decide (Rabs (ProfileOps.grade curr) > th)
  then Some (ProfileOps.distance prev, ProfileOps.distance curr,
             round1 (ProfileOps.grade curr))
  else None.

(** Distances that do not decrease along the profile. *)
Definition nondecreasing (pts : list ProfileOps.ProfilePoint) : Prop :=
  ∀ i p q, pts !! i = Some p → pts !! S i = Some q →
           ProfileOps.distance p <= ProfileOps.distance q.

(** The cell an edge copy reads for index [i] among [n] indices: the
    neighbour one step inside for the first and the last index. *)
Definition edge_source (n i : nat) : nat :=
  if decide (i = 0%nat) then 1%nat
  else if decide (i = (n - 1)%nat) then (n - 2)%nat else i.

(** The report of [DemLambda] read as the report of [DemGenerator]: the
    status, progress, DEM id and error message of an update. *)
Definition status_event (ev : DemLambda.event) : DemGenerator.event :=
  match ev with
  | DemLambda.JobUpdated u =>
    DemGenerator.StatusUpdate (DemLambda.set_status u) (DemLambda.set_progress u)
      (DemLambda.set_demId u) (DemLambda.set_errorMessage u)
  | DemLambda.DemUploaded s3_path => DemGenerator.S3Upload s3_path
  | DemLambda.DemRecorded dem_id => DemGenerator.DemRecord dem_id
  end.

(** A contour at the elevation of [one_cell_dem], a job table that takes
    every update, and one whose connection is lost when the start time is
    read. *)
Definition level_contour : DemGenerator.contour :=
  {| DemGenerator.contour_elevation := 0;
     DemGenerator.geometry_type := "LineString";
     DemGenerator.coordinates := [(0, 0)] |}.

Definition fetch_level (project_id boundary_id : string)
  : DemGenerator.result (list DemGenerator.contour) := inr [level_contour].

Definition updates_ok (job_id : string) (u : DemLambda.job_update)
  : DemGenerator.result unit := inr tt.

Definition connection_lost (job_id : string)
  : DemGenerator.result (option (option R)) :=
  inl (DemGenerator.mk_exn "OperationalError" "server closed the connection").

(** The values the C library (glibc, binary64) returns for [sin], [cos] and
    [atan2] at the arguments met by the circular mean of 10 and 350 degrees:
    [radians 10 = 0x1.657184ae74487p-3], [radians 350 = 0x1.86f4291ecf2f4p+2]
    and the two means. *)
Definition libm_sin (x : float) : float :=
  if (x =? 0x1.657184ae74487p-3)%float then 0x1.63a1a7e0b7389p-3%float
  else if (x =? 0x1.86f4291ecf2f4p+2)%float then (-0x1.63a1a7e0b738bp-3)%float
  else nan.

Definition libm_cos (x : float) : float :=
  if (x =? 0x1.657184ae74487p-3)%float then 0x1.f838b8c811c17p-1%float
  else if (x =? 0x1.86f4291ecf2f4p+2)%float then 0x1.f838b8c811c17p-1%float
  else nan.

Definition libm_atan2 (y x : float) : float :=
  if ((y =? -0x1p-55) && (x =? 0x1.f838b8c811c17p-1))%float
  then (-0x1.03f2ff9989907p-55)%float
  else nan.

(** * Part II: properties *)

(** ** Steepness classification *)

Section SteepnessClassification.
Import SlopeOps.

Lemma default_thresholds_ascending : ascending default_thresholds.
Proof. unfold ascending; simpl; lra. Qed.

(** The four classes of a cell, for ascending thresholds. *)
Lemma classify_cell_cases (th : thresholds) (s : R) :
  ascending th →
  (classify_cell th s = FLAT ↔ s <= flat th) ∧
  (classify_cell th s = MODERATE ↔ flat th < s ∧ s <= moderate th) ∧
  (classify_cell th s = STEEP ↔ moderate th < s ∧ s <= steep th) ∧
  (classify_cell th s = VERY_STEEP ↔ steep th < s).
Proof.
  intros [Hfm Hms]. unfold classify_cell, FLAT, MODERATE, STEEP, VERY_STEEP.
  repeat case_decide; repeat split; intros; try discriminate; try lra;
    try reflexivity; exfalso; intuition lra.
Qed.

(** C1, as amended: with ascending thresholds the classes are the intervals
    closed on the right: Flat iff [s <= flat], Moderate iff
    [flat < s <= moderate], Steep iff [moderate < s <= steep] and VerySteep
    iff [steep < s]; a slope equal to a threshold is in the lower class; the
    counts of the statistics are the numbers of cells of these classes. *)
Theorem classify_cell_intervals (th : thresholds) (s : R) :
  ascending th →
  (classify_cell th s = FLAT ↔ s <= flat th) ∧
  (classify_cell th s = MODERATE ↔ flat th < s ∧ s <= moderate th) ∧
  (classify_cell th s = STEEP ↔ moderate th < s ∧ s <= steep th) ∧
  (classify_cell th s = VERY_STEEP ↔ steep th < s) ∧
  (∀ cells : list R,
     count_where (λ v, v <= flat th) cells
       = length (filter (λ v, classify_cell th v = FLAT) cells) ∧
     count_where (λ v, flat th < v ∧ v <= moderate th) cells
       = length (filter (λ v, classify_cell th v = MODERATE) cells) ∧
     count_where (λ v, moderate th < v ∧ v <= steep th) cells
       = length (filter (λ v, classify_cell th v = STEEP) cells) ∧
     count_where (λ v, steep th < v) cells
       = length (filter (λ v, classify_cell th v = VERY_STEEP) cells)).
Proof.
  intros Hasc.
  destruct (classify_cell_cases th s Hasc) as (H1 & H2 & H3 & H4).
  repeat (split; [assumption|]).
  intros cells. unfold count_where.
  repeat split; f_equal; apply list_filter_iff; intros v;
    destruct (classify_cell_cases th v Hasc) as (V1 & V2 & V3 & V4);
    by symmetry.
Qed.

Lemma classify_cell_intervals_witness :
  ascending default_thresholds ∧
  (classify_cell default_thresholds 15 = MODERATE ↔ 5 < 15 ∧ 15 <= 15).
Proof.
  split; [exact default_thresholds_ascending|].
  exact (proj1 (proj2 (classify_cell_intervals default_thresholds 15
                         default_thresholds_ascending))).
Defined.

(** C1, as stated, fails at a slope equal to the flat threshold: 5% with
    thresholds 5/15/25 is classified Flat although it is not below 5. *)
Lemma classify_cell_boundary_counterexample :
  ascending default_thresholds ∧
  classify_cell default_thresholds 5 = FLAT ∧
  ¬ (classify_cell default_thresholds 5 = FLAT ↔ 5 < flat default_thresholds) ∧
  ¬ (classify_cell default_thresholds 5 = MODERATE ↔
       flat default_thresholds <= 5 ∧ 5 < moderate default_thresholds).
Proof.
  assert (H5 : classify_cell default_thresholds 5 = FLAT).
  { unfold classify_cell; simpl. repeat case_decide; try reflexivity; lra. }
  split; [exact default_thresholds_ascending|].
  split; [exact H5|]. split.
  - intros [Hl _]. specialize (Hl H5). simpl in Hl. lra.
  - intros [_ Hr]. rewrite H5 in Hr. simpl in Hr.
    assert (FLAT = MODERATE) by (apply Hr; lra). discriminate.
Qed.

End SteepnessClassification.

(** ** Direction classification *)

Section DirectionClassification.
Import AspectOps.

Ltac bins := repeat case_decide; try reflexivity; try discriminate; try lra.

(** The chain returns the flat code exactly for negative angles. *)
Lemma classify_angle_flat (angle : R) : classify_angle angle = D_FLAT ↔ angle < 0.
Proof.
  unfold classify_angle, D_FLAT, D_N, D_NE, D_E, D_SE, D_S, D_SW, D_W, D_NW.
  split; intros H; bins.
Qed.

(** C8: every angle in [[0, 360)] gets exactly one of the eight direction
    codes, the one of the 45-degree bin it lies in (N wraps around 0), and
    every slope value gets exactly one of the four steepness codes. *)
Theorem classification_exhaustive_exclusive (angle : R) :
  0 <= angle < 360 →
  (classify_angle angle = D_N ↔ angle >= 337.5 ∨ angle < 22.5) ∧
  (classify_angle angle = D_NE ↔ 22.5 <= angle < 67.5) ∧
  (classify_angle angle = D_E ↔ 67.5 <= angle < 112.5) ∧
  (classify_angle angle = D_SE ↔ 112.5 <= angle < 157.5) ∧
  (classify_angle angle = D_S ↔ 157.5 <= angle < 202.5) ∧
  (classify_angle angle = D_SW ↔ 202.5 <= angle < 247.5) ∧
  (classify_angle angle = D_W ↔ 247.5 <= angle < 292.5) ∧
  (classify_angle angle = D_NW ↔ 292.5 <= angle < 337.5) ∧
  (exists! d, d ∈ [D_N; D_NE; D_E; D_SE; D_S; D_SW; D_W; D_NW] ∧
         classify_angle angle = d) ∧
  (∀ th s, exists! c, c ∈ [SlopeOps.FLAT; SlopeOps.MODERATE; SlopeOps.STEEP;
                       SlopeOps.VERY_STEEP] ∧
                 SlopeOps.classify_cell th s = c).
Proof.
  intros [H0 H360].
  repeat match goal with |- _ ∧ _ => split end;
    try (unfold classify_angle, D_FLAT, D_N, D_NE, D_E, D_SE, D_S, D_SW, D_W,
           D_NW; split; [intros ?; bins | intros ?; bins; intuition lra]).
  - exists (classify_angle angle). split.
    + split; [|reflexivity].
      unfold classify_angle, D_FLAT, D_N, D_NE, D_E, D_SE, D_S, D_SW, D_W, D_NW.
      bins; repeat constructor.
    + intros d [_ Hd]. exact Hd.
  - intros th s. exists (SlopeOps.classify_cell th s). split.
    + split; [|reflexivity].
      unfold SlopeOps.classify_cell, SlopeOps.NODATA_CLASS, SlopeOps.FLAT,
        SlopeOps.MODERATE, SlopeOps.STEEP, SlopeOps.VERY_STEEP.
      repeat case_decide;
        first [by repeat constructor | exfalso; intuition lra].
    + intros c [_ Hc]. exact Hc.
Qed.

Lemma classification_exhaustive_exclusive_witness :
  0 <= 337.5 < 360 ∧ classify_angle 337.5 = D_N.
Proof.
  assert (H : 0 <= 337.5 < 360) by lra.
  split; [exact H|].
  apply (proj1 (classification_exhaustive_exclusive 337.5 H)). left. lra.
Defined.

End DirectionClassification.

(** ** Denominators of the category percentages *)

Section Percentages.
Import AspectOps.

(** One round of the counting loop, by the class of the angle. *)
Lemma count_angle_step (c : counts) (valid : list R) (angle : R) :
  count_angle (c, valid) angle =
  (bump c (classify_angle angle) (north_class (classify_angle angle))
          (south_class (classify_angle angle)),
   if decide (angle < 0) then valid else valid ++ [angle]).
Proof.
  unfold count_angle, classify_angle.
  repeat case_decide; try reflexivity; try lra; exfalso; intuition lra.
Qed.

(** The loop invariant: each counter has grown by the number of cells of its
    class, and [valid_aspects] by the angles that are not negative. *)
Lemma count_angle_loop (cells : list R) (c : counts) (valid : list R) :
  let st := fold_left count_angle cells (c, valid) in
  (∀ k, by_class st.1 k = (by_class c k + cells_of_class k cells)%nat) ∧
  northFacing st.1 =
    (northFacing c + length (filter (λ a, north_class (classify_angle a) = true) cells))%nat ∧
  southFacing st.1 =
    (southFacing c + length (filter (λ a, south_class (classify_angle a) = true) cells))%nat ∧
  st.2 = valid ++ filter (λ a, ¬ a < 0) cells.
Proof.
  revert c valid. induction cells as [|a cells IH]; intros c valid.
  - unfold cells_of_class. simpl. repeat split; try lia.
    by rewrite app_nil_r.
  - cbn [fold_left]. rewrite count_angle_step.
    destruct (IH (bump c (classify_angle a) (north_class (classify_angle a))
                       (south_class (classify_angle a)))
                 (if decide (a < 0) then valid else valid ++ [a]))
      as (Hk & Hn & Hs & Hv).
    simpl in Hk, Hn, Hs, Hv. repeat split.
    + intros k. rewrite Hk. unfold cells_of_class. rewrite filter_cons. simpl.
      repeat case_decide; simpl; try lia; congruence.
    + rewrite Hn. rewrite filter_cons.
      destruct (north_class (classify_angle a)); case_decide; simpl; try lia;
        congruence.
    + rewrite Hs. rewrite filter_cons.
      destruct (south_class (classify_angle a)); case_decide; simpl; try lia;
        congruence.
    + rewrite Hv. rewrite filter_cons.
      repeat case_decide; try lra; try contradiction.
      * reflexivity.
      * by rewrite <- app_assoc.
Qed.

Lemma valid_cells_length (slope : grid) :
  length (SlopeOps.valid_cells slope) =
  (length (concat slope) - nodata_cells slope)%nat.
Proof.
  unfold SlopeOps.valid_cells, nodata_cells.
  induction (concat slope) as [|s l IH]; [reflexivity|].
  rewrite !filter_cons. repeat case_decide; simpl; try contradiction.
  - assert (length (filter (λ s, s = SlopeOps.SLOPE_NODATA) l) <= length l)%nat
      by apply length_filter.
    lia.
  - lia.
Qed.

Lemma valid_cells_nonempty (slope : grid) (s : R) :
  s ∈ concat slope → s ≠ SlopeOps.SLOPE_NODATA → SlopeOps.valid_cells slope ≠ [].
Proof.
  intros Hin Hs Hnil.
  assert (Hv : s ∈ SlopeOps.valid_cells slope).
  { unfold SlopeOps.valid_cells. apply list_elem_of_filter. by split. }
  rewrite Hnil in Hv. by apply not_elem_of_nil in Hv.
Qed.

(** C2, as amended: the aspect percentages (flat, the eight octants and the
    two aggregates) have the cell count of the whole grid as denominator,
    flat cells included; the slope percentages have the number of cells that
    do not carry the no-data value -9999 as denominator. *)
Theorem percentage_denominators (aspect slope : grid)
    (th : SlopeOps.thresholds) (max_buildable_slope : R) :
  concat aspect ≠ [] →
  SlopeOps.valid_cells slope ≠ [] →
  (∃ st, calculate_aspect_statistics aspect = Some st ∧
     let cells := concat aspect in
     let pct k := SlopeOps.percent_of k (length cells) in
     flatPercent st = pct (cells_of_class D_FLAT cells) ∧
     northPercent st = pct (cells_of_class D_N cells) ∧
     northeastPercent st = pct (cells_of_class D_NE cells) ∧
     eastPercent st = pct (cells_of_class D_E cells) ∧
     southeastPercent st = pct (cells_of_class D_SE cells) ∧
     southPercent st = pct (cells_of_class D_S cells) ∧
     southwestPercent st = pct (cells_of_class D_SW cells) ∧
     westPercent st = pct (cells_of_class D_W cells) ∧
     northwestPercent st = pct (cells_of_class D_NW cells)) ∧
  (∃ st, SlopeOps.calculate_slope_statistics slope th max_buildable_slope = Some st ∧
     let valid := SlopeOps.valid_cells slope in
     let pct k :=
       SlopeOps.percent_of k (length (concat slope) - nodata_cells slope) in
     SlopeOps.flatPercent st =
       pct (SlopeOps.count_where (λ s, s <= SlopeOps.flat th) valid) ∧
     SlopeOps.moderatePercent st =
       pct (SlopeOps.count_where
              (λ s, SlopeOps.flat th < s ∧ s <= SlopeOps.moderate th) valid) ∧
     SlopeOps.steepPercent st =
       pct (SlopeOps.count_where
              (λ s, SlopeOps.moderate th < s ∧ s <= SlopeOps.steep th) valid) ∧
     SlopeOps.verySteepPercent st =
       pct (SlopeOps.count_where (λ s, SlopeOps.steep th < s) valid) ∧
     SlopeOps.unbuildablePercent st =
       pct (SlopeOps.count_where (λ s, max_buildable_slope < s) valid)).
Proof.
  intros Hcells Hvalid. split.
  - unfold calculate_aspect_statistics.
    pose proof (count_angle_loop (concat aspect) zero_counts []) as (Hk & _).
    destruct (fold_left count_angle (concat aspect) (zero_counts, []))
      as [c valid] eqn:Hfold.
    simpl in Hk.
    case_decide as Hlen.
    { destruct (concat aspect); [contradiction | discriminate]. }
    eexists. split; [reflexivity|]. simpl.
    unfold SlopeOps.percent_of. rewrite !Hk. repeat split.
  - unfold SlopeOps.calculate_slope_statistics.
    rewrite <- valid_cells_length.
    destruct (SlopeOps.valid_cells slope) as [|v0 rest] eqn:Hv; [contradiction|].
    eexists. split; [reflexivity|]. simpl. repeat split.
Qed.

Lemma percentage_denominators_witness :
  concat [[-1; 10]] ≠ [] ∧
  SlopeOps.valid_cells [[-9999; 1; 10]] ≠ [] ∧
  (∃ st, calculate_aspect_statistics [[-1; 10]] = Some st ∧
         flatPercent st =
           SlopeOps.percent_of (cells_of_class D_FLAT [-1; 10]) 2) ∧
  (∃ st, SlopeOps.calculate_slope_statistics [[-9999; 1; 10]]
           default_thresholds 15 = Some st ∧
         SlopeOps.flatPercent st =
           SlopeOps.percent_of
             (SlopeOps.count_where (λ s, s <= 5)
                (SlopeOps.valid_cells [[-9999; 1; 10]]))
             (3 - nodata_cells [[-9999; 1; 10]])).
Proof.
  assert (Ha : concat [[-1; 10]] ≠ []) by discriminate.
  assert (Hs : SlopeOps.valid_cells [[-9999; 1; 10]] ≠ []).
  { apply (valid_cells_nonempty _ 1).
    - simpl. do 1 constructor. constructor.
    - unfold SlopeOps.SLOPE_NODATA. lra. }
  destruct (percentage_denominators [[-1; 10]] [[-9999; 1; 10]]
              default_thresholds 15 Ha Hs)
    as [(sa & Hsa & Hflat & _) (ss & Hss & Hsflat & _)].
  split; [exact Ha|]. split; [exact Hs|]. split.
  - exists sa. split; [exact Hsa | exact Hflat].
  - exists ss. split; [exact Hss | exact Hsflat].
Defined.

(** C2, as stated, fails for the slope statistics: on the grid
    [[-9999, 1, 10]] (one no-data cell, thresholds 5/15/25) the flat
    percentage is 50, one flat cell out of the two valid ones, which is no
    count of cells divided by the three cells of the full grid. *)
Lemma slope_percent_denominator_counterexample :
  ∃ st, SlopeOps.calculate_slope_statistics [[-9999; 1; 10]]
          default_thresholds 15 = Some st ∧
        length (concat [[-9999; 1; 10]]) = 3%nat ∧
        SlopeOps.flatPercent st = 50 ∧
        ∀ k : nat, SlopeOps.flatPercent st ≠
                   SlopeOps.percent_of k (length (concat [[-9999; 1; 10]])).
Proof.
  assert (Hv : SlopeOps.valid_cells [[-9999; 1; 10]] = [1; 10]).
  { unfold SlopeOps.valid_cells, SlopeOps.SLOPE_NODATA. simpl concat.
    rewrite !filter_cons, filter_nil.
    repeat case_decide; try reflexivity; try lra; exfalso; auto. }
  assert (Hc : SlopeOps.count_where (λ s, s <= 5) [1; 10] = 1%nat).
  { unfold SlopeOps.count_where. rewrite !filter_cons, filter_nil.
    repeat case_decide; try reflexivity; lra. }
  unfold SlopeOps.calculate_slope_statistics. rewrite Hv.
  eexists. split; [reflexivity|]. split; [reflexivity|].
  cbn [SlopeOps.flatPercent SlopeOps.flat default_thresholds].
  rewrite Hc. unfold SlopeOps.percent_of. simpl length.
  split.
  - simpl. lra.
  - intros k Hk.
    assert (H2 : INR (2 * k) = INR 3).
    { rewrite mult_INR. simpl INR in *. lra. }
    apply INR_eq in H2. lia.
Qed.

End Percentages.

(** ** Facts about [atan2] and degrees *)

Section Atan2.

Lemma atan2_pos_x (y x : R) : 0 < x → atan2 y x = atan (y / x).
Proof. intros Hx. unfold atan2. case_decide; [reflexivity | lra]. Qed.

Lemma atan2_0_pos (x : R) : 0 < x → atan2 0 x = 0.
Proof.
  intros Hx. rewrite atan2_pos_x by assumption.
  replace (0 / x) with 0 by (unfold Rdiv; ring). apply atan_0.
Qed.

Lemma atan_nonneg (t : R) : 0 <= t → 0 <= atan t.
Proof.
  intros [Ht | <-].
  - left. rewrite <- atan_0. by apply atan_increasing.
  - rewrite atan_0. lra.
Qed.

Lemma atan_pos (t : R) : 0 < t → 0 < atan t.
Proof. intros Ht. rewrite <- atan_0. by apply atan_increasing. Qed.

Lemma atan_neg (t : R) : t < 0 → atan t < 0.
Proof. intros Ht. rewrite <- atan_0. by apply atan_increasing. Qed.

Lemma atan_nonpos (t : R) : t <= 0 → atan t <= 0.
Proof.
  intros [Ht | ->].
  - left. by apply atan_neg.
  - rewrite atan_0. lra.
Qed.

Lemma div_nonpos (y x : R) : 0 <= y → x < 0 → y / x <= 0.
Proof.
  intros Hy Hx. unfold Rdiv.
  assert (/ x < 0) by (by apply Rinv_lt_0_compat). nra.
Qed.

Lemma div_pos_neg_neg (y x : R) : y < 0 → x < 0 → 0 < y / x.
Proof.
  intros Hy Hx. unfold Rdiv.
  assert (/ x < 0) by (by apply Rinv_lt_0_compat). nra.
Qed.

(** The range of [atan2] is [(-PI, PI]]. *)
Lemma atan2_bounds (y x : R) : - PI < atan2 y x <= PI.
Proof.
  pose proof PI_RGT_0 as Hpi. unfold atan2.
  repeat case_decide; try lra.
  - pose proof (atan_bound (y / x)). lra.
  - pose proof (atan_bound (y / x)).
    pose proof (atan_nonpos (y / x) (div_nonpos y x ltac:(assumption) ltac:(assumption))).
    lra.
  - pose proof (atan_bound (y / x)).
    assert (0 < y / x) by (apply div_pos_neg_neg; lra).
    assert (0 < atan (y / x)) by (by apply atan_pos).
    lra.
Qed.

(** In the closed first quadrant [atan2] is not negative. *)
Lemma atan2_nonneg (y x : R) : 0 <= y → 0 <= x → 0 <= atan2 y x.
Proof.
  intros Hy Hx. pose proof PI_RGT_0 as Hpi. unfold atan2.
  repeat case_decide; try lra.
  apply atan_nonneg. unfold Rdiv.
  assert (0 < / x) by (by apply Rinv_0_lt_compat). nra.
Qed.

Lemma degrees_0 : degrees 0 = 0.
Proof. unfold degrees, Rdiv. ring. Qed.

Lemma degrees_bounds (r : R) :
  - PI < r <= PI → -180 < degrees r <= 180.
Proof.
  intros [Hlo Hhi]. pose proof PI_RGT_0 as Hpi. unfold degrees, Rdiv.
  assert (Hinv : 0 < / PI) by (by apply Rinv_0_lt_compat).
  assert (Hone : PI * / PI = 1) by (apply Rinv_r; lra).
  split; nra.
Qed.

End Atan2.

(** ** Circular mean aspect

    In exact arithmetic the mean lies in [[0, 360)]. In binary64 the sines
    of 10 and 350 degrees do not cancel: their sum is [-0x1p-54], the mean
    comes out a rounding error below 0 and [mean_deg + 360] rounds to 360.0;
    [_calculate_circular_mean] has no [if mean_deg >= 360] to bring it back
    to 0, as [calculate_aspect] has for its bearings. *)

Section CircularMean.
Import AspectOps.

(** The two accumulators of the loop are the sums of sines and cosines. *)
Lemma circular_sums (aspects : list R) (s0 c0 : R) :
  fold_left (λ '(sum_sin, sum_cos) aspect,
               let rad := radians aspect in
               (sum_sin + sin rad, sum_cos + cos rad))
            aspects (s0, c0)
  = (s0 + foldr Rplus 0 ((λ a, sin (radians a)) <$> aspects),
     c0 + foldr Rplus 0 ((λ a, cos (radians a)) <$> aspects)).
Proof.
  revert s0 c0. induction aspects as [|a l IH]; intros s0 c0.
  - simpl. apply (f_equal2 pair); ring.
  - cbn [fold_left]. rewrite IH, !fmap_cons. cbn [foldr].
    apply (f_equal2 pair); ring.
Qed.

Lemma circular_mean_unfold (a : R) (l : list R) :
  _calculate_circular_mean (a :: l) =
  let d := degrees (atan2 (mean_of sin (a :: l)) (mean_of cos (a :: l))) in
  Some (if decide (d < 0) then d + 360 else d).
Proof.
  unfold _calculate_circular_mean. rewrite circular_sums.
  unfold mean_of. cbv zeta. rewrite !Rplus_0_l. reflexivity.
Qed.

Lemma sin_350 : sin (radians 350) = - sin (radians 10).
Proof.
  replace (radians 350) with (2 * PI - radians 10) by (unfold radians; lra).
  rewrite sin_minus, sin_2PI, cos_2PI. ring.
Qed.

Lemma cos_350 : cos (radians 350) = cos (radians 10).
Proof.
  replace (radians 350) with (2 * PI - radians 10) by (unfold radians; lra).
  rewrite cos_minus, sin_2PI, cos_2PI. ring.
Qed.

Lemma cos_10_pos : 0 < cos (radians 10).
Proof.
  pose proof PI_RGT_0. apply cos_gt_0; unfold radians; lra.
Qed.

(** In exact arithmetic: the circular mean is [None] exactly for an empty
    list of valid angles; otherwise it is degrees(atan2(mean sine, mean
    cosine)) brought into [[0, 360)] by a multiple of 360; and the statistics
    apply it to the cells that are not flat. *)
Lemma circular_mean_exact (aspects : list R) :
  (_calculate_circular_mean aspects = None ↔ aspects = []) ∧
  (aspects ≠ [] →
   ∃ m, _calculate_circular_mean aspects = Some m ∧
        (∃ k : Z, m = degrees (atan2 (mean_of sin aspects) (mean_of cos aspects))
                      + 360 * IZR k) ∧
        0 <= m < 360) ∧
  (∀ aspect st, calculate_aspect_statistics aspect = Some st →
     circularMeanAspect st = _calculate_circular_mean (valid_angles aspect) ∧
     (circularMeanAspect st = None ↔ valid_angles aspect = [])).
Proof.
  assert (Hnone : ∀ l, _calculate_circular_mean l = None ↔ l = []).
  { intros [|a l]; [done|]. rewrite circular_mean_unfold. done. }
  split; [apply Hnone|]. split.
  - destruct aspects as [|a l]; [done|]. intros _.
    rewrite circular_mean_unfold. cbv zeta.
    set (d := degrees (atan2 (mean_of sin (a :: l)) (mean_of cos (a :: l)))).
    assert (Hd : -180 < d <= 180) by (apply degrees_bounds, atan2_bounds).
    eexists. split; [reflexivity|]. case_decide.
    + split; [exists 1%Z; lra | lra].
    + split; [exists 0%Z; lra | lra].
  - intros aspect st. unfold calculate_aspect_statistics.
    pose proof (count_angle_loop (concat aspect) zero_counts []) as (_ & _ & _ & Hv).
    destruct (fold_left count_angle (concat aspect) (zero_counts, []))
      as [c valid] eqn:Hfold.
    simpl in Hv. case_decide; [done|]. intros [= <-]. simpl.
    fold (valid_angles aspect) in Hv. rewrite <- Hv.
    assert (Heq : match valid with [] => None | _ => _calculate_circular_mean valid end
                  = _calculate_circular_mean valid) by (by destruct valid).
    rewrite Heq. split; [reflexivity | apply Hnone].
Qed.

(** In exact arithmetic the sines of 10 and 350 degrees cancel and the mean
    is 0. *)
Lemma circular_mean_exact_10_350 : _calculate_circular_mean [10; 350] = Some 0.
Proof.
  rewrite circular_mean_unfold. cbv zeta. unfold mean_of. simpl.
  rewrite sin_350, cos_350.
  replace ((sin (radians 10) + (- sin (radians 10) + 0)) / (1 + 1)) with 0
    by (unfold Rdiv; ring).
  rewrite atan2_0_pos by (pose proof cos_10_pos; lra).
  rewrite degrees_0. case_decide; [lra | reflexivity].
Qed.

(** C4, at the angles 10 and 350 in binary64: with the values of the C
    library for the two sines, the two cosines and the arc tangent,
    [_calculate_circular_mean] returns 360.0, which is neither 0 nor below
    360: the sum of the sines is [-0x1p-54], the mean angle is
    [-0x1.d16ff1328a34dp-50] degrees, and adding 360 to it rounds to 360. *)
Theorem circular_mean_binary64 (sin cos : float → float)
    (atan2 : float → float → float) :
  sin (Binary64.radians 10) = 0x1.63a1a7e0b7389p-3%float →
  sin (Binary64.radians 350) = (-0x1.63a1a7e0b738bp-3)%float →
  cos (Binary64.radians 10) = 0x1.f838b8c811c17p-1%float →
  cos (Binary64.radians 350) = 0x1.f838b8c811c17p-1%float →
  atan2 (-0x1p-55)%float 0x1.f838b8c811c17p-1%float
    = (-0x1.03f2ff9989907p-55)%float →
  Binary64._calculate_circular_mean sin cos atan2 [10%float; 350%float]
    = Some 360%float ∧
  (360 <? 360)%float = false ∧ (360 =? 0)%float = false.
Proof.
  intros Hs10 Hs350 Hc10 Hc350 Hatan.
  split; [|split; reflexivity].
  unfold Binary64._calculate_circular_mean. cbn [fold_left length].
  rewrite Hs10, Hs350, Hc10, Hc350.
  replace ((0 + 0x1.63a1a7e0b7389p-3 + - 0x1.63a1a7e0b738bp-3)
           / Binary64.float_of_len 2)%float
    with (-0x1p-55)%float by (vm_compute; reflexivity).
  replace ((0 + 0x1.f838b8c811c17p-1 + 0x1.f838b8c811c17p-1)
           / Binary64.float_of_len 2)%float
    with 0x1.f838b8c811c17p-1%float by (vm_compute; reflexivity).
  rewrite Hatan. vm_compute. reflexivity.
Qed.

Lemma circular_mean_binary64_witness :
  Binary64._calculate_circular_mean libm_sin libm_cos libm_atan2
    [10%float; 350%float] = Some 360%float.
Proof.
  apply (circular_mean_binary64 libm_sin libm_cos libm_atan2);
    vm_compute; reflexivity.
Defined.

End CircularMean.

(** ** Array updates that touch only the border of a grid *)

Section GridUpdates.

Lemma edge_update_refl (h w : nat) (a : grid) :
  has_shape h w a → edge_update h w a a.
Proof. intros Hs. repeat split; auto; apply Hs. Qed.

Lemma edge_update_trans (h w : nat) (a b c : grid) :
  edge_update h w a b → edge_update h w b c → edge_update h w a c.
Proof.
  intros (_ & Hp1 & Hi1) (Hs2 & Hp2 & Hi2). split; [exact Hs2|]. split.
  - intros P Ha. apply Hp2, Hp1, Ha.
  - intros y x Hyx. rewrite Hi2, Hi1; auto.
Qed.

Lemma py_index_lt (len : nat) (i : Z) (k : nat) :
  py_index len i = Some k → (k < len)%nat.
Proof.
  unfold py_index. repeat case_decide; intros [= <-]; lia.
Qed.

Lemma py_index_is_Some (len : nat) (i : Z) :
  (- Z.of_nat len <= i < Z.of_nat len)%Z → is_Some (py_index len i).
Proof.
  intros Hi. unfold py_index. repeat case_decide; eauto; lia.
Qed.

(** The first and the last index are not interior ones. *)
Lemma py_index_border (len : nat) (i : Z) (k : nat) :
  py_index len i = Some k → (i = 0 ∨ i = Z.of_nat len - 1)%Z →
  (k = 0 ∨ k + 1 = len)%nat.
Proof.
  unfold py_index. repeat case_decide; intros [= <-] Hi; lia.
Qed.

Lemma all_cells_lookup2 (P : R → Prop) (a : grid) (y x : nat) (v : R) :
  all_cells P a → lookup2 a y x = Some v → P v.
Proof.
  unfold all_cells, lookup2. intros Ha Hl.
  destruct (a !! y) as [row|] eqn:Hrow; [|discriminate]. simpl in Hl.
  eapply Forall_lookup_1; [|exact Hl].
  eapply (Forall_lookup_1 (Forall P)); eauto.
Qed.

Lemma has_shape_row (h w : nat) (a : grid) (y : nat) (row : list R) :
  has_shape h w a → a !! y = Some row → length row = w.
Proof. intros [_ Hw] Hy. by eapply (Forall_lookup_1 _ _ _ _ Hw Hy). Qed.

Lemma copy_row_edge (h w : nat) (a a' : grid) (k j : Z) :
  has_shape h w a → (j = 0 ∨ j = Z.of_nat h - 1)%Z →
  copy_row a k j = Some a' → edge_update h w a a'.
Proof.
  intros Hs Hj. unfold copy_row, get_row, set_row.
  destruct (py_index (length a) k) as [kk|] eqn:Hk; [|discriminate]. simpl.
  destruct (a !! kk) as [r|] eqn:Hr; [|discriminate]. simpl.
  destruct (py_index (length a) j) as [kj|] eqn:Hkj; [|discriminate]. simpl.
  intros [= <-].
  assert (Hlen : length a = h) by apply Hs. rewrite Hlen in Hkj.
  pose proof (py_index_border _ _ _ Hkj Hj) as Hb.
  split; [|split].
  - split; [by rewrite length_insert|].
    apply Forall_insert; [apply Hs|]. by eapply has_shape_row.
  - intros P Ha. apply Forall_insert; [exact Ha|].
    by eapply (Forall_lookup_1 (Forall P)).
  - intros y x (Hy1 & Hy2 & _). unfold lookup2.
    rewrite list_lookup_insert_ne by lia. reflexivity.
Qed.

Lemma copy_row_total (h w : nat) (a : grid) (k j : Z) :
  has_shape h w a →
  (- Z.of_nat h <= k < Z.of_nat h)%Z → (- Z.of_nat h <= j < Z.of_nat h)%Z →
  is_Some (copy_row a k j).
Proof.
  intros [Hlen _] Hk Hj. unfold copy_row, get_row, set_row. rewrite Hlen.
  destruct (py_index_is_Some h k Hk) as [kk Hkk].
  destruct (py_index_is_Some h j Hj) as [kj Hkj].
  rewrite Hkk. simpl.
  destruct (lookup_lt_is_Some_2 a kk) as [r Hr].
  { rewrite Hlen. by eapply py_index_lt. }
  rewrite Hr. simpl. rewrite Hkj. simpl. eauto.
Qed.

Lemma copy_entry_spec (w : nat) (k j : Z) (row row' : list R) :
  length row = w → (j = 0 ∨ j = Z.of_nat w - 1)%Z →
  copy_entry k j row = Some row' →
  length row' = w ∧
  (∀ P : R → Prop, Forall P row → Forall P row') ∧
  (∀ x, (1 <= x ∧ x + 1 < w)%nat → row' !! x = row !! x).
Proof.
  intros Hlen Hj. unfold copy_entry. rewrite Hlen.
  destruct (py_index w k) as [kk|] eqn:Hk; [|discriminate]. simpl.
  destruct (row !! kk) as [v|] eqn:Hv; [|discriminate]. simpl.
  destruct (py_index w j) as [kj|] eqn:Hkj; [|discriminate]. simpl.
  intros [= <-]. pose proof (py_index_border _ _ _ Hkj Hj) as Hb.
  split; [by rewrite length_insert|]. split.
  - intros P Hrow. apply Forall_insert; [exact Hrow|].
    by eapply Forall_lookup_1.
  - intros x Hx. rewrite list_lookup_insert_ne by lia. reflexivity.
Qed.

Lemma copy_entry_total (w : nat) (k j : Z) (row : list R) :
  length row = w →
  (- Z.of_nat w <= k < Z.of_nat w)%Z → (- Z.of_nat w <= j < Z.of_nat w)%Z →
  is_Some (copy_entry k j row).
Proof.
  intros Hlen Hk Hj. unfold copy_entry. rewrite Hlen.
  destruct (py_index_is_Some w k Hk) as [kk Hkk].
  destruct (py_index_is_Some w j Hj) as [kj Hkj].
  rewrite Hkk. simpl.
  destruct (lookup_lt_is_Some_2 row kk) as [v Hv].
  { rewrite Hlen. by eapply py_index_lt. }
  rewrite Hv. simpl. rewrite Hkj. simpl. eauto.
Qed.

Lemma copy_column_edge (h w : nat) (a a' : grid) (k j : Z) :
  has_shape h w a → (j = 0 ∨ j = Z.of_nat w - 1)%Z →
  copy_column a k j = Some a' → edge_update h w a a'.
Proof.
  intros [Hlen Hrows] Hj Hcopy. unfold copy_column in Hcopy.
  apply mapM_Some_1 in Hcopy.
  assert (Hrow : ∀ y row', a' !! y = Some row' →
            ∃ row, a !! y = Some row ∧ copy_entry k j row = Some row').
  { intros y row' Hy.
    destruct (Forall2_lookup_r _ _ _ _ _ Hcopy Hy) as (row & Hrow & Hc). eauto. }
  split; [|split].
  - split; [by rewrite <- (Forall2_length _ _ _ Hcopy)|].
    apply Forall_lookup_2. intros y row' Hy.
    destruct (Hrow y row' Hy) as (row & Hr & Hc).
    eapply (copy_entry_spec w); eauto.
    by eapply (Forall_lookup_1 _ _ _ _ Hrows Hr).
  - intros P Ha. apply Forall_lookup_2. intros y row' Hy.
    destruct (Hrow y row' Hy) as (row & Hr & Hc).
    eapply (copy_entry_spec w); eauto.
    + by eapply (Forall_lookup_1 _ _ _ _ Hrows Hr).
    + by eapply (Forall_lookup_1 (Forall P)).
  - intros y x (_ & _ & Hx1 & Hx2). unfold lookup2.
    destruct (a' !! y) as [row'|] eqn:Hy.
    + destruct (Hrow y row' Hy) as (row & Hr & Hc). rewrite Hr. simpl.
      eapply (copy_entry_spec w); eauto.
      by eapply (Forall_lookup_1 _ _ _ _ Hrows Hr).
    + destruct (a !! y) as [row|] eqn:Hr; [|reflexivity].
      destruct (Forall2_lookup_l _ _ _ _ _ Hcopy Hr) as (row' & Hy' & _).
      congruence.
Qed.

Lemma copy_column_total (h w : nat) (a : grid) (k j : Z) :
  has_shape h w a →
  (- Z.of_nat w <= k < Z.of_nat w)%Z → (- Z.of_nat w <= j < Z.of_nat w)%Z →
  is_Some (copy_column a k j).
Proof.
  intros [_ Hrows] Hk Hj. unfold copy_column. apply mapM_is_Some_2.
  eapply Forall_impl; [exact Hrows|]. intros row Hlen. simpl.
  by apply (copy_entry_total w).
Qed.

Lemma get2_lookup2 (a : grid) (i j : Z) (v : R) :
  get2 a i j = Some v → ∃ y x, lookup2 a y x = Some v.
Proof.
  unfold get2, get_row, lookup2.
  destruct (py_index (length a) i) as [ki|]; [|discriminate]. simpl.
  destruct (a !! ki) as [row|] eqn:Hrow; [|discriminate]. simpl.
  destruct (py_index (length row) j) as [kj|]; [|discriminate]. simpl.
  intros Hv. exists ki, kj. by rewrite Hrow.
Qed.

Lemma get2_total (h w : nat) (a : grid) (i j : Z) :
  has_shape h w a →
  (- Z.of_nat h <= i < Z.of_nat h)%Z → (- Z.of_nat w <= j < Z.of_nat w)%Z →
  is_Some (get2 a i j).
Proof.
  intros Hs Hi Hj. unfold get2, get_row.
  assert (Hlen : length a = h) by apply Hs. rewrite Hlen.
  destruct (py_index_is_Some h i Hi) as [ki Hki]. rewrite Hki. simpl.
  destruct (lookup_lt_is_Some_2 a ki) as [row Hrow].
  { rewrite Hlen. by eapply py_index_lt. }
  rewrite Hrow. simpl. rewrite (has_shape_row _ _ _ _ _ Hs Hrow).
  destruct (py_index_is_Some w j Hj) as [kj Hkj]. rewrite Hkj. simpl.
  apply lookup_lt_is_Some_2. rewrite (has_shape_row _ _ _ _ _ Hs Hrow).
  by eapply py_index_lt.
Qed.

Lemma set2_edge (h w : nat) (a a' : grid) (i j : Z) (v : R) :
  has_shape h w a →
  ((i = 0 ∨ i = Z.of_nat h - 1) ∨ (j = 0 ∨ j = Z.of_nat w - 1))%Z →
  (∃ y x, lookup2 a y x = Some v) →
  set2 a i j v = Some a' → edge_update h w a a'.
Proof.
  intros Hs Hij (y0 & x0 & Hv). unfold set2.
  assert (Hlen : length a = h) by apply Hs. rewrite Hlen.
  destruct (py_index h i) as [ki|] eqn:Hki; [|discriminate]. simpl.
  destruct (a !! ki) as [row|] eqn:Hrow; [|discriminate]. simpl.
  rewrite (has_shape_row _ _ _ _ _ Hs Hrow).
  destruct (py_index w j) as [kj|] eqn:Hkj; [|discriminate]. simpl.
  intros [= <-]. split; [|split].
  - split; [by rewrite length_insert|].
    apply Forall_insert; [apply Hs|]. rewrite length_insert.
    by eapply has_shape_row.
  - intros P Ha. apply Forall_insert; [exact Ha|].
    apply Forall_insert; [by eapply (Forall_lookup_1 (Forall P))|].
    by eapply all_cells_lookup2.
  - intros y x (Hy1 & Hy2 & Hx1 & Hx2). unfold lookup2.
    destruct (decide (ki = y)) as [->|Hne].
    + rewrite list_lookup_insert_eq by (rewrite Hlen; lia). rewrite Hrow. simpl.
      destruct Hij as [Hi | Hj].
      * pose proof (py_index_border _ _ _ Hki Hi). lia.
      * pose proof (py_index_border _ _ _ Hkj Hj).
        rewrite list_lookup_insert_ne by lia. reflexivity.
    + rewrite list_lookup_insert_ne by exact Hne. reflexivity.
Qed.

Lemma set2_total (h w : nat) (a : grid) (i j : Z) (v : R) :
  has_shape h w a →
  (- Z.of_nat h <= i < Z.of_nat h)%Z → (- Z.of_nat w <= j < Z.of_nat w)%Z →
  is_Some (set2 a i j v).
Proof.
  intros Hs Hi Hj. unfold set2.
  assert (Hlen : length a = h) by apply Hs. rewrite Hlen.
  destruct (py_index_is_Some h i Hi) as [ki Hki]. rewrite Hki. simpl.
  destruct (lookup_lt_is_Some_2 a ki) as [row Hrow].
  { rewrite Hlen. by eapply py_index_lt. }
  rewrite Hrow. simpl. rewrite (has_shape_row _ _ _ _ _ Hs Hrow).
  destruct (py_index_is_Some w j Hj) as [kj Hkj]. rewrite Hkj. simpl. eauto.
Qed.

(** A loop whose rounds are border updates is a border update. *)
Lemma for_each_edge {A : Type} (h w : nat) (body : grid → A → option grid)
    (l : list A) (a a' : grid) :
  (∀ s x s', has_shape h w s → body s x = Some s' → edge_update h w s s') →
  has_shape h w a → for_each l body a = Some a' → edge_update h w a a'.
Proof.
  intros Hbody. revert a. induction l as [|x l IH]; intros a Hs; simpl.
  - intros [= <-]. by apply edge_update_refl.
  - destruct (body a x) as [s1|] eqn:Hb; [|discriminate]. simpl. intros Hl.
    pose proof (Hbody _ _ _ Hs Hb) as H1.
    eapply edge_update_trans; [exact H1|]. apply IH; [apply H1 | exact Hl].
Qed.

Lemma for_each_total {A : Type} (h w : nat) (body : grid → A → option grid)
    (l : list A) (a : grid) :
  (∀ s x s', has_shape h w s → body s x = Some s' → edge_update h w s s') →
  (∀ s x, x ∈ l → has_shape h w s → is_Some (body s x)) →
  has_shape h w a → is_Some (for_each l body a).
Proof.
  intros Hbody. revert a. induction l as [|x l IH]; intros a Htot Hs; simpl.
  - eauto.
  - destruct (Htot a x) as [s1 Hb]; [by left | exact Hs |].
    rewrite Hb. simpl. apply IH.
    + intros s y Hy. apply Htot. by right.
    + by apply (Hbody _ _ _ Hs Hb).
Qed.

(** The interior loop: shape, invariants of the cells, and the cells read
    back. *)
Lemma fill_interior_shape (h w h' w' : nat) (f : nat → nat → R) (out : grid) :
  has_shape h' w' out → has_shape h' w' (fill_interior h w f out).
Proof.
  intros [Hlen Hrows]. unfold fill_interior. split; [by rewrite length_imap|].
  apply Forall_lookup_2. intros y row. rewrite list_lookup_imap.
  destruct (out !! y) as [r|] eqn:Hr; [|discriminate]. simpl. intros [= <-].
  rewrite length_imap. by eapply (Forall_lookup_1 _ _ _ _ Hrows Hr).
Qed.

Lemma fill_interior_all (P : R → Prop) (h w : nat) (f : nat → nat → R)
    (out : grid) :
  all_cells P out → (∀ y x, interior h w y x → P (f y x)) →
  all_cells P (fill_interior h w f out).
Proof.
  intros Hout Hf. unfold fill_interior, all_cells.
  apply Forall_lookup_2. intros y row. rewrite list_lookup_imap.
  destruct (out !! y) as [r|] eqn:Hr; [|discriminate]. simpl. intros [= <-].
  apply Forall_lookup_2. intros x v. rewrite list_lookup_imap.
  destruct (r !! x) as [v0|] eqn:Hv0; [|discriminate]. simpl. intros [= <-].
  case_decide; [by apply Hf|].
  eapply Forall_lookup_1; [|exact Hv0].
  by eapply (Forall_lookup_1 (Forall P)).
Qed.

Lemma fill_interior_lookup (h w : nat) (f : nat → nat → R) (out : grid)
    (y x : nat) :
  lookup2 (fill_interior h w f out) y x =
  (λ v, if decide (interior h w y x) then f y x else v) <$> lookup2 out y x.
Proof.
  unfold fill_interior, lookup2. rewrite list_lookup_imap.
  destruct (out !! y) as [r|]; [|reflexivity]. simpl.
  by rewrite list_lookup_imap.
Qed.

Lemma has_shape_lookup2 (h w : nat) (a : grid) (y x : nat) :
  has_shape h w a → (y < h)%nat → (x < w)%nat → is_Some (lookup2 a y x).
Proof.
  intros Hs Hy Hx. unfold lookup2.
  destruct (lookup_lt_is_Some_2 a y) as [row Hrow].
  { destruct Hs as [-> _]. exact Hy. }
  rewrite Hrow. simpl. apply lookup_lt_is_Some_2.
  by rewrite (has_shape_row _ _ _ _ _ Hs Hrow).
Qed.

(** The interior loop of [calculate_aspect] reads a slope array of the
    DEM's shape inside its bounds. *)
Lemma has_shape_slope_readable (h w : nat) (slope : grid) :
  has_shape h w slope → AspectOps.slope_readable h w slope.
Proof.
  intros Hs. unfold AspectOps.slope_readable.
  apply Forall_forall. intros y Hy. apply elem_of_seq in Hy.
  apply Forall_forall. intros x Hx. apply elem_of_seq in Hx.
  apply (has_shape_lookup2 h w); [exact Hs | lia | lia].
Qed.

Lemma slope_readable_interior (h w : nat) (slope : grid) (y x : nat) :
  AspectOps.slope_readable h w slope → interior h w y x →
  is_Some (lookup2 slope y x).
Proof.
  intros Hr (Hy1 & Hy2 & Hx1 & Hx2). unfold AspectOps.slope_readable in Hr.
  rewrite Forall_forall in Hr.
  assert (Hy : y ∈ seq 1 (h - 2)) by (apply elem_of_seq; lia).
  specialize (Hr y Hy). rewrite Forall_forall in Hr.
  apply Hr. apply elem_of_seq. lia.
Qed.

(** In range, a cell of a grid whose cells all satisfy [P] satisfies [P]. *)
Lemma cell_in_range (P : R → Prop) (h w : nat) (a : grid) (y x : nat) :
  has_shape h w a → all_cells P a → (y < h)%nat → (x < w)%nat →
  P (cell a y x).
Proof.
  intros Hs Ha Hy Hx. unfold cell.
  destruct (has_shape_lookup2 h w a y x Hs Hy Hx) as [v Hv]. rewrite Hv. simpl.
  by eapply all_cells_lookup2.
Qed.

Lemma zeros_like_shape (h w : nat) (a : grid) :
  has_shape h w a → has_shape h w (map (map (λ _, 0)) a).
Proof.
  intros [Hlen Hrows]. split; [by rewrite length_map|].
  apply Forall_map. eapply Forall_impl; [exact Hrows|].
  intros row Hrow. simpl. by rewrite length_map.
Qed.

Lemma zeros_like_all (P : R → Prop) (a : grid) :
  P 0 → all_cells P (map (map (λ _, 0)) a).
Proof.
  intros H0. unfold all_cells. apply Forall_map, Forall_forall. intros row _.
  simpl. apply Forall_map, Forall_forall. intros v _. exact H0.
Qed.

Lemma full_shape (h w : nat) (v : R) :
  has_shape h w (replicate h (replicate w v)).
Proof.
  split; [apply length_replicate|].
  apply Forall_replicate. apply length_replicate.
Qed.


End GridUpdates.

(** ** Gradient engine: ranges of slope and aspect *)

Section GradientEngine.

Variable gaussian_filter : R → grid → grid.

(** The smoothing filter returns an array of the shape of its input. *)
Hypothesis gaussian_filter_shape :
  ∀ sigma h w a, has_shape h w a → has_shape h w (gaussian_filter sigma a).

Lemma slope_percent_nonneg (gx gy : R) : 0 <= SlopeOps.slope_percent gx gy.
Proof.
  unfold SlopeOps.slope_percent.
  pose proof (sqrt_pos (gx * gx + gy * gy)). lra.
Qed.


Lemma read_elevation_shape (ds : dataset) (smoothing_enabled : bool) (k : Z) :
  well_formed ds →
  has_shape (RasterYSize ds) (RasterXSize ds)
    (SlopeOps.read_elevation gaussian_filter ds smoothing_enabled k).
Proof.
  intros Hwf. unfold SlopeOps.read_elevation.
  destruct smoothing_enabled; [by apply gaussian_filter_shape | exact Hwf].
Qed.

Lemma slope_interior_shape (ds : dataset) (smoothing_enabled : bool) (k : Z) :
  well_formed ds →
  has_shape (RasterYSize ds) (RasterXSize ds)
    (SlopeOps.slope_interior gaussian_filter ds smoothing_enabled k).
Proof.
  intros Hwf. unfold SlopeOps.slope_interior.
  by apply fill_interior_shape, zeros_like_shape, read_elevation_shape.
Qed.

(** The four edge copies of [calculate_slope] are a border update of the
    array left by the interior loop. *)
Lemma calculate_slope_edge (ds : dataset) (smoothing_enabled : bool) (k : Z)
    (slope : grid) :
  well_formed ds →
  SlopeOps.calculate_slope gaussian_filter ds smoothing_enabled k = Some slope →
  edge_update (RasterYSize ds) (RasterXSize ds)
    (SlopeOps.slope_interior gaussian_filter ds smoothing_enabled k) slope.
Proof.
  intros Hwf. unfold SlopeOps.calculate_slope. cbv zeta.
  pose proof (slope_interior_shape ds smoothing_enabled k Hwf) as Hs0.
  set (s0 := SlopeOps.slope_interior gaussian_filter ds smoothing_enabled k) in *.
  destruct (copy_row s0 1 0) as [s1|] eqn:H1; [|discriminate]. simpl.
  destruct (copy_row s1 _ _) as [s2|] eqn:H2; [|discriminate]. simpl.
  destruct (copy_column s2 1 0) as [s3|] eqn:H3; [|discriminate]. simpl.
  intros H4.
  assert (E1 : edge_update (RasterYSize ds) (RasterXSize ds) s0 s1).
  { eapply copy_row_edge; [exact Hs0 | by left | exact H1]. }
  assert (E2 : edge_update (RasterYSize ds) (RasterXSize ds) s1 s2).
  { eapply copy_row_edge; [apply E1 | | exact H2]. by right. }
  assert (E3 : edge_update (RasterYSize ds) (RasterXSize ds) s2 s3).
  { eapply copy_column_edge; [apply E2 | | exact H3]. by left. }
  assert (E4 : edge_update (RasterYSize ds) (RasterXSize ds) s3 slope).
  { eapply copy_column_edge; [apply E3 | | exact H4]. by right. }
  eauto using edge_update_trans.
Qed.

(** On a raster of at least two rows and two columns no edge copy raises. *)
Lemma calculate_slope_total (ds : dataset) (smoothing_enabled : bool) (k : Z) :
  well_formed ds → (2 <= RasterYSize ds)%nat → (2 <= RasterXSize ds)%nat →
  is_Some (SlopeOps.calculate_slope gaussian_filter ds smoothing_enabled k).
Proof.
  intros Hwf Hh Hw. unfold SlopeOps.calculate_slope. cbv zeta.
  pose proof (slope_interior_shape ds smoothing_enabled k Hwf) as Hs0.
  set (s0 := SlopeOps.slope_interior gaussian_filter ds smoothing_enabled k) in *.
  set (h := RasterYSize ds) in *. set (w := RasterXSize ds) in *.
  destruct (copy_row_total h w s0 1 0 Hs0) as [s1 H1]; [lia | lia |].
  rewrite H1. simpl.
  assert (E1 : edge_update h w s0 s1).
  { eapply copy_row_edge; [exact Hs0 | by left | exact H1]. }
  destruct (copy_row_total h w s1 (Z.of_nat h - 2) (Z.of_nat h - 1))
    as [s2 H2]; [apply E1 | lia | lia |].
  rewrite H2. simpl.
  assert (E2 : edge_update h w s1 s2).
  { eapply copy_row_edge; [apply E1 | | exact H2]. by right. }
  destruct (copy_column_total h w s2 1 0) as [s3 H3]; [apply E2 | lia | lia |].
  rewrite H3. simpl.
  assert (E3 : edge_update h w s2 s3).
  { eapply copy_column_edge; [apply E2 | | exact H3]. by left. }
  apply (copy_column_total h w); [apply E3 | lia | lia].
Qed.

(** A guarded copy of one cell to the border: [if v != -1: a[i, j] = v]. *)
Lemma guarded_set2_edge (h w : nat) (a a' : grid) (i j : Z) (v : R) :
  has_shape h w a →
  ((i = 0 ∨ i = Z.of_nat h - 1) ∨ (j = 0 ∨ j = Z.of_nat w - 1))%Z →
  (∃ y x, lookup2 a y x = Some v) →
  (if decide (v ≠ -1) then set2 a i j v else Some a) = Some a' →
  edge_update h w a a'.
Proof.
  intros Hs Hij Hv. case_decide.
  - by apply set2_edge.
  - intros [= <-]. by apply edge_update_refl.
Qed.

Lemma guarded_set2_total (h w : nat) (a : grid) (i j : Z) (v : R) :
  has_shape h w a →
  (- Z.of_nat h <= i < Z.of_nat h)%Z → (- Z.of_nat w <= j < Z.of_nat w)%Z →
  is_Some (if decide (v ≠ -1) then set2 a i j v else Some a).
Proof.
  intros Hs Hi Hj. case_decide; [by apply (set2_total h w) | eauto].
Qed.

Lemma copy_rows_at_edge (h w : nat) (a a' : grid) (x : nat) :
  has_shape h w a → AspectOps.copy_rows_at h a x = Some a' →
  edge_update h w a a'.
Proof.
  intros Hs. unfold AspectOps.copy_rows_at.
  destruct (get2 a 1 (Z.of_nat x)) as [va|] eqn:Hva; [|discriminate]. simpl.
  destruct (if decide (va ≠ -1) then set2 a 0 (Z.of_nat x) va else Some a)
    as [a1|] eqn:H1; [|discriminate]. simpl.
  assert (E1 : edge_update h w a a1).
  { eapply guarded_set2_edge; [exact Hs | left; by left | | exact H1].
    by eapply get2_lookup2. }
  destruct (get2 a1 (Z.of_nat h - 2) (Z.of_nat x)) as [vb|] eqn:Hvb;
    [|discriminate]. simpl.
  intros H2. eapply edge_update_trans; [exact E1|].
  eapply guarded_set2_edge; [apply E1 | left; by right | | exact H2].
  by eapply get2_lookup2.
Qed.

Lemma copy_rows_at_total (h w : nat) (a : grid) (x : nat) :
  has_shape h w a → (2 <= h)%nat → (x < w)%nat →
  is_Some (AspectOps.copy_rows_at h a x).
Proof.
  intros Hs Hh Hx. unfold AspectOps.copy_rows_at.
  destruct (get2_total h w a 1 (Z.of_nat x) Hs) as [va Hva]; [lia | lia |].
  rewrite Hva. simpl.
  destruct (guarded_set2_total h w a 0 (Z.of_nat x) va Hs) as [a1 H1];
    [lia | lia |].
  rewrite H1. simpl.
  assert (E1 : edge_update h w a a1).
  { eapply guarded_set2_edge; [exact Hs | left; by left | | exact H1].
    by eapply get2_lookup2. }
  destruct (get2_total h w a1 (Z.of_nat h - 2) (Z.of_nat x)) as [vb Hvb];
    [apply E1 | lia | lia |].
  rewrite Hvb. simpl.
  apply (guarded_set2_total h w); [apply E1 | lia | lia].
Qed.

Lemma copy_columns_at_edge (h w : nat) (a a' : grid) (y : nat) :
  has_shape h w a → AspectOps.copy_columns_at w a y = Some a' →
  edge_update h w a a'.
Proof.
  intros Hs. unfold AspectOps.copy_columns_at.
  destruct (get2 a (Z.of_nat y) 1) as [va|] eqn:Hva; [|discriminate]. simpl.
  destruct (if decide (va ≠ -1) then set2 a (Z.of_nat y) 0 va else Some a)
    as [a1|] eqn:H1; [|discriminate]. simpl.
  assert (E1 : edge_update h w a a1).
  { eapply guarded_set2_edge; [exact Hs | right; by left | | exact H1].
    by eapply get2_lookup2. }
  destruct (get2 a1 (Z.of_nat y) (Z.of_nat w - 2)) as [vb|] eqn:Hvb;
    [|discriminate]. simpl.
  intros H2. eapply edge_update_trans; [exact E1|].
  eapply guarded_set2_edge; [apply E1 | right; by right | | exact H2].
  by eapply get2_lookup2.
Qed.

Lemma copy_columns_at_total (h w : nat) (a : grid) (y : nat) :
  has_shape h w a → (2 <= w)%nat → (y < h)%nat →
  is_Some (AspectOps.copy_columns_at w a y).
Proof.
  intros Hs Hw Hy. unfold AspectOps.copy_columns_at.
  destruct (get2_total h w a (Z.of_nat y) 1 Hs) as [va Hva]; [lia | lia |].
  rewrite Hva. simpl.
  destruct (guarded_set2_total h w a (Z.of_nat y) 0 va Hs) as [a1 H1];
    [lia | lia |].
  rewrite H1. simpl.
  assert (E1 : edge_update h w a a1).
  { eapply guarded_set2_edge; [exact Hs | right; by left | | exact H1].
    by eapply get2_lookup2. }
  destruct (get2_total h w a1 (Z.of_nat y) (Z.of_nat w - 2)) as [vb Hvb];
    [apply E1 | lia | lia |].
  rewrite Hvb. simpl.
  apply (guarded_set2_total h w); [apply E1 | lia | lia].
Qed.

Lemma aspect_interior_shape (dem slope : dataset) (flat_threshold : R) :
  has_shape (RasterYSize dem) (RasterXSize dem)
    (AspectOps.aspect_interior dem slope flat_threshold).
Proof. unfold AspectOps.aspect_interior. apply fill_interior_shape, full_shape. Qed.

(** The two edge loops of [calculate_aspect] are a border update of the
    array left by the interior loop. *)
Lemma calculate_aspect_edge (dem slope : dataset) (flat_threshold : R)
    (aspect : grid) :
  AspectOps.calculate_aspect dem slope flat_threshold = Some aspect →
  edge_update (RasterYSize dem) (RasterXSize dem)
    (AspectOps.aspect_interior dem slope flat_threshold) aspect.
Proof.
  unfold AspectOps.calculate_aspect. cbv zeta.
  pose proof (aspect_interior_shape dem slope flat_threshold) as Hs0.
  set (a0 := AspectOps.aspect_interior dem slope flat_threshold) in *.
  set (h := RasterYSize dem) in *. set (w := RasterXSize dem) in *.
  case_decide; [|discriminate].
  destruct (for_each (seq 0 w) (AspectOps.copy_rows_at h) a0) as [a1|] eqn:H1;
    [|discriminate]. simpl. intros H2.
  assert (E1 : edge_update h w a0 a1).
  { eapply for_each_edge; [|exact Hs0|exact H1].
    intros s x s' Hs Hb. by eapply copy_rows_at_edge. }
  eapply edge_update_trans; [exact E1|].
  eapply for_each_edge; [|apply E1|exact H2].
  intros s y s' Hs Hb. by eapply copy_columns_at_edge.
Qed.

(** With a slope array that the interior loop can read, and at least two
    rows and two columns, no step of [calculate_aspect] raises. *)
Lemma calculate_aspect_total (dem slope : dataset) (flat_threshold : R) :
  AspectOps.slope_readable (RasterYSize dem) (RasterXSize dem)
    (ReadAsArray slope) →
  (2 <= RasterYSize dem)%nat → (2 <= RasterXSize dem)%nat →
  is_Some (AspectOps.calculate_aspect dem slope flat_threshold).
Proof.
  intros Hread Hh Hw. unfold AspectOps.calculate_aspect. cbv zeta.
  pose proof (aspect_interior_shape dem slope flat_threshold) as Hs0.
  set (a0 := AspectOps.aspect_interior dem slope flat_threshold) in *.
  set (h := RasterYSize dem) in *. set (w := RasterXSize dem) in *.
  rewrite decide_True by exact Hread.
  assert (Hrows : ∀ s x s', has_shape h w s →
            AspectOps.copy_rows_at h s x = Some s' → edge_update h w s s').
  { intros s x s' Hs Hb. by eapply copy_rows_at_edge. }
  destruct (for_each_total h w (AspectOps.copy_rows_at h) (seq 0 w) a0 Hrows)
    as [a1 H1]; [|exact Hs0|].
  { intros s x Hx Hs. apply (copy_rows_at_total h w); [exact Hs | exact Hh |].
    apply elem_of_seq in Hx. lia. }
  rewrite H1. simpl.
  assert (E1 : edge_update h w a0 a1) by (by eapply for_each_edge).
  apply (for_each_total h w).
  - intros s y s' Hs Hb. by eapply copy_columns_at_edge.
  - intros s y Hy Hs. apply (copy_columns_at_total h w); [exact Hs | exact Hw |].
    apply elem_of_seq in Hy. lia.
  - apply E1.
Qed.

(** The smoothing filter keeps a constant array constant. *)
Hypothesis gaussian_filter_uniform :
  ∀ sigma c a, uniform c a → uniform c (gaussian_filter sigma a).






(** An interior cell of the result holds what the interior loop wrote. *)
Lemma calculate_slope_interior (ds : dataset) (smoothing_enabled : bool) (k : Z)
    (slope : grid) (y x : nat) :
  well_formed ds →
  SlopeOps.calculate_slope gaussian_filter ds smoothing_enabled k = Some slope →
  interior (RasterYSize ds) (RasterXSize ds) y x →
  let e := SlopeOps.read_elevation gaussian_filter ds smoothing_enabled k in
  lookup2 slope y x =
  Some (SlopeOps.slope_percent (SlopeOps.dz_dx e (SlopeOps.cell_size_x_m ds) y x)
                               (SlopeOps.dz_dy e (SlopeOps.cell_size_y_m ds) y x)).
Proof.
  intros Hwf Hslope Hyx e.
  destruct (calculate_slope_edge ds smoothing_enabled k slope Hwf Hslope)
    as (_ & _ & Hi).
  rewrite (Hi y x Hyx). unfold SlopeOps.slope_interior.
  rewrite fill_interior_lookup.
  pose proof (zeros_like_shape _ _ _ (read_elevation_shape ds smoothing_enabled k Hwf))
    as Hz.
  destruct (has_shape_lookup2 _ _ _ y x Hz) as [v Hv].
  { destruct Hyx; lia. } { destruct Hyx; lia. }
  rewrite Hv. simpl. by rewrite decide_True.
Qed.

Lemma calculate_aspect_interior (dem slope_ds : dataset) (flat_threshold : R)
    (aspect : grid) (y x : nat) :
  AspectOps.calculate_aspect dem slope_ds flat_threshold = Some aspect →
  interior (RasterYSize dem) (RasterXSize dem) y x →
  lookup2 aspect y x =
  Some (AspectOps.interior_aspect dem (ReadAsArray slope_ds) flat_threshold y x).
Proof.
  intros Haspect Hyx.
  destruct (calculate_aspect_edge dem slope_ds flat_threshold aspect Haspect)
    as (_ & _ & Hi).
  rewrite (Hi y x Hyx). unfold AspectOps.aspect_interior.
  rewrite fill_interior_lookup.
  destruct (has_shape_lookup2 _ _ _ y x
              (full_shape (RasterYSize dem) (RasterXSize dem) AspectOps.FLAT_ASPECT))
    as [v Hv].
  { destruct Hyx; lia. } { destruct Hyx; lia. }
  rewrite Hv. simpl. by rewrite decide_True.
Qed.

Lemma slope_percent_unit : SlopeOps.slope_percent (-1) 0 = 100.
Proof.
  unfold SlopeOps.slope_percent.
  replace (-1 * -1 + 0 * 0) with 1 by ring. rewrite sqrt_1. ring.
Qed.

Lemma aspect_degrees_east : AspectOps.aspect_degrees (-1) 0 = 90.
Proof.
  unfold AspectOps.aspect_degrees.
  replace (- -1) with 1 by ring. rewrite atan2_0_pos by lra.
  rewrite degrees_0. repeat case_decide; lra.
Qed.

(** The central differences of an east-facing ramp with one-metre cells. *)
Lemma east_ramp_gradient (e0 : R) (dem : dataset) (y x : nat) :
  east_ramp e0 dem → interior (RasterYSize dem) (RasterXSize dem) y x →
  SlopeOps.dz_dx (ReadAsArray dem) 1 y x = -1 ∧
  SlopeOps.dz_dy (ReadAsArray dem) 1 y x = 0.
Proof.
  intros Hramp (Hy1 & Hy2 & Hx1 & Hx2).
  unfold SlopeOps.dz_dx, SlopeOps.dz_dy. rewrite !Hramp by lia.
  rewrite plus_INR, minus_INR by lia. simpl INR. split; field.
Qed.



(** C6: on an east-facing ramp (one metre drop per column, one-metre cells,
    no smoothing, flat threshold at most 100) every interior cell has the
    gradient [dx = -1], [dy = 0], the slope [100 * sqrt (dx² + dy²) = 100]
    and the aspect [90 - degrees (atan2 dy (- dx)) = 90]. *)
Theorem east_ramp_slope_aspect (dem : dataset) (e0 : R) (kernel : Z)
    (flat_threshold : R) :
  well_formed dem → east_ramp e0 dem → one_metre_cells dem →
  (2 <= RasterYSize dem)%nat → (2 <= RasterXSize dem)%nat →
  flat_threshold <= 100 →
  ∃ slope,
    SlopeOps.calculate_slope gaussian_filter dem false kernel = Some slope ∧
    ∀ slope_ds, ReadAsArray slope_ds = slope →
    ∃ aspect,
      AspectOps.calculate_aspect dem slope_ds flat_threshold = Some aspect ∧
      ∀ y x, interior (RasterYSize dem) (RasterXSize dem) y x →
        let dx := SlopeOps.dz_dx (ReadAsArray dem) 1 y x in
        let dy := SlopeOps.dz_dy (ReadAsArray dem) 1 y x in
        dx = -1 ∧ dy = 0 ∧
        lookup2 slope y x = Some (100 * sqrt (dx * dx + dy * dy)) ∧
        lookup2 slope y x = Some 100 ∧
        lookup2 aspect y x = Some (90 - degrees (atan2 dy (- dx))) ∧
        lookup2 aspect y x = Some 90.
Proof.
  intros Hwf Hramp (Hsx & Hsy & Hax & Hay) Hh Hw Hft.
  destruct (calculate_slope_total dem false kernel Hwf Hh Hw) as [slope Hslope].
  exists slope. split; [exact Hslope|]. intros slope_ds Hds.
  destruct (calculate_aspect_total dem slope_ds flat_threshold) as [aspect Haspect];
    [|exact Hh|exact Hw|].
  { rewrite Hds. apply has_shape_slope_readable.
    apply (calculate_slope_edge dem false kernel slope Hwf Hslope). }
  exists aspect. split; [exact Haspect|]. intros y x Hyx dx dy.
  destruct (east_ramp_gradient e0 dem y x Hramp Hyx) as [Hdx Hdy].
  fold dx in Hdx. fold dy in Hdy.
  assert (Hs100 : lookup2 slope y x = Some 100).
  { rewrite (calculate_slope_interior dem false kernel slope y x Hwf Hslope Hyx).
    unfold SlopeOps.read_elevation. rewrite Hsx, Hsy.
    fold dx. fold dy. rewrite Hdx, Hdy. by rewrite slope_percent_unit. }
  assert (Ha90 : lookup2 aspect y x = Some 90).
  { rewrite (calculate_aspect_interior dem slope_ds flat_threshold aspect y x
               Haspect Hyx).
    assert (Hcell : cell slope y x = 100) by (unfold cell; by rewrite Hs100).
    unfold AspectOps.interior_aspect. rewrite Hds, Hcell.
    rewrite decide_False by lra.
    rewrite Hax, Hay. fold dx. fold dy. rewrite Hdx, Hdy.
    by rewrite aspect_degrees_east. }
  split; [exact Hdx|]. split; [exact Hdy|].
  rewrite Hdx, Hdy. repeat split.
  - rewrite Hs100. f_equal.
    replace (-1 * -1 + 0 * 0) with 1 by ring. rewrite sqrt_1. ring.
  - exact Hs100.
  - rewrite Ha90. f_equal.
    replace (- -1) with 1 by ring. rewrite atan2_0_pos by lra.
    rewrite degrees_0. ring.
  - exact Ha90.
Qed.

End GradientEngine.

Section GradientExamples.

Lemma no_filter_shape (sigma : R) (h w : nat) (a : grid) :
  has_shape h w a → has_shape h w (no_filter sigma a).
Proof. done. Qed.


Lemma ramp3_well_formed : well_formed ramp3.
Proof. split; [reflexivity | repeat constructor]. Qed.

Lemma plateau2_well_formed : well_formed plateau2.
Proof. split; [reflexivity | repeat constructor]. Qed.


Lemma ramp3_east_ramp : east_ramp 10 ramp3.
Proof.
  intros y x Hy Hx. simpl in Hy, Hx.
  destruct y as [|[|[|y]]]; try lia;
    destruct x as [|[|[|x]]]; try lia; unfold cell; simpl; lra.
Qed.

Lemma ramp3_one_metre_cells : one_metre_cells ramp3.
Proof.
  assert (Hc : cos (radians 0) = 1).
  { unfold radians. replace (0 * PI / 180) with 0 by (unfold Rdiv; ring).
    apply cos_0. }
  assert (Ha : Rabs (1 / 111320) = 1 / 111320) by (apply Rabs_pos_eq; lra).
  unfold one_metre_cells, SlopeOps.cell_size_x_m, SlopeOps.cell_size_y_m,
    AspectOps.cell_size_x_m, AspectOps.cell_size_y_m.
  cbn [ramp3 GetGeoTransform RasterYSize metre_geotransform gt1 gt3 gt5].
  rewrite Rabs_Ropp, Ha.
  replace (INR 3 * - (1 / 111320) / 2 + INR 3 / 2 / 111320) with 0
    by (simpl; field).
  replace (INR 3 / 2 / 111320 - 1 / 111320 * INR 3 / 2) with 0
    by (simpl; field).
  rewrite Hc, Rabs_R1. repeat split; field.
Qed.

Lemma east_ramp_slope_aspect_witness :
  ∃ slope aspect,
    SlopeOps.calculate_slope no_filter ramp3 false 3 = Some slope ∧
    AspectOps.calculate_aspect ramp3 (with_array ramp3 slope) 2 = Some aspect ∧
    lookup2 slope 1 1 = Some 100 ∧ lookup2 aspect 1 1 = Some 90.
Proof.
  destruct (east_ramp_slope_aspect no_filter no_filter_shape ramp3 10 3 2
              ramp3_well_formed ramp3_east_ramp ramp3_one_metre_cells)
    as (slope & Hslope & Haspect).
  { simpl; lia. } { simpl; lia. } { lra. }
  destruct (Haspect (with_array ramp3 slope) eq_refl) as (aspect & Ha & Hcells).
  exists slope, aspect. split; [exact Hslope|]. split; [exact Ha|].
  assert (Hi : interior (RasterYSize ramp3) (RasterXSize ramp3) 1 1).
  { unfold interior. simpl. lia. }
  destruct (Hcells 1%nat 1%nat Hi) as (_ & _ & _ & Hs & _ & Ha90).
  split; [exact Hs | exact Ha90].
Defined.



(** A slope raster without rows cannot be read by the interior loop of a
    3 by 3 DEM: [slope[1, 1]] raises. *)
Lemma calculate_aspect_unreadable_slope :
  AspectOps.calculate_aspect ramp3 (with_array ramp3 []) 2 = None.
Proof.
  unfold AspectOps.calculate_aspect. cbv zeta. apply decide_False.
  intros Hr.
  destruct (slope_readable_interior _ _ _ 1 1 Hr) as [v Hv];
    [unfold interior; simpl; lia | discriminate].
Qed.



End GradientExamples.

(** ** Grades along a profile *)

Section Grades.
Import ProfileOps.

Lemma grade_between_set_grade (g : R) (prev curr : ProfilePoint) :
  grade_between (set_grade g prev) curr = grade_between prev curr.
Proof. reflexivity. Qed.

(** The predecessor read by a round of the loop has the distance and the
    elevation of the input point, whether it was graded before or not. *)
Lemma graded_upto_prev (pts : list ProfilePoint) (k i : nat) (p q : ProfilePoint) :
  graded_upto pts k i = Some q → pts !! i = Some p →
  ∀ curr, grade_between q curr = grade_between p curr.
Proof.
  unfold graded_upto. intros Hq Hp curr. rewrite Hp in Hq. simpl in Hq.
  case_decide.
  - destruct (pts !! (i - 1)%nat) as [p0|]; [|discriminate]. simpl in Hq.
    injection Hq as <-. apply grade_between_set_grade.
  - by injection Hq as <-.
Qed.

(** The invariant of the loop of [calculate_grades], from index [a] on. *)
Lemma grade_loop (pts : list ProfilePoint) (n a : nat) (s : list ProfilePoint) :
  (1 <= a)%nat → (a + n <= length pts)%nat →
  (∀ i, s !! i = graded_upto pts a i) →
  ∃ s', for_each (seq a n) grade_step s = Some s' ∧
        length s' = length s ∧
        ∀ i, s' !! i = graded_upto pts (a + n) i.
Proof.
  revert a s. induction n as [|n IH]; intros a s Ha Hlen Hs.
  - exists s. simpl. split; [reflexivity|]. split; [reflexivity|].
    intros i. rewrite Nat.add_0_r. apply Hs.
  - cbn [seq for_each].
    destruct (lookup_lt_is_Some_2 pts (a - 1)) as [p0 Hp0]; [lia|].
    destruct (lookup_lt_is_Some_2 pts a) as [c Hc]; [lia|].
    assert (Hsa : s !! a = Some c).
    { rewrite Hs. unfold graded_upto. rewrite Hc. simpl.
      by rewrite decide_False by lia. }
    assert (Hsp : ∃ q, s !! (a - 1)%nat = Some q ∧
                       grade_between q c = grade_between p0 c).
    { destruct (s !! (a - 1)%nat) as [q|] eqn:Hq.
      - exists q. split; [reflexivity|]. rewrite Hs in Hq.
        by apply (graded_upto_prev pts a (a - 1) p0 q).
      - rewrite Hs in Hq. unfold graded_upto in Hq. rewrite Hp0 in Hq.
        simpl in Hq. case_decide; [|discriminate].
        destruct (pts !! (a - 1 - 1)%nat) eqn:Hpp; [discriminate|].
        apply lookup_ge_None in Hpp. lia. }
    destruct Hsp as (q & Hq & Hg).
    assert (Hstep : grade_step s a
                    = Some (<[a := set_grade (grade_between p0 c) c]> s)).
    { unfold grade_step. rewrite Hq, Hsa. simpl. by rewrite Hg. }
    rewrite Hstep. simpl.
    set (s1 := <[a := set_grade (grade_between p0 c) c]> s).
    destruct (IH (S a) s1) as (s' & Hs' & Hl' & Hi'); [lia | lia | |].
    + intros i. unfold s1. destruct (decide (i = a)) as [->|Hne].
      * rewrite list_lookup_insert_eq by (by eapply lookup_lt_Some).
        unfold graded_upto. rewrite Hc. simpl.
        rewrite decide_True by lia. by rewrite Hp0.
      * rewrite list_lookup_insert_ne by done. rewrite Hs.
        unfold graded_upto. destruct (pts !! i); [|reflexivity]. simpl.
        repeat case_decide; try reflexivity; lia.
    + exists s'. split; [exact Hs'|]. split.
      * rewrite Hl'. unfold s1. by rewrite length_insert.
      * intros i. replace (a + S n)%nat with (S a + n)%nat by lia. apply Hi'.
Qed.

(** C7: on a non-empty profile the grades are computed; the first grade is
    0, every point keeps its distance, elevation and position, and a later
    point whose distance from its predecessor is positive gets the grade
    100 * (elevation change) / (horizontal distance), else 0. *)
Theorem calculate_grades_spec (pts : list ProfilePoint) :
  pts ≠ [] →
  ∃ pts', calculate_grades pts = Some pts' ∧
    length pts' = length pts ∧
    grade <$> pts' !! 0%nat = Some 0 ∧
    (∀ i p, pts !! i = Some p → ∃ p', pts' !! i = Some p' ∧ same_track p' p) ∧
    (∀ i prev curr, (1 <= i)%nat →
       pts !! (i - 1)%nat = Some prev → pts !! i = Some curr →
       ∃ curr', pts' !! i = Some curr' ∧
         (distance curr - distance prev > 0 →
          grade curr' = 100 * (elevation curr - elevation prev)
                        / (distance curr - distance prev)) ∧
         (¬ distance curr - distance prev > 0 → grade curr' = 0)).
Proof.
  intros Hne.
  assert (Hlen : (1 <= length pts)%nat).
  { destruct pts; [contradiction | simpl; lia]. }
  destruct (grade_loop pts (length pts - 1) 1 pts) as (s' & Hs' & Hl' & Hi');
    [lia | lia | |].
  { intros i. unfold graded_upto. destruct (pts !! i); [|reflexivity]. simpl.
    by rewrite decide_False by lia. }
  replace (1 + (length pts - 1))%nat with (length pts) in Hi' by lia.
  destruct (lookup_lt_is_Some_2 pts 0) as [p0 Hp0]; [lia|].
  assert (Hs0 : s' !! 0%nat = Some p0).
  { rewrite Hi'. unfold graded_upto. rewrite Hp0. simpl.
    repeat case_decide; (reflexivity || lia). }
  unfold calculate_grades. rewrite Hs'. simpl. rewrite Hs0. simpl.
  eexists. split; [reflexivity|].
  split; [by rewrite length_insert|].
  split; [by rewrite list_lookup_insert_eq by lia|].
  split.
  - intros i p Hp. destruct (decide (i = 0%nat)) as [->|Hi].
    + rewrite list_lookup_insert_eq by lia. eexists. split; [reflexivity|].
      rewrite Hp0 in Hp. injection Hp as <-. by repeat split.
    + rewrite list_lookup_insert_ne by done. rewrite Hi'.
      assert (Hlt : (i < length pts)%nat) by (by eapply lookup_lt_Some).
      destruct (lookup_lt_is_Some_2 pts (i - 1)) as [q Hq]; [lia|].
      unfold graded_upto. rewrite Hp. simpl.
      rewrite decide_True by lia. rewrite Hq. simpl.
      eexists. split; [reflexivity|]. by repeat split.
  - intros i prev curr Hi Hprev Hcurr.
    rewrite list_lookup_insert_ne by lia. rewrite Hi'.
    unfold graded_upto. rewrite Hcurr. simpl.
    assert (Hlt : (i < length pts)%nat) by (by eapply lookup_lt_Some).
    rewrite decide_True by lia. rewrite Hprev. simpl.
    eexists. split; [reflexivity|]. simpl. unfold grade_between.
    split; intros Hd.
    + rewrite decide_True by exact Hd. field. lra.
    + by rewrite decide_False by exact Hd.
Qed.

Lemma calculate_grades_spec_witness :
  short_climb ≠ [] ∧
  ∃ pts', calculate_grades short_climb = Some pts' ∧
          grade <$> pts' !! 0%nat = Some 0 ∧
          grade <$> pts' !! 1%nat = Some 5.
Proof.
  assert (Hne : short_climb ≠ []) by discriminate.
  split; [exact Hne|].
  destruct (calculate_grades_spec short_climb Hne)
    as (pts' & Hcalc & _ & Hfirst & _ & Hrest).
  exists pts'. split; [exact Hcalc|]. split; [exact Hfirst|].
  destruct (Hrest 1%nat _ _ (le_n 1) eq_refl eq_refl) as (curr' & Hc & Hg & _).
  rewrite Hc. simpl. f_equal. rewrite Hg; simpl; lra.
Defined.

End Grades.

(** ** Elevation gain, loss and net change *)

Section ProfileStatistics.
Import ProfileOps.

Lemma parts_difference (d : R) : positive_part d - negative_part d = d.
Proof.
  unfold positive_part, negative_part. case_decide; [lra|].
  rewrite Rabs_left1 by lra. lra.
Qed.

(** The sum of the elevation changes telescopes. *)
Lemma sum_delta_telescope (pts : list ProfilePoint) (n a : nat) :
  (1 <= a)%nat →
  sum_over (delta pts) (seq a n) = elev_at pts (a + n - 1) - elev_at pts (a - 1).
Proof.
  revert a. induction n as [|n IH]; intros a Ha.
  - unfold sum_over. simpl. replace (a + 0 - 1)%nat with (a - 1)%nat by lia. lra.
  - unfold sum_over in *. cbn [seq fmap list_fmap foldr].
    specialize (IH (S a) ltac:(lia)). cbn [fmap] in IH. rewrite IH.
    unfold delta.
    replace (S a + n - 1)%nat with (a + S n - 1)%nat by lia.
    replace (S a - 1)%nat with a by lia. lra.
Qed.

Lemma sum_over_minus (f g : nat → R) (l : list nat) :
  sum_over f l - sum_over g l = sum_over (λ i, f i - g i) l.
Proof.
  unfold sum_over. induction l as [|i l IH]; [simpl; lra|].
  rewrite !fmap_cons. cbn [foldr]. rewrite <- IH. lra.
Qed.

Lemma sum_over_ext (f g : nat → R) (l : list nat) :
  (∀ i, f i = g i) → sum_over f l = sum_over g l.
Proof.
  intros Hfg. unfold sum_over. induction l as [|i l IH]; [done|].
  rewrite !fmap_cons. cbn [foldr]. by rewrite Hfg, IH.
Qed.

(** The invariant of the loop of [calculate_profile_statistics]: gain and
    loss have grown by the positive and negative parts of the changes. *)
Lemma stat_loop (pts : list ProfilePoint) (th : R) (n a : nat)
    (acc : accumulators) :
  (1 <= a)%nat → (a + n <= length pts)%nat →
  ∃ acc', for_each (seq a n) (stat_step pts th) acc = Some acc' ∧
    elevation_gain acc' =
      elevation_gain acc + sum_over (λ i, positive_part (delta pts i)) (seq a n) ∧
    elevation_loss acc' =
      elevation_loss acc + sum_over (λ i, negative_part (delta pts i)) (seq a n).
Proof.
  revert a acc. induction n as [|n IH]; intros a acc Ha Hlen.
  - exists acc. unfold sum_over. simpl. repeat split; lra.
  - cbn [seq for_each].
    destruct (lookup_lt_is_Some_2 pts (a - 1)) as [prev Hprev]; [lia|].
    destruct (lookup_lt_is_Some_2 pts a) as [curr Hcurr]; [lia|].
    assert (Hd : delta pts a = elevation curr - elevation prev).
    { unfold delta, elev_at. by rewrite Hprev, Hcurr. }
    destruct (stat_step pts th acc a) as [acc1|] eqn:Hstep.
    2: { unfold stat_step in Hstep. rewrite Hprev, Hcurr in Hstep. discriminate. }
    simpl. destruct (IH (S a) acc1) as (acc' & Hloop & Hg & Hl); [lia | lia |].
    exists acc'. split; [exact Hloop|].
    unfold stat_step in Hstep. rewrite Hprev, Hcurr in Hstep. simpl in Hstep.
    injection Hstep as <-. simpl in Hg, Hl.
    unfold sum_over in *. cbn [fmap list_fmap foldr]. cbn [fmap] in Hg, Hl.
    rewrite Hg, Hl, Hd. unfold positive_part, negative_part.
    split; case_decide; lra.
Qed.

(** C10: on a non-empty profile the statistics are computed; the gain is
    the sum of the positive elevation changes, the loss the sum of the
    absolute values of the others, the net change is the last elevation minus
    the first, and gain minus loss is the net change. *)
Theorem gain_minus_loss_is_net_change (pts : list ProfilePoint) (th : R) :
  pts ≠ [] →
  ∃ st, calculate_profile_statistics pts th = Some st ∧
    let steps := seq 1 (length pts - 1) in
    elevationGain st = sum_over (λ i, positive_part (delta pts i)) steps ∧
    elevationLoss st = sum_over (λ i, negative_part (delta pts i)) steps ∧
    netElevationChange st = elev_at pts (length pts - 1) - elev_at pts 0 ∧
    elevationGain st - elevationLoss st = netElevationChange st.
Proof.
  intros Hne.
  assert (Hlen : (1 <= length pts)%nat).
  { destruct pts; [contradiction | simpl; lia]. }
  unfold calculate_profile_statistics.
  destruct (stat_loop pts th (length pts - 1) 1
              {| elevation_gain := 0; elevation_loss := 0;
                 max_grade_uphill := 0; max_grade_downhill := 0;
                 excessive_grade_distance := 0; excessive_segments := [] |})
    as (acc & Hloop & Hg & Hl); [lia | lia |].
  rewrite Hloop. simpl in Hg, Hl. simpl.
  rewrite last_lookup.
  replace (Init.Nat.pred (length pts)) with (length pts - 1)%nat by lia.
  destruct (lookup_lt_is_Some_2 pts (length pts - 1)) as [pl Hpl]; [lia|].
  destruct (lookup_lt_is_Some_2 pts 0) as [p0 Hp0]; [lia|].
  rewrite Hpl. simpl. rewrite Hp0. simpl.
  eexists. split; [reflexivity|]. simpl.
  assert (Hnet : elevation pl - elevation p0
                 = elev_at pts (length pts - 1) - elev_at pts 0).
  { unfold elev_at. by rewrite Hpl, Hp0. }
  split; [rewrite Hg; lra|]. split; [rewrite Hl; lra|]. split; [exact Hnet|].
  rewrite Hg, Hl, Hnet.
  replace (0 + sum_over (λ i, positive_part (delta pts i)) (seq 1 (length pts - 1))
           - (0 + sum_over (λ i, negative_part (delta pts i)) (seq 1 (length pts - 1))))
    with (sum_over (λ i, positive_part (delta pts i)) (seq 1 (length pts - 1))
          - sum_over (λ i, negative_part (delta pts i)) (seq 1 (length pts - 1)))
    by lra.
  rewrite sum_over_minus.
  rewrite (sum_over_ext _ (delta pts)) by (intros i; apply parts_difference).
  rewrite sum_delta_telescope by lia.
  replace (1 + (length pts - 1) - 1)%nat with (length pts - 1)%nat by lia.
  reflexivity.
Qed.

Lemma gain_minus_loss_is_net_change_witness :
  short_climb ≠ [] ∧
  ∃ st, calculate_profile_statistics short_climb 8 = Some st ∧
        elevationGain st - elevationLoss st = netElevationChange st.
Proof.
  assert (Hne : short_climb ≠ []) by discriminate.
  split; [exact Hne|].
  destruct (gain_minus_loss_is_net_change short_climb 8 Hne)
    as (st & Hst & _ & _ & _ & Heq).
  exists st. split; [exact Hst | exact Heq].
Defined.

End ProfileStatistics.

(** ** Sample distances along a line *)

Section SampleDistances.
Import ProfileOps.

Lemma ceil_bounds (x : R) : x <= IZR (ceil x) < x + 1.
Proof.
  unfold ceil. rewrite minus_IZR. destruct (archimed (- x)) as [Hgt Hle].
  split; lra.
Qed.


Lemma haversine_distance_nonneg (lat1 lng1 lat2 lng2 : R) :
  0 <= haversine_distance lat1 lng1 lat2 lng2.
Proof.
  unfold haversine_distance. cbv zeta.
  match goal with |- context [atan2 ?y ?x] =>
    pose proof (atan2_nonneg y x (sqrt_pos _) (sqrt_pos _)) end.
  lra.
Qed.

Lemma line_length_from_ge (coords : list (R * R)) (total : R) :
  total <= line_length_from total coords.
Proof.
  revert total. induction coords as [|[lng1 lat1] rest IH]; intros total.
  - simpl. lra.
  - cbn [line_length_from]. destruct rest as [|[lng2 lat2] rest']; [lra|].
    pose proof (haversine_distance_nonneg lat1 lng1 lat2 lng2).
    etransitivity; [|apply IH]. lra.
Qed.






Lemma walk_segments_spec (coords : list (R * R)) (c d : R) :
  c <= d →
  match walk_segments coords c d with
  | Some p =>
      d <= line_length_from c coords ∧
      ∃ i a b, coords !! i = Some a ∧ coords !! S i = Some b ∧ on_segment p a b
  | None => (length coords <= 1)%nat ∨ line_length_from c coords < d
  end.
Proof.
  revert c. induction coords as [|[lng1 lat1] rest IH]; intros c Hc.
  - left. simpl. lia.
  - cbn [walk_segments line_length_from].
    destruct rest as [|[lng2 lat2] rest']; [left; simpl; lia|].
    pose proof (haversine_distance_nonneg lat1 lng1 lat2 lng2) as Hseg.
    set (seg := haversine_distance lat1 lng1 lat2 lng2) in *.
    case_decide as Hreach.
    + split.
      { etransitivity; [|apply line_length_from_ge]. lra. }
      exists 0%nat, (lng1, lat1), (lng2, lat2).
      split; [reflexivity|]. split; [reflexivity|].
      exists (if decide (seg > 0) then (d - c) / seg else 0).
      split; [|reflexivity].
      case_decide as Hpos; [|lra]. split.
      * apply Rmult_le_pos; [lra|]. left. by apply Rinv_0_lt_compat.
      * apply (Rmult_le_reg_r seg); [lra|].
        unfold Rdiv. rewrite Rmult_assoc, Rinv_l by lra. lra.
    + specialize (IH (c + seg) ltac:(lra)).
      destruct (walk_segments ((lng2, lat2) :: rest') (c + seg) d) as [p|].
      * destruct IH as (Hd & i & a & b & Ha & Hb & Hon).
        split; [exact Hd|]. by exists (S i), a, b.
      * right. destruct IH as [Hshort|Hlt]; [|exact Hlt].
        destruct rest' as [|? ?]; [|simpl in Hshort; lia].
        simpl. lra.
Qed.

Lemma floor_bounds (x : R) : IZR (floor x) <= x < IZR (floor x) + 1.
Proof.
  unfold floor. rewrite minus_IZR. destruct (archimed x) as [Hgt Hle].
  split; lra.
Qed.

Lemma floor_neg_iff (x : R) : (floor x < 0)%Z ↔ x < 0.
Proof.
  destruct (floor_bounds x) as [Hlo Hhi]. split.
  - intros H. assert (Hz : (floor x + 1 <= 0)%Z) by lia.
    apply IZR_le in Hz. rewrite plus_IZR in Hz. lra.
  - intros H. apply lt_IZR. lra.
Qed.

Lemma floor_succ_ge_iff (x : R) (n : Z) :
  (floor x + 1 >= n)%Z ↔ IZR n - 1 <= x.
Proof.
  destruct (floor_bounds x) as [Hlo Hhi]. split.
  - intros H. assert (Hz : (n - 1 <= floor x)%Z) by lia.
    apply IZR_le in Hz. rewrite minus_IZR in Hz. lra.
  - intros H.
    assert (Hz : (n - 1 < floor x + 1)%Z).
    { apply lt_IZR. rewrite minus_IZR, plus_IZR. lra. }
    lia.
Qed.

Lemma shape_has_shape (h w : nat) (data : grid) :
  has_shape h w data → (1 <= h)%nat → shape data = (h, w).
Proof.
  intros [Hlen Hrows] Hh. unfold shape. rewrite Hlen.
  destruct data as [|row data]; [simpl in Hlen; lia|].
  apply Forall_cons in Hrows as [-> _]. reflexivity.
Qed.




















End SampleDistances.

(** ** The RMSE quality gate of the DEM-generation job *)

Section QualityGate.
Import DemGenerator.
Local Open Scope string_scope.

Variable fetch_contours_from_postgis : string → string → result (list contour).
Variable generate_dem :
  list contour → bounds → R → string → string → result (dataset * Z * Z).
Variable calculate_dem_stats : dataset → result (R * R * R).
Variable upload_to_s3 : dataset → string → result unit.
Variable create_dem_record : payload → string → metrics → result string.
Variable format_2f : R → string.
Variable format_float : R → string.

Local Abbreviation run_job :=
  (DemGenerator.run_job fetch_contours_from_postgis generate_dem
     calculate_dem_stats upload_to_s3 create_dem_record format_2f format_float).
Local Abbreviation handler :=
  (DemGenerator.handler fetch_contours_from_postgis generate_dem
     calculate_dem_stats upload_to_s3 create_dem_record format_2f format_float).






End QualityGate.

Section QualityGateExamples.
Import DemGenerator.
Local Open Scope string_scope.

Lemma floor_IZR (z : Z) : floor (IZR z) = z.
Proof.
  unfold floor. rewrite <- (tech_up (IZR z) (z + 1)); [lia | |];
    rewrite plus_IZR; lra.
Qed.

Lemma trunc_0 : trunc 0 = 0%Z.
Proof. unfold trunc. rewrite decide_True by lra. apply (floor_IZR 0). Qed.

(** The one sample of the example is 10 m off, so the RMSE is 10. *)
Lemma validate_one_cell :
  ∃ m, validate_dem one_cell_dem [high_contour] = inr m ∧ rmse m = 10.
Proof.
  assert (Herr : contour_errors one_cell_dem high_contour = [10]).
  { unfold contour_errors.
    destruct (string_dec (geometry_type high_contour) "LineString") as [_|Hn];
      [|by destruct Hn].
    cbn [high_contour coordinates contour_elevation length Nat.div Nat.max].
    unfold range_step. simpl.
    unfold sample_error, geo_to_pixel. simpl.
    replace ((0 - 0) / 1) with 0 by (unfold Rdiv; ring).
    replace ((0 - 0) / -1) with 0 by (unfold Rdiv; ring).
    rewrite trunc_0. simpl.
    unfold cell, lookup2. simpl.
    rewrite decide_True by lra.
    apply (f_equal (λ v, [v])).
    replace (0 - 10) with (Ropp 10) by lra.
    rewrite Rabs_Ropp. apply Rabs_pos_eq. lra. }
  unfold validate_dem. cbn [fmap list_fmap concat]. rewrite Herr. simpl.
  eexists. split; [reflexivity|]. simpl.
  unfold Rsum. simpl.
  replace ((0 + 10 * (10 * 1)) / 1) with (10 * 10) by (unfold Rdiv; field).
  apply sqrt_square. lra.
Qed.



End QualityGateExamples.

(** * Part III: further properties of the embedded code *)

(** ** Dominant direction and the partition of the aspect counts *)

Section AspectDistribution.
Import AspectOps.

Ltac each_direction k :=
  let Hcases := fresh "Hcases" in
  assert (Hcases : (k = 1 ∨ k = 2 ∨ k = 3 ∨ k = 4 ∨ k = 5 ∨ k = 6 ∨ k = 7
                    ∨ k = 8)%nat) by lia;
  repeat (destruct Hcases as [Hcases | Hcases]; [subst k; lia|]);
  subst k; lia.

Ltac all_zero Hzero :=
  pose proof (Hzero 1%nat ltac:(lia)); pose proof (Hzero 2%nat ltac:(lia));
  pose proof (Hzero 3%nat ltac:(lia)); pose proof (Hzero 4%nat ltac:(lia));
  pose proof (Hzero 5%nat ltac:(lia)); pose proof (Hzero 6%nat ltac:(lia));
  pose proof (Hzero 7%nat ltac:(lia)); pose proof (Hzero 8%nat ltac:(lia));
  lia.

(** X1: [_get_dominant_direction] returns one of the eight directions, one
    with the largest count, and among those the first in the order N, NE, E,
    SE, S, SW, W, NW; when no cell has a direction it returns N. *)
Theorem dominant_direction_spec (c : counts) :
  let d := _get_dominant_direction c in
  (D_N <= d <= D_NW)%nat ∧
  (∀ k, (D_N <= k <= D_NW)%nat →
        (by_class c k <= by_class c d)%nat ∧
        (k < d → by_class c k < by_class c d)%nat) ∧
  ((∀ k, (D_N <= k <= D_NW)%nat → by_class c k = 0%nat) → d = D_N).
Proof.
  unfold _get_dominant_direction, D_N, D_NE, D_E, D_SE, D_S, D_SW, D_W, D_NW.
  cbn [fold_left].
  repeat (case_decide; cbn [fst snd]);
    (split; [lia|]); (split; [intros k Hk; each_direction k|]);
    intros Hzero; all_zero Hzero.
Qed.

Lemma classify_angle_le (a : R) : (classify_angle a <= D_NW)%nat.
Proof.
  unfold classify_angle, D_FLAT, D_N, D_NE, D_E, D_SE, D_S, D_SW, D_W, D_NW.
  repeat case_decide; lia.
Qed.

(** Every cell is counted in exactly one of the nine classes. *)
Lemma classes_partition (cells : list R) :
  (cells_of_class D_FLAT cells + cells_of_class D_N cells
   + cells_of_class D_NE cells + cells_of_class D_E cells
   + cells_of_class D_SE cells + cells_of_class D_S cells
   + cells_of_class D_SW cells + cells_of_class D_W cells
   + cells_of_class D_NW cells = length cells)%nat.
Proof.
  unfold cells_of_class. induction cells as [|a cells IH]; [reflexivity|].
  rewrite !filter_cons. pose proof (classify_angle_le a) as Hle.
  unfold D_FLAT, D_N, D_NE, D_E, D_SE, D_S, D_SW, D_W, D_NW in *.
  repeat case_decide; simpl; lia.
Qed.

Lemma north_partition (cells : list R) :
  length (filter (λ a, north_class (classify_angle a) = true) cells)
  = (cells_of_class D_N cells + cells_of_class D_NE cells
     + cells_of_class D_NW cells)%nat.
Proof.
  unfold cells_of_class. induction cells as [|a cells IH]; [reflexivity|].
  rewrite !filter_cons. unfold north_class in *.
  unfold D_FLAT, D_N, D_NE, D_E, D_SE, D_S, D_SW, D_W, D_NW in *.
  repeat case_decide; simpl; try lia;
    match goal with
    | H : bool_decide _ = true |- _ => apply bool_decide_eq_true in H; lia
    | H : ¬ bool_decide _ = true |- _ =>
        exfalso; apply H, bool_decide_eq_true; lia
    end.
Qed.

Lemma south_partition (cells : list R) :
  length (filter (λ a, south_class (classify_angle a) = true) cells)
  = (cells_of_class D_S cells + cells_of_class D_SE cells
     + cells_of_class D_SW cells)%nat.
Proof.
  unfold cells_of_class. induction cells as [|a cells IH]; [reflexivity|].
  rewrite !filter_cons. unfold south_class in *.
  unfold D_FLAT, D_N, D_NE, D_E, D_SE, D_S, D_SW, D_W, D_NW in *.
  repeat case_decide; simpl; try lia;
    match goal with
    | H : bool_decide _ = true |- _ => apply bool_decide_eq_true in H; lia
    | H : ¬ bool_decide _ = true |- _ =>
        exfalso; apply H, bool_decide_eq_true; lia
    end.
Qed.

(** X2: the flat percentage and the eight direction percentages add up to
    100; the north-facing percentage is the sum of N, NE and NW and the
    south-facing one the sum of S, SE and SW, so that together with E, W and
    flat they add up to 100 as well; no percentage is negative. *)
Theorem aspect_percentages_partition (aspect : grid) :
  concat aspect ≠ [] →
  ∃ st, calculate_aspect_statistics aspect = Some st ∧
    flatPercent st + northPercent st + northeastPercent st + eastPercent st
      + southeastPercent st + southPercent st + southwestPercent st
      + westPercent st + northwestPercent st = 100 ∧
    northFacingPercent st
      = northPercent st + northeastPercent st + northwestPercent st ∧
    southFacingPercent st
      = southPercent st + southeastPercent st + southwestPercent st ∧
    flatPercent st + northFacingPercent st + southFacingPercent st
      + eastPercent st + westPercent st = 100 ∧
    0 <= flatPercent st ∧ 0 <= northFacingPercent st ∧
    0 <= southFacingPercent st ∧ 0 <= eastPercent st ∧ 0 <= westPercent st.
Proof.
  intros Hne. unfold calculate_aspect_statistics.
  pose proof (count_angle_loop (concat aspect) zero_counts []) as (Hk & Hn & Hs & _).
  destruct (fold_left count_angle (concat aspect) (zero_counts, []))
    as [c valid] eqn:Hfold.
  simpl in Hk, Hn, Hs.
  case_decide as Hlen; [by apply length_zero_iff_nil in Hlen|].
  eexists. split; [reflexivity|]. cbn [flatPercent northPercent northeastPercent eastPercent
    southeastPercent southPercent southwestPercent westPercent northwestPercent
    northFacingPercent southFacingPercent].
  rewrite Hn, Hs, north_partition, south_partition, !Hk.
  pose proof (classes_partition (concat aspect)) as Hsum.
  set (cells := concat aspect) in *.
  assert (Htotal : 0 < INR (length cells)) by (apply lt_0_INR; lia).
  apply (f_equal INR) in Hsum. rewrite !plus_INR in Hsum. rewrite !plus_INR.
  assert (Hpos : ∀ n, 0 <= INR n / INR (length cells) * 100).
  { intros n. pose proof (pos_INR n).
    assert (0 <= INR n / INR (length cells)).
    { apply Rmult_le_pos; [assumption|]. left. by apply Rinv_0_lt_compat. }
    lra. }
  simpl Nat.add.
  assert (Hdiv : ∀ x, x / INR (length cells) * 100
                      = x * (100 / INR (length cells))).
  { intros x. field. lra. }
  assert (Hone : INR (length cells) * (100 / INR (length cells)) = 100).
  { field. lra. }
  pose proof (Hpos (cells_of_class D_FLAT cells)).
  pose proof (Hpos (cells_of_class D_N cells)).
  pose proof (Hpos (cells_of_class D_NE cells)).
  pose proof (Hpos (cells_of_class D_E cells)).
  pose proof (Hpos (cells_of_class D_SE cells)).
  pose proof (Hpos (cells_of_class D_S cells)).
  pose proof (Hpos (cells_of_class D_SW cells)).
  pose proof (Hpos (cells_of_class D_W cells)).
  pose proof (Hpos (cells_of_class D_NW cells)).
  rewrite !Hdiv in *. clear Hdiv Hpos.
  set (q := 100 / INR (length cells)) in *.
  rewrite <- Hsum in Hone at 1. rewrite !Rmult_plus_distr_r in Hone.
  repeat split; lra.
Qed.

Lemma aspect_percentages_partition_witness :
  concat [[-1; 10]; [100; 200]] ≠ [] ∧
  ∃ st, calculate_aspect_statistics [[-1; 10]; [100; 200]] = Some st ∧
        flatPercent st + northFacingPercent st + southFacingPercent st
          + eastPercent st + westPercent st = 100.
Proof.
  assert (Hne : concat [[-1; 10]; [100; 200]] ≠ []) by discriminate.
  split; [exact Hne|].
  destruct (aspect_percentages_partition [[-1; 10]; [100; 200]] Hne)
    as (st & Hst & _ & _ & _ & Hsum & _).
  exists st. split; [exact Hst | exact Hsum].
Defined.

End AspectDistribution.

(** ** Sums, means and maxima of lists *)

Section ListBounds.

Lemma fold_left_Rmax_ge (l : list R) (a : R) : a <= fold_left Rmax l a.
Proof.
  revert a. induction l as [|x l IH]; intros a; simpl; [lra|].
  etransitivity; [apply (Rmax_l a x) | apply IH].
Qed.

Lemma fold_left_Rmax_upper (l : list R) (a x : R) :
  x ∈ a :: l → x <= fold_left Rmax l a.
Proof.
  revert a. induction l as [|y l IH]; intros a Hin; simpl.
  - apply list_elem_of_singleton in Hin. subst. lra.
  - apply elem_of_cons in Hin as [->|Hin].
    + etransitivity; [apply (Rmax_l a y) | apply fold_left_Rmax_ge].
    + apply elem_of_cons in Hin as [->|Hin].
      * etransitivity; [apply (Rmax_r a y) | apply fold_left_Rmax_ge].
      * apply IH. by apply list_elem_of_further.
Qed.

Lemma fold_left_Rmax_in (l : list R) (a : R) : fold_left Rmax l a ∈ a :: l.
Proof.
  revert a. induction l as [|y l IH]; intros a; simpl; [by left|].
  specialize (IH (Rmax a y)). apply elem_of_cons in IH as [Heq|Hin].
  - rewrite Heq. unfold Rmax. destruct (Rle_dec a y); [right; left | left].
  - by do 2 right.
Qed.

Lemma fold_left_Rmax_lub (l : list R) (a M : R) :
  (∀ x, x ∈ a :: l → x <= M) → fold_left Rmax l a <= M.
Proof. intros H. apply H, fold_left_Rmax_in. Qed.

Lemma fold_left_Rplus_from (l : list R) (a : R) :
  fold_left Rplus l a = a + Rsum l.
Proof.
  unfold Rsum. revert a. induction l as [|x l IH]; intros a; simpl; [lra|].
  rewrite (IH (a + x)), (IH (0 + x)). lra.
Qed.

Lemma Rsum_cons (x : R) (l : list R) : Rsum (x :: l) = x + Rsum l.
Proof. unfold Rsum at 1. simpl. rewrite fold_left_Rplus_from. lra. Qed.

Lemma Rsum_le_max (l : list R) (M : R) :
  (∀ x, x ∈ l → x <= M) → Rsum l <= INR (length l) * M.
Proof.
  induction l as [|x l IH]; intros H.
  - unfold Rsum. simpl. lra.
  - rewrite Rsum_cons, length_cons, S_INR.
    pose proof (H x ltac:(left)).
    pose proof (IH (λ y Hy, H y (list_elem_of_further _ _ _ Hy))). lra.
Qed.

Lemma Rsum_ge_min (l : list R) (m : R) :
  (∀ x, x ∈ l → m <= x) → INR (length l) * m <= Rsum l.
Proof.
  induction l as [|x l IH]; intros H.
  - unfold Rsum. simpl. lra.
  - rewrite Rsum_cons, length_cons, S_INR.
    pose proof (H x ltac:(left)).
    pose proof (IH (λ y Hy, H y (list_elem_of_further _ _ _ Hy))). lra.
Qed.

Lemma length_pos_INR {A : Type} (l : list A) : l ≠ [] → 0 < INR (length l).
Proof. intros H. apply lt_0_INR. destruct l; [done | simpl; lia]. Qed.

Lemma mean_le_max (l : list R) (M : R) :
  l ≠ [] → (∀ x, x ∈ l → x <= M) → Rsum l / INR (length l) <= M.
Proof.
  intros Hne H. pose proof (length_pos_INR l Hne) as Hpos.
  pose proof (Rsum_le_max l M H).
  apply (Rmult_le_reg_r (INR (length l))); [assumption|].
  unfold Rdiv. rewrite Rmult_assoc, Rinv_l by lra. lra.
Qed.

Lemma mean_ge_min (l : list R) (m : R) :
  l ≠ [] → (∀ x, x ∈ l → m <= x) → m <= Rsum l / INR (length l).
Proof.
  intros Hne H. pose proof (length_pos_INR l Hne) as Hpos.
  pose proof (Rsum_ge_min l m H).
  apply (Rmult_le_reg_r (INR (length l))); [assumption|].
  unfold Rdiv. rewrite Rmult_assoc, Rinv_l by lra. lra.
Qed.

Lemma percent_of_bounds (c t : nat) :
  (c <= t)%nat → (0 < t)%nat → 0 <= SlopeOps.percent_of c t <= 100.
Proof.
  intros Hle Hpos. unfold SlopeOps.percent_of.
  apply le_INR in Hle. apply lt_0_INR in Hpos. pose proof (pos_INR c).
  assert (Hq : 0 <= INR c / INR t <= 1).
  { split.
    - apply Rmult_le_pos; [assumption|]. left. by apply Rinv_0_lt_compat.
    - apply (Rmult_le_reg_r (INR t)); [assumption|].
      unfold Rdiv. rewrite Rmult_assoc, Rinv_l by lra. lra. }
  lra.
Qed.

Lemma percent_of_0 (c t : nat) :
  (0 < t)%nat → SlopeOps.percent_of c t = 0 ↔ c = 0%nat.
Proof.
  intros Hpos. unfold SlopeOps.percent_of. apply lt_0_INR in Hpos. split.
  - intros H. apply INR_eq. simpl.
    assert (Hc : INR c = INR c / INR t * 100 * (INR t / 100)) by (field; lra).
    rewrite Hc, H. lra.
  - intros ->. simpl. lra.
Qed.

Lemma percent_of_plus (a b t : nat) :
  SlopeOps.percent_of (a + b) t
  = SlopeOps.percent_of a t + SlopeOps.percent_of b t.
Proof. unfold SlopeOps.percent_of. rewrite plus_INR. lra. Qed.

Lemma percent_of_all (t : nat) : (0 < t)%nat → SlopeOps.percent_of t t = 100.
Proof.
  intros Hpos. apply lt_0_INR in Hpos. unfold SlopeOps.percent_of. field. lra.
Qed.

Lemma count_where_le (P : R → Prop) `{!∀ s, Decision (P s)} (l : list R) :
  (SlopeOps.count_where P l <= length l)%nat.
Proof. apply length_filter. Qed.

Lemma count_where_0 (P : R → Prop) `{!∀ s, Decision (P s)} (l : list R) :
  SlopeOps.count_where P l = 0%nat ↔ ∀ s, s ∈ l → ¬ P s.
Proof.
  unfold SlopeOps.count_where. rewrite length_zero_iff_nil. split.
  - intros Hnil s Hin HP.
    assert (Hs : s ∈ filter P l) by (apply list_elem_of_filter; done).
    rewrite Hnil in Hs. by apply elem_of_nil in Hs.
  - intros Hall. induction l as [|x l IH]; [done|].
    rewrite filter_cons. destruct (decide (P x)) as [HP|_].
    + exfalso. apply (Hall x); [left | done].
    + apply IH. intros s Hs. apply Hall. by right.
Qed.

End ListBounds.

(** ** Slope statistics: partition, mean and maximum *)

Section SlopeDistribution.

Import SlopeOps.

Lemma slope_classes_partition (th : thresholds) (l : list R) :
  ordered th →
  (count_where (λ s, (s <= flat th)%R) l
   + count_where (λ s, (flat th < s ∧ s <= moderate th)%R) l
   + count_where (λ s, (moderate th < s ∧ s <= steep th)%R) l
   + count_where (λ s, (steep th < s)%R) l = length l)%nat.
Proof.
  intros [H1 H2]. unfold count_where.
  induction l as [|x l IH]; [reflexivity|].
  rewrite !filter_cons.
  repeat case_decide; simpl; try lia; exfalso; intuition lra.
Qed.

Lemma steep_or_steeper (th : thresholds) (l : list R) :
  ordered th →
  (count_where (λ s, (moderate th < s ∧ s <= steep th)%R) l
   + count_where (λ s, (steep th < s)%R) l
   = count_where (λ s, (moderate th < s)%R) l)%nat.
Proof.
  intros [H1 H2]. unfold count_where.
  induction l as [|x l IH]; [reflexivity|].
  rewrite !filter_cons.
  repeat case_decide; simpl; try lia; exfalso; intuition lra.
Qed.

(** X3: with thresholds that do not decrease, the four category percentages
    of [calculate_slope_statistics] add up to 100 and each lies between 0 and
    100; the unbuildable percentage lies between 0 and 100 too, and equals
    the steep plus the very steep percentage when the buildable limit is the
    moderate threshold (as with the defaults 15 and 15 of the handler). *)
Theorem slope_percentages_partition (slope : grid) (th : thresholds)
    (max_buildable_slope : R) :
  ordered th → valid_cells slope ≠ [] →
  ∃ st, calculate_slope_statistics slope th max_buildable_slope = Some st ∧
    flatPercent st + moderatePercent st + steepPercent st
      + verySteepPercent st = 100 ∧
    0 <= flatPercent st <= 100 ∧ 0 <= moderatePercent st <= 100 ∧
    0 <= steepPercent st <= 100 ∧ 0 <= verySteepPercent st <= 100 ∧
    0 <= unbuildablePercent st <= 100 ∧
    (max_buildable_slope = moderate th →
     unbuildablePercent st = steepPercent st + verySteepPercent st).
Proof.
  intros Hord Hne. unfold calculate_slope_statistics.
  destruct (valid_cells slope) as [|v0 rest] eqn:Hvalid; [done|].
  eexists. split; [reflexivity|].
  cbn [flatPercent moderatePercent steepPercent verySteepPercent
       unbuildablePercent].
  set (l := v0 :: rest) in *.
  assert (Hpos : (0 < length l)%nat) by (simpl; lia).
  split.
  { rewrite <- !percent_of_plus, (slope_classes_partition th l Hord).
    by apply percent_of_all. }
  repeat split;
    try (apply percent_of_bounds; [apply count_where_le | exact Hpos]).
  intros ->. rewrite <- percent_of_plus. f_equal.
  symmetry. by apply steep_or_steeper.
Qed.

Lemma default_thresholds_ordered : ordered default_thresholds.
Proof. unfold ordered, default_thresholds. simpl. lra. Qed.

Lemma valid_cells_example : valid_cells [[-9999; 1; 10]; [20; 30; 40]] ≠ [].
Proof.
  apply (valid_cells_nonempty _ 1).
  - simpl. do 1 constructor. constructor.
  - unfold SLOPE_NODATA. lra.
Qed.

Lemma slope_percentages_partition_witness :
  ordered default_thresholds ∧
  valid_cells [[-9999; 1; 10]; [20; 30; 40]] ≠ [] ∧
  ∃ st, calculate_slope_statistics [[-9999; 1; 10]; [20; 30; 40]]
          default_thresholds 15 = Some st ∧
        flatPercent st + moderatePercent st + steepPercent st
          + verySteepPercent st = 100 ∧
        unbuildablePercent st = steepPercent st + verySteepPercent st.
Proof.
  split; [exact default_thresholds_ordered|].
  split; [exact valid_cells_example|].
  destruct (slope_percentages_partition [[-9999; 1; 10]; [20; 30; 40]]
              default_thresholds 15 default_thresholds_ordered
              valid_cells_example)
    as (st & Hst & Hsum & _ & _ & _ & _ & _ & Hun).
  exists st. split; [exact Hst|]. split; [exact Hsum|].
  apply Hun. reflexivity.
Defined.

Lemma slope_maximum_helper (slope : grid) (th : thresholds)
    (max_buildable_slope : R) :
  valid_cells slope ≠ [] →
  (∀ s, s ∈ valid_cells slope → 0 <= s) →
  ∃ st, calculate_slope_statistics slope th max_buildable_slope = Some st ∧
    meanSlope st <= maxSlope st ∧ 0 <= meanSlope st.
Proof.
  intros Hne Hpos. unfold calculate_slope_statistics.
  destruct (valid_cells slope) as [|v0 rest] eqn:Hvalid; [done|].
  eexists. split; [reflexivity|]. cbn [maxSlope meanSlope]. split.
  - apply mean_le_max; [done|]. intros s. apply fold_left_Rmax_upper.
  - by apply mean_ge_min.
Qed.

(** X4: the maximum slope is the slope of a valid cell and bounds all of
    them, the mean does not exceed it, and the unbuildable percentage is 0
    exactly when the maximum does not exceed the buildable limit. *)
Theorem slope_maximum_spec (slope : grid) (th : thresholds)
    (max_buildable_slope : R) :
  valid_cells slope ≠ [] →
  ∃ st, calculate_slope_statistics slope th max_buildable_slope = Some st ∧
    maxSlope st ∈ valid_cells slope ∧
    (∀ s, s ∈ valid_cells slope → s <= maxSlope st) ∧
    meanSlope st <= maxSlope st ∧
    (unbuildablePercent st = 0 ↔ maxSlope st <= max_buildable_slope).
Proof.
  intros Hne. unfold calculate_slope_statistics.
  destruct (valid_cells slope) as [|v0 rest] eqn:Hvalid; [done|].
  eexists. split; [reflexivity|].
  cbn [maxSlope meanSlope unbuildablePercent].
  split; [apply fold_left_Rmax_in|].
  split; [intros s; apply fold_left_Rmax_upper|].
  split.
  { apply mean_le_max; [done|]. intros s. apply fold_left_Rmax_upper. }
  rewrite percent_of_0 by (simpl; lia). rewrite count_where_0. split.
  - intros H. apply fold_left_Rmax_lub. intros s Hs.
    specialize (H s Hs). lra.
  - intros H s Hs.
    pose proof (fold_left_Rmax_upper rest v0 s Hs). lra.
Qed.

Lemma slope_maximum_spec_witness :
  valid_cells [[-9999; 1; 10]; [20; 30; 40]] ≠ [] ∧
  ∃ st, calculate_slope_statistics [[-9999; 1; 10]; [20; 30; 40]]
          default_thresholds 15 = Some st ∧
        meanSlope st <= maxSlope st.
Proof.
  split; [exact valid_cells_example|].
  destruct (slope_maximum_spec [[-9999; 1; 10]; [20; 30; 40]]
              default_thresholds 15 valid_cells_example)
    as (st & Hst & _ & _ & Hmean & _).
  exists st. split; [exact Hst | exact Hmean].
Defined.

End SlopeDistribution.

(** ** Facing areas and unbuildable areas against the statistics *)

Section AreaMasksProperties.

Import AspectOps AreaMasks.

Lemma mask_sum_count {A : Type} (f : A → nat) (P : A → Prop)
    `{!∀ x, Decision (P x)} (a : list (list A)) :
  (∀ x, f x = if decide (P x) then 1%nat else 0%nat) →
  mask_sum (map (map f) a) = length (filter P (concat a)).
Proof.
  intros Hf. unfold mask_sum. rewrite <- concat_map.
  induction (concat a) as [|x l IH]; [reflexivity|].
  simpl. rewrite filter_cons, IH, Hf. by destruct (decide (P x)).
Qed.

Lemma filter_length_le {A : Type} (P Q : A → Prop) `{!∀ x, Decision (P x)}
    `{!∀ x, Decision (Q x)} (l : list A) :
  (∀ x, P x → Q x) → (length (filter P l) <= length (filter Q l))%nat.
Proof.
  intros HPQ. induction l as [|x l IH]; [reflexivity|].
  rewrite !filter_cons.
  destruct (decide (P x)) as [HP|HP], (decide (Q x)) as [HQ|HQ]; simpl;
    [lia | by destruct HQ; apply HPQ | lia | lia].
Qed.

Lemma north_facing_cell_class (angle : R) :
  north_facing_cell angle = 1%nat → north_class (classify_angle angle) = true.
Proof.
  unfold north_facing_cell, classify_angle, north_class.
  unfold D_FLAT, D_N, D_NE, D_E, D_SE, D_S, D_SW, D_W, D_NW.
  intros H. apply bool_decide_eq_true.
  repeat case_decide; try discriminate; try lia; exfalso; intuition lra.
Qed.

Lemma south_facing_cell_class (angle : R) :
  south_facing_cell angle = 1%nat → south_class (classify_angle angle) = true.
Proof.
  unfold south_facing_cell, classify_angle, south_class.
  unfold D_FLAT, D_N, D_NE, D_E, D_SE, D_S, D_SW, D_W, D_NW.
  intros H. apply bool_decide_eq_true.
  repeat case_decide; try discriminate; try lia; exfalso; intuition lra.
Qed.

(** X5: a cell marked north-facing by [identify_facing_areas] (bearing
    within 45 degrees of north) is of class N, NE or NW, and a cell marked
    south-facing is of class S, SE or SW; no cell is marked both ways and a
    flat cell is marked neither way. The converse fails: the bearings from 45
    to 67.5 and from 292.5 to 315 are of class NE and NW but are not marked
    north-facing, and likewise from 112.5 to 135 and from 225 to 247.5 for
    the south. *)
Theorem facing_cells_spec (angle : R) :
  (north_facing_cell angle = 1%nat → north_class (classify_angle angle) = true) ∧
  (south_facing_cell angle = 1%nat → south_class (classify_angle angle) = true) ∧
  ¬ (north_facing_cell angle = 1%nat ∧ south_facing_cell angle = 1%nat) ∧
  (angle < 0 →
   north_facing_cell angle = 0%nat ∧ south_facing_cell angle = 0%nat) ∧
  (45 <= angle < 67.5 ∨ 292.5 <= angle < 315 →
   north_class (classify_angle angle) = true ∧
   north_facing_cell angle = 0%nat) ∧
  (112.5 <= angle < 135 ∨ 225 <= angle < 247.5 →
   south_class (classify_angle angle) = true ∧
   south_facing_cell angle = 0%nat).
Proof.
  split; [apply north_facing_cell_class|].
  split; [apply south_facing_cell_class|].
  unfold north_facing_cell, south_facing_cell, classify_angle, north_class,
    south_class.
  unfold D_FLAT, D_N, D_NE, D_E, D_SE, D_S, D_SW, D_W, D_NW.
  repeat split; try (intros [H1 H2]; revert H1 H2); try intros H;
    try apply bool_decide_eq_true;
    repeat case_decide; try discriminate; try reflexivity; try lia;
    try (exfalso; intuition lra); intuition (try discriminate; try lia).
Qed.

Lemma facing_cells_spec_witness :
  north_class (classify_angle 50) = true ∧ north_facing_cell 50 = 0%nat.
Proof.
  pose proof (facing_cells_spec 50) as (_ & _ & _ & _ & H & _).
  apply H. left. lra.
Defined.

(** X6: the share of the cells in the north-facing mask does not exceed the
    north-facing percentage of the statistics, and likewise for the
    south. *)
Theorem facing_areas_within_statistics (aspect : grid) :
  concat aspect ≠ [] →
  ∃ st, calculate_aspect_statistics aspect = Some st ∧
    SlopeOps.percent_of (mask_sum (north_facing_mask aspect))
                        (length (concat aspect))
      <= northFacingPercent st ∧
    SlopeOps.percent_of (mask_sum (south_facing_mask aspect))
                        (length (concat aspect))
      <= southFacingPercent st.
Proof.
  intros Hne. unfold calculate_aspect_statistics.
  pose proof (count_angle_loop (concat aspect) zero_counts [])
    as (_ & Hn & Hs & _).
  destruct (fold_left count_angle (concat aspect) (zero_counts, []))
    as [c valid] eqn:Hfold.
  simpl in Hn, Hs.
  case_decide as Hlen; [by apply length_zero_iff_nil in Hlen|].
  eexists. split; [reflexivity|].
  cbn [northFacingPercent southFacingPercent]. rewrite Hn, Hs.
  unfold north_facing_mask, south_facing_mask.
  rewrite (mask_sum_count north_facing_cell
             (λ a, north_facing_cell a = 1%nat)),
          (mask_sum_count south_facing_cell
             (λ a, south_facing_cell a = 1%nat)).
  2:{ intros x. case_decide as Hx; [done|].
      unfold south_facing_cell in *. repeat case_decide; done. }
  2:{ intros x. case_decide as Hx; [done|].
      unfold north_facing_cell in *. repeat case_decide; done. }
  assert (Hpos : 0 < INR (length (concat aspect))).
  { apply lt_0_INR. lia. }
  assert (Hmono : ∀ a b : nat, (a <= b)%nat →
            SlopeOps.percent_of a (length (concat aspect))
            <= INR b / INR (length (concat aspect)) * 100).
  { intros a b Hab. apply le_INR in Hab. unfold SlopeOps.percent_of.
    apply Rmult_le_compat_r; [lra|].
    apply Rmult_le_compat_r; [|exact Hab].
    left. by apply Rinv_0_lt_compat. }
  split; apply Hmono, filter_length_le.
  - apply north_facing_cell_class.
  - apply south_facing_cell_class.
Qed.

Lemma facing_areas_within_statistics_witness :
  concat [[-1; 10]; [50; 200]] ≠ [] ∧
  ∃ st, calculate_aspect_statistics [[-1; 10]; [50; 200]] = Some st ∧
    SlopeOps.percent_of (mask_sum (north_facing_mask [[-1; 10]; [50; 200]]))
                        (length (concat [[-1; 10]; [50; 200]]))
      <= northFacingPercent st.
Proof.
  assert (Hne : concat [[-1; 10]; [50; 200]] ≠ []) by discriminate.
  split; [exact Hne|].
  destruct (facing_areas_within_statistics [[-1; 10]; [50; 200]] Hne)
    as (st & Hst & Hn & _).
  exists st. split; [exact Hst | exact Hn].
Defined.

(** X7: the cells counted by the mask of [identify_unbuildable_areas] are
    the valid cells counted as unbuildable by the statistics, together with
    the no-data cells when the buildable limit is below the no-data value; so
    for a limit of at least -9999 the mask is empty exactly when the
    unbuildable percentage is 0. *)
Theorem unbuildable_mask_count (slope : grid) (th : SlopeOps.thresholds)
    (max_buildable_slope : R) :
  SlopeOps.valid_cells slope ≠ [] →
  ∃ st, SlopeOps.calculate_slope_statistics slope th max_buildable_slope
          = Some st ∧
    mask_sum (unbuildable_mask slope max_buildable_slope)
      = (SlopeOps.count_where (λ s, (max_buildable_slope < s)%R)
           (SlopeOps.valid_cells slope)
         + if decide (max_buildable_slope < SlopeOps.SLOPE_NODATA)%R
           then nodata_cells slope else 0)%nat ∧
    (SlopeOps.SLOPE_NODATA <= max_buildable_slope →
     SlopeOps.unbuildablePercent st
       = SlopeOps.percent_of
           (mask_sum (unbuildable_mask slope max_buildable_slope))
           (length (SlopeOps.valid_cells slope)) ∧
     (mask_sum (unbuildable_mask slope max_buildable_slope) = 0%nat ↔
      SlopeOps.unbuildablePercent st = 0)).
Proof.
  intros Hne.
  assert (Hcount :
    mask_sum (unbuildable_mask slope max_buildable_slope)
    = (SlopeOps.count_where (λ s, (max_buildable_slope < s)%R)
         (SlopeOps.valid_cells slope)
       + if decide (max_buildable_slope < SlopeOps.SLOPE_NODATA)%R
         then nodata_cells slope else 0)%nat).
  { unfold unbuildable_mask.
    rewrite (mask_sum_count _ (λ s, s > max_buildable_slope))
      by (intros; repeat case_decide; done).
    unfold SlopeOps.count_where, SlopeOps.valid_cells, nodata_cells.
    induction (concat slope) as [|x l IH]; [by case_decide|].
    rewrite !filter_cons. unfold SlopeOps.SLOPE_NODATA in *.
    repeat (case_decide; simpl; rewrite ?filter_cons); simpl; try lia;
      exfalso;
      repeat match goal with
             | H : ¬ (_ ≠ _) |- _ => apply dec_stable in H
             end;
      first [lra | congruence | subst; lra]. }
  unfold SlopeOps.calculate_slope_statistics.
  destruct (SlopeOps.valid_cells slope) as [|v0 rest] eqn:Hvalid; [done|].
  eexists. split; [reflexivity|]. split; [exact Hcount|].
  intros Hmb. cbn [SlopeOps.unbuildablePercent].
  rewrite Hcount. rewrite decide_False by lra. rewrite Nat.add_0_r.
  split; [reflexivity|].
  rewrite percent_of_0 by (simpl; lia). reflexivity.
Qed.

Lemma unbuildable_mask_count_witness :
  SlopeOps.valid_cells [[-9999; 1; 10]; [20; 30; 40]] ≠ [] ∧
  ∃ st, SlopeOps.calculate_slope_statistics [[-9999; 1; 10]; [20; 30; 40]]
          default_thresholds 15 = Some st ∧
    (mask_sum (unbuildable_mask [[-9999; 1; 10]; [20; 30; 40]] 15) = 0%nat ↔
     SlopeOps.unbuildablePercent st = 0).
Proof.
  split; [exact valid_cells_example|].
  destruct (unbuildable_mask_count [[-9999; 1; 10]; [20; 30; 40]]
              default_thresholds 15 valid_cells_example)
    as (st & Hst & _ & Hzero).
  exists st. split; [exact Hst|].
  apply Hzero. unfold SlopeOps.SLOPE_NODATA. lra.
Defined.

End AreaMasksProperties.
(** ** Border cells of the slope raster *)

Section BorderCopies.

Lemma copy_row_lookup2 (h w : nat) (a a' : grid) (k j : Z) (kk jj : nat) :
  has_shape h w a → py_index h k = Some kk → py_index h j = Some jj →
  copy_row a k j = Some a' →
  has_shape h w a' ∧
  ∀ y x, lookup2 a' y x = lookup2 a (if decide (y = jj) then kk else y) x.
Proof.
  intros [Hlen Hrows] Hk Hj. unfold copy_row, get_row, set_row.
  rewrite Hlen, Hk. simpl.
  destruct (a !! kk) as [r|] eqn:Hr; [|done]. simpl. rewrite Hj. simpl.
  intros [= <-]. pose proof (py_index_lt _ _ _ Hj) as Hjj. split.
  - split; [by rewrite length_insert|].
    apply Forall_insert; [done|].
    by apply (Forall_lookup_1 _ _ _ _ Hrows Hr).
  - intros y x. unfold lookup2. case_decide as Hy.
    + subst y. rewrite list_lookup_insert_eq by lia. by rewrite Hr.
    + by rewrite list_lookup_insert_ne.
Qed.

Lemma copy_column_lookup2 (h w : nat) (a a' : grid) (k j : Z) (kk jj : nat) :
  has_shape h w a → py_index w k = Some kk → py_index w j = Some jj →
  copy_column a k j = Some a' →
  has_shape h w a' ∧
  ∀ y x, lookup2 a' y x = lookup2 a y (if decide (x = jj) then kk else x).
Proof.
  intros [Hlen Hrows] Hk Hj. unfold copy_column. rewrite mapM_Some.
  intros Hall. pose proof (py_index_lt _ _ _ Hj) as Hjj.
  assert (Hrow : ∀ y row row', a !! y = Some row → a' !! y = Some row' →
            length row = w ∧ ∃ v, row !! kk = Some v ∧ row' = <[jj := v]> row).
  { intros y row row' Hy Hy'.
    pose proof (Forall_lookup_1 _ _ _ _ Hrows Hy) as Hw. simpl in Hw.
    split; [exact Hw|].
    pose proof (Forall2_lookup_lr _ _ _ _ _ _ Hall Hy Hy') as Hc.
    unfold copy_entry in Hc. rewrite Hw, Hk in Hc. simpl in Hc.
    destruct (row !! kk) as [v|]; [|done]. simpl in Hc.
    rewrite Hj in Hc. simpl in Hc. injection Hc as <-. by exists v. }
  split.
  - split; [by rewrite <- (Forall2_length _ _ _ Hall)|].
    apply Forall_lookup_2. intros y row' Hy'.
    destruct (Forall2_lookup_r _ _ _ _ _ Hall Hy') as (row & Hy & _).
    destruct (Hrow y row row' Hy Hy') as (Hw & v & _ & ->).
    by rewrite length_insert.
  - intros y x. unfold lookup2.
    destruct (a !! y) as [row|] eqn:Hy.
    + destruct (Forall2_lookup_l _ _ _ _ _ Hall Hy) as (row' & Hy' & _).
      rewrite Hy'. simpl.
      destruct (Hrow y row row' Hy Hy') as (Hw & v & Hv & ->).
      case_decide as Hx.
      * subst x. rewrite list_lookup_insert_eq by lia. by rewrite Hv.
      * by rewrite list_lookup_insert_ne.
    + destruct (a' !! y) as [row'|] eqn:Hy'; [|done].
      destruct (Forall2_lookup_r _ _ _ _ _ Hall Hy') as (row & Hy2 & _).
      congruence.
Qed.

Lemma py_index_nat (len i : nat) :
  (i < len)%nat → py_index len (Z.of_nat i) = Some i.
Proof.
  intros Hi. unfold py_index. rewrite decide_True by lia.
  by rewrite Nat2Z.id.
Qed.

Lemma py_index_from_end (len : nat) (k : Z) :
  (1 <= k <= Z.of_nat len)%Z →
  py_index len (Z.of_nat len - k) = Some (len - Z.to_nat k)%nat.
Proof.
  intros Hk. unfold py_index. rewrite decide_True by lia. f_equal. lia.
Qed.

Lemma py_index_None (len : nat) (i : Z) :
  (Z.of_nat len <= i)%Z → py_index len i = None.
Proof.
  intros Hi. unfold py_index.
  rewrite decide_False by lia. by rewrite decide_False by lia.
Qed.

Lemma nearest_interior_spec (n i : nat) :
  (3 <= n)%nat → (i < n)%nat →
  (1 <= nearest_interior n i ∧ nearest_interior n i + 1 < n)%nat ∧
  nearest_interior n i
  = (if decide (i = 0%nat) then 1
     else if decide (i = n - 1) then n - 2 else i)%nat.
Proof. unfold nearest_interior. intros. repeat case_decide; lia. Qed.

End BorderCopies.

Section SlopeBorder.

Variable gaussian_filter : R → grid → grid.

Hypothesis gaussian_filter_shape :
  ∀ sigma h w a, has_shape h w a → has_shape h w (gaussian_filter sigma a).

Local Abbreviation calculate_slope := (SlopeOps.calculate_slope gaussian_filter).
Local Abbreviation slope_interior := (SlopeOps.slope_interior gaussian_filter).
Local Abbreviation read_elevation := (SlopeOps.read_elevation gaussian_filter).

Lemma slope_interior_lookup (ds : dataset) (smoothing_enabled : bool) (k : Z)
    (y x : nat) :
  well_formed ds → (y < RasterYSize ds)%nat → (x < RasterXSize ds)%nat →
  let e := read_elevation ds smoothing_enabled k in
  lookup2 (slope_interior ds smoothing_enabled k) y x =
  Some (if decide (interior (RasterYSize ds) (RasterXSize ds) y x)
        then SlopeOps.slope_percent
               (SlopeOps.dz_dx e (SlopeOps.cell_size_x_m ds) y x)
               (SlopeOps.dz_dy e (SlopeOps.cell_size_y_m ds) y x)
        else 0).
Proof.
  intros Hwf Hy Hx. cbv zeta. unfold SlopeOps.slope_interior.
  rewrite fill_interior_lookup.
  pose proof (zeros_like_shape _ _ _
                (read_elevation_shape gaussian_filter gaussian_filter_shape
                   ds smoothing_enabled k Hwf)) as Hz.
  destruct (has_shape_lookup2 _ _ _ y x Hz Hy Hx) as [v Hv].
  rewrite Hv. simpl. case_decide; [done|]. f_equal.
  assert (Hall : all_cells (λ v, v = 0)
            (map (map (λ _ : R, 0)) (read_elevation ds smoothing_enabled k))).
  { by apply zeros_like_all. }
  exact (all_cells_lookup2 _ _ _ _ _ Hall Hv).
Qed.

(** X8: on a raster of at least three rows and three columns every cell of
    the slope raster carries the slope of the nearest interior cell: the
    interior cells their own, the border cells that of the neighbour one step
    inside, and the corners that of the diagonal neighbour. *)
Theorem calculate_slope_border (ds : dataset) (smoothing_enabled : bool)
    (k : Z) (slope : grid) (y x : nat) :
  well_formed ds → (3 <= RasterYSize ds)%nat → (3 <= RasterXSize ds)%nat →
  calculate_slope ds smoothing_enabled k = Some slope →
  (y < RasterYSize ds)%nat → (x < RasterXSize ds)%nat →
  let e := read_elevation ds smoothing_enabled k in
  let y' := nearest_interior (RasterYSize ds) y in
  let x' := nearest_interior (RasterXSize ds) x in
  interior (RasterYSize ds) (RasterXSize ds) y' x' ∧
  lookup2 slope y x =
  Some (SlopeOps.slope_percent
          (SlopeOps.dz_dx e (SlopeOps.cell_size_x_m ds) y' x')
          (SlopeOps.dz_dy e (SlopeOps.cell_size_y_m ds) y' x')).
Proof.
  intros Hwf Hh Hw Hslope Hy Hx. cbv zeta.
  pose proof (nearest_interior_spec _ _ Hh Hy) as [Hyi Hy'].
  pose proof (nearest_interior_spec _ _ Hw Hx) as [Hxi Hx'].
  assert (Hint : interior (RasterYSize ds) (RasterXSize ds)
                   (nearest_interior (RasterYSize ds) y)
                   (nearest_interior (RasterXSize ds) x)).
  { unfold interior. lia. }
  split; [exact Hint|].
  revert Hslope. unfold SlopeOps.calculate_slope. cbv zeta.
  pose proof (slope_interior_shape gaussian_filter gaussian_filter_shape
                ds smoothing_enabled k Hwf) as Hs0.
  pose proof (λ y x, slope_interior_lookup ds smoothing_enabled k y x Hwf)
    as Hlook. cbv zeta in Hlook.
  set (s0 := SlopeOps.slope_interior gaussian_filter ds smoothing_enabled k)
    in *.
  set (h := RasterYSize ds) in *. set (w := RasterXSize ds) in *.
  destruct (copy_row s0 1 0) as [s1|] eqn:H1; [|discriminate]. simpl.
  destruct (copy_row s1 _ _) as [s2|] eqn:H2; [|discriminate]. simpl.
  destruct (copy_column s2 1 0) as [s3|] eqn:H3; [|discriminate]. simpl.
  intros H4.
  destruct (copy_row_lookup2 h w s0 s1 1 0 1 0 Hs0) as [Hs1 L1];
    [apply (py_index_nat h 1); lia | apply (py_index_nat h 0); lia
    | exact H1 |].
  destruct (copy_row_lookup2 h w s1 s2 (Z.of_nat h - 2) (Z.of_nat h - 1)
              (h - 2) (h - 1) Hs1) as [Hs2 L2];
    [apply (py_index_from_end h 2); lia | apply (py_index_from_end h 1); lia
    | exact H2 |].
  destruct (copy_column_lookup2 h w s2 s3 1 0 1 0 Hs2) as [Hs3 L3];
    [apply (py_index_nat w 1); lia | apply (py_index_nat w 0); lia
    | exact H3 |].
  destruct (copy_column_lookup2 h w s3 slope (Z.of_nat w - 2) (Z.of_nat w - 1)
              (w - 2) (w - 1) Hs3) as [_ L4];
    [apply (py_index_from_end w 2); lia | apply (py_index_from_end w 1); lia
    | exact H4 |].
  rewrite L4, L3, L2, L1.
  match goal with
  | |- lookup2 s0 ?a ?b = _ =>
      assert (Ha : a = nearest_interior h y)
        by (rewrite Hy'; repeat case_decide; lia);
      assert (Hb : b = nearest_interior w x)
        by (rewrite Hx'; repeat case_decide; lia);
      rewrite Ha, Hb
  end.
  rewrite Hlook by lia. by rewrite decide_True.
Qed.

(** X9: [calculate_slope] raises exactly on a raster of fewer than two rows
    or two columns, and on a raster of two rows or two columns, which has no
    interior cell, the slope is 0 everywhere. *)
Theorem calculate_slope_small (ds : dataset) (smoothing_enabled : bool)
    (k : Z) :
  well_formed ds →
  (calculate_slope ds smoothing_enabled k = None ↔
   (RasterYSize ds < 2 ∨ RasterXSize ds < 2)%nat) ∧
  (∀ slope, calculate_slope ds smoothing_enabled k = Some slope →
     (RasterYSize ds < 3 ∨ RasterXSize ds < 3)%nat → uniform 0 slope).
Proof.
  intros Hwf. split.
  - split.
    + intros Hnone.
      destruct (decide (2 <= RasterYSize ds)%nat) as [Hh|Hh]; [|lia].
      destruct (decide (2 <= RasterXSize ds)%nat) as [Hw|Hw]; [|lia].
      destruct (calculate_slope_total gaussian_filter gaussian_filter_shape
                  ds smoothing_enabled k Hwf Hh Hw) as [s Hs].
      congruence.
    + intros Hsmall. unfold SlopeOps.calculate_slope. cbv zeta.
      pose proof (slope_interior_shape gaussian_filter gaussian_filter_shape
                    ds smoothing_enabled k Hwf) as Hs0.
      set (s0 := SlopeOps.slope_interior gaussian_filter ds smoothing_enabled k)
        in *.
      set (h := RasterYSize ds) in *. set (w := RasterXSize ds) in *.
      destruct (decide (h < 2)%nat) as [Hh|Hh].
      { assert (Hc : copy_row s0 1 0 = None).
        { unfold copy_row, get_row. destruct Hs0 as [Hlen _].
          rewrite Hlen. by rewrite (py_index_None h 1) by lia. }
        by rewrite Hc. }
      destruct (copy_row s0 1 0) as [s1|] eqn:H1; [|done]. simpl.
      destruct (copy_row s1 _ _) as [s2|] eqn:H2; [|done]. simpl.
      assert (Hs1 : has_shape h w s1).
      { eapply copy_row_edge; [exact Hs0 | by left | exact H1]. }
      assert (Hs2 : has_shape h w s2).
      { eapply copy_row_edge; [exact Hs1 | by right | exact H2]. }
      assert (Hc : copy_column s2 1 0 = None).
      { destruct (copy_column s2 1 0) as [s3|] eqn:H3; [|done]. exfalso.
        revert H3. unfold copy_column. rewrite mapM_Some. intros Hall.
        destruct s2 as [|row s2]; [destruct Hs2 as [Hl _]; simpl in Hl; lia|].
        apply Forall2_cons_inv_l in Hall as (row' & s3' & Hrow & _ & _).
        destruct Hs2 as [_ Hrows]. apply Forall_cons in Hrows as [Hlen _].
        unfold copy_entry in Hrow. simpl in Hlen. rewrite Hlen in Hrow.
        by rewrite (py_index_None w 1) in Hrow by lia. }
      by rewrite Hc.
  - intros slope Hslope Hsmall.
    pose proof (calculate_slope_edge gaussian_filter gaussian_filter_shape
                  ds smoothing_enabled k slope Hwf Hslope) as (_ & Hall & _).
    apply Hall. unfold SlopeOps.slope_interior.
    apply fill_interior_all; [by apply zeros_like_all|].
    unfold interior. intros y' x' Hi. lia.
Qed.

End SlopeBorder.

Section SlopeBorderExamples.

Lemma calculate_slope_border_witness :
  ∃ slope, SlopeOps.calculate_slope no_filter ramp3 false 3 = Some slope ∧
    lookup2 slope 0 0 =
    Some (SlopeOps.slope_percent
            (SlopeOps.dz_dx (ReadAsArray ramp3) (SlopeOps.cell_size_x_m ramp3) 1 1)
            (SlopeOps.dz_dy (ReadAsArray ramp3) (SlopeOps.cell_size_y_m ramp3) 1 1)).
Proof.
  destruct (calculate_slope_total no_filter no_filter_shape ramp3 false 3
              ramp3_well_formed) as [slope Hslope]; [simpl; lia | simpl; lia |].
  exists slope. split; [exact Hslope|].
  apply (calculate_slope_border no_filter no_filter_shape ramp3 false 3 slope
           0 0 ramp3_well_formed); [simpl; lia | simpl; lia | exact Hslope
           | simpl; lia | simpl; lia].
Defined.

Lemma calculate_slope_small_witness :
  ∃ slope, SlopeOps.calculate_slope no_filter plateau2 false 3 = Some slope ∧
    uniform 0 slope.
Proof.
  destruct (calculate_slope_total no_filter no_filter_shape plateau2 false 3
              plateau2_well_formed) as [slope Hslope];
    [simpl; lia | simpl; lia |].
  exists slope. split; [exact Hslope|].
  destruct (calculate_slope_small no_filter no_filter_shape plateau2 false 3
              plateau2_well_formed) as [_ Hzero].
  apply (Hzero slope Hslope). left. simpl. lia.
Defined.

End SlopeBorderExamples.
(** ** Great-circle distance and interpolation along a line *)

Section Haversine.

Import ProfileOps.

Lemma atan2_quadrant (y x : R) : 0 <= y → 0 <= x → 0 <= atan2 y x <= PI / 2.
Proof.
  intros Hy Hx. split; [by apply atan2_nonneg|].
  unfold atan2. pose proof PI_RGT_0.
  repeat case_decide; try lra.
  pose proof (atan_bound (y / x)). lra.
Qed.

(** X10: the great-circle distance is symmetric in its two points, is 0 from
    a point to itself and lies between 0 and half the circumference of the
    sphere of radius 6371000 m. *)
Theorem haversine_distance_metric (lat1 lng1 lat2 lng2 : R) :
  haversine_distance lat1 lng1 lat2 lng2
    = haversine_distance lat2 lng2 lat1 lng1 ∧
  haversine_distance lat1 lng1 lat1 lng1 = 0 ∧
  0 <= haversine_distance lat1 lng1 lat2 lng2 <= PI * 6371000.
Proof.
  split; [|split].
  - unfold haversine_distance. cbv zeta.
    replace (radians (lat2 - lat1) / 2)
      with (- (radians (lat1 - lat2) / 2)) by (unfold radians; field).
    replace (radians (lng2 - lng1) / 2)
      with (- (radians (lng1 - lng2) / 2)) by (unfold radians; field).
    rewrite !sin_neg.
    replace ((- sin (radians (lat1 - lat2) / 2)) ^ 2
             + cos (radians lat1) * cos (radians lat2)
               * (- sin (radians (lng1 - lng2) / 2)) ^ 2)
      with (sin (radians (lat1 - lat2) / 2) ^ 2
            + cos (radians lat2) * cos (radians lat1)
              * sin (radians (lng1 - lng2) / 2) ^ 2) by ring.
    reflexivity.
  - unfold haversine_distance. cbv zeta.
    replace (radians (lat1 - lat1) / 2) with 0 by (unfold radians; field).
    replace (radians (lng1 - lng1) / 2) with 0 by (unfold radians; field).
    rewrite sin_0.
    replace (0 ^ 2 + cos (radians lat1) * cos (radians lat1) * 0 ^ 2)
      with 0 by ring.
    rewrite sqrt_0, Rminus_0_r, sqrt_1, atan2_0_pos by lra. ring.
  - unfold haversine_distance. cbv zeta.
    match goal with |- context [atan2 ?y ?x] =>
      pose proof (atan2_quadrant y x (sqrt_pos _) (sqrt_pos _)) end.
    lra.
Qed.

End Haversine.

Section Interpolation.

Import ProfileOps.

(** X11: [interpolate_point_on_line] raises on an empty line; for a distance
    that is not negative it returns a point of one of the segments of the
    line or its last vertex, never a point beyond a segment: the first vertex
    at distance 0 and the last vertex at every distance beyond the length of
    the line. *)
Theorem interpolate_point_on_line_spec (coords : list (R * R))
    (distance_along total_distance : R) :
  (coords = [] →
   interpolate_point_on_line coords distance_along total_distance = None) ∧
  (coords ≠ [] → 0 <= distance_along →
   ∃ p, interpolate_point_on_line coords distance_along total_distance
          = Some p ∧
     (last coords = Some p ∨
      ∃ i a b, coords !! i = Some a ∧ coords !! S i = Some b ∧
               on_segment p a b) ∧
     (calculate_line_length coords < distance_along → last coords = Some p) ∧
     (distance_along = 0 → head coords = Some p)).
Proof.
  split; [by intros ->|].
  intros Hne Hd. unfold interpolate_point_on_line, calculate_line_length.
  pose proof (walk_segments_spec coords 0 distance_along Hd) as Hwalk.
  destruct (walk_segments coords 0 distance_along) as [p|] eqn:Hw.
  - destruct Hwalk as (Hlen & Hseg). exists p.
    split; [reflexivity|]. split; [by right|]. split; [lra|].
    intros ->. destruct coords as [|[lng1 lat1] rest]; [done|].
    cbn [walk_segments] in Hw.
    destruct rest as [|[lng2 lat2] rest']; [done|].
    pose proof (haversine_distance_nonneg lat1 lng1 lat2 lng2).
    rewrite decide_True in Hw by lra. injection Hw as <-.
    simpl. f_equal. apply (f_equal2 pair); case_decide; unfold Rdiv; ring.
  - destruct (last coords) as [p|] eqn:Hlast.
    2:{ apply last_None in Hlast. done. }
    exists p. split; [reflexivity|]. split; [by left|].
    split; [done|]. intros ->.
    destruct Hwalk as [Hshort|Hlt].
    + destruct coords as [|q [|? ?]]; [done| |simpl in Hshort; lia].
      simpl in *. congruence.
    + pose proof (line_length_from_ge coords 0). lra.
Qed.

Lemma interpolate_point_on_line_spec_witness :
  ∃ p, interpolate_point_on_line line_1000m 0 1000 = Some p ∧
       head line_1000m = Some p.
Proof.
  destruct (interpolate_point_on_line_spec line_1000m 0 1000) as [_ H].
  destruct H as (p & Hp & _ & _ & Hhead); [discriminate | lra |].
  exists p. split; [exact Hp | by apply Hhead].
Defined.

End Interpolation.

(** ** Bilinear sampling of the DEM *)

Section Bilinear.

Import ProfileOps.

Lemma round_half_even_near (x : R) :
  round_half_even x = floor x ∨ round_half_even x = (floor x + 1)%Z.
Proof.
  unfold round_half_even. cbv zeta.
  repeat case_decide; try destruct (Z.even (floor x)); auto.
Qed.

Lemma round_half_even_IZR (z : Z) : round_half_even (IZR z) = z.
Proof.
  unfold round_half_even. cbv zeta. rewrite floor_IZR.
  rewrite decide_True by lra. reflexivity.
Qed.

Lemma convex_bounds (lo hi a b t : R) :
  lo <= a <= hi → lo <= b <= hi → 0 <= t <= 1 →
  lo <= a * (1 - t) + b * t <= hi.
Proof.
  intros Ha Hb Ht.
  pose proof (Rmult_le_pos (a - lo) (1 - t) ltac:(lra) ltac:(lra)).
  pose proof (Rmult_le_pos (b - lo) t ltac:(lra) ltac:(lra)).
  pose proof (Rmult_le_pos (hi - a) (1 - t) ltac:(lra) ltac:(lra)).
  pose proof (Rmult_le_pos (hi - b) t ltac:(lra) ltac:(lra)).
  lra.
Qed.

(** X12: [bilinear_interpolation] raises exactly for the pixel coordinates
    outside [0, width - 1) by [0, height - 1), so that a point on the last
    row or column of the DEM is rejected; a value it returns lies within
    every bound that holds of all cells of the DEM; at a pixel with integer
    coordinates it returns the cell itself; and when the cell nearest to the
    point holds the no-data value, that value is what it returns. *)
Theorem bilinear_interpolation_spec (data : grid) (h w : nat)
    (x y nodata : R) :
  has_shape h w data → (1 <= h)%nat →
  (bilinear_interpolation data x y nodata = None ↔
   x < 0 ∨ INR w - 1 <= x ∨ y < 0 ∨ INR h - 1 <= y) ∧
  (∀ lo hi z, all_cells (λ v, lo <= v <= hi) data →
     bilinear_interpolation data x y nodata = Some z → lo <= z <= hi) ∧
  (∀ i j, (i + 1 < w)%nat → (j + 1 < h)%nat → x = INR i → y = INR j →
     bilinear_interpolation data x y nodata = Some (cell data j i)) ∧
  (∀ z, bilinear_interpolation data x y nodata = Some z →
     cell data (Z.to_nat (round_half_even y)) (Z.to_nat (round_half_even x))
       = nodata →
     z = nodata).
Proof.
  intros Hshape Hh. unfold bilinear_interpolation.
  rewrite (shape_has_shape h w data Hshape Hh). cbv zeta.
  pose proof (floor_neg_iff x) as Hx0. pose proof (floor_neg_iff y) as Hy0.
  pose proof (floor_succ_ge_iff x (Z.of_nat w)) as Hx1.
  pose proof (floor_succ_ge_iff y (Z.of_nat h)) as Hy1.
  rewrite <- !INR_IZR_INZ in Hx1, Hy1.
  split; [|split; [|split]].
  - case_decide as Hout.
    + split; [intros _; tauto | done].
    + split; [by case_decide | intros Hdom; tauto].
  - intros lo hi z Hall. case_decide as Hout; [done|].
    assert (Hx : (0 <= floor x ∧ floor x + 1 < Z.of_nat w)%Z) by lia.
    assert (Hy : (0 <= floor y ∧ floor y + 1 < Z.of_nat h)%Z) by lia.
    assert (Hcell : ∀ r c, (0 <= r < Z.of_nat h)%Z → (0 <= c < Z.of_nat w)%Z →
              lo <= cell data (Z.to_nat r) (Z.to_nat c) <= hi).
    { intros r c Hr Hc.
      apply (cell_in_range (λ v, lo <= v <= hi) h w); [done | done | lia | lia]. }
    case_decide as Hnodata.
    + intros [= <-].
      destruct (round_half_even_near x) as [-> | ->],
               (round_half_even_near y) as [-> | ->]; apply Hcell; lia.
    + intros [= <-].
      destruct (floor_bounds x) as [Hxl Hxh], (floor_bounds y) as [Hyl Hyh].
      apply convex_bounds; [apply convex_bounds| apply convex_bounds |];
        try (apply Hcell; lia); lra.
  - intros i j Hi Hj -> ->.
    rewrite !INR_IZR_INZ, !floor_IZR, !round_half_even_IZR.
    rewrite decide_False by lia. rewrite !Nat2Z.id.
    case_decide as Hnodata; [reflexivity|]. f_equal.
    replace (Z.to_nat (Z.of_nat i + 1)) with (S i) by lia.
    replace (Z.to_nat (Z.of_nat j + 1)) with (S j) by lia.
    ring.
  - intros z. case_decide as Hout; [done|].
    case_decide as Hnodata; [by intros [= <-]|].
    intros _ Hnear. exfalso. apply Hnodata.
    destruct (round_half_even_near x) as [Hrx | Hrx],
             (round_half_even_near y) as [Hry | Hry];
      rewrite Hrx, Hry in Hnear; tauto.
Qed.

Lemma bilinear_interpolation_spec_witness :
  bilinear_interpolation (ReadAsArray ramp3) (INR 1) (INR 1) (-9999)
  = Some (cell (ReadAsArray ramp3) 1 1).
Proof.
  destruct (bilinear_interpolation_spec (ReadAsArray ramp3) 3 3
              (INR 1) (INR 1) (-9999) ramp3_well_formed) as (_ & _ & H & _);
    [lia|].
  apply (H 1%nat 1%nat); [lia | lia | reflexivity | reflexivity].
Defined.

End Bilinear.
(** ** Grades and statistics of a profile *)

Section ProfileBounds.

Import ProfileOps.

Lemma calculate_grades_lookup (pts : list ProfilePoint) :
  pts ≠ [] →
  ∃ pts', calculate_grades pts = Some pts' ∧
    ∀ i, pts' !! i = set_grade (grade_at pts i) <$> pts !! i.
Proof.
  intros Hne.
  assert (Hlen : (1 <= length pts)%nat).
  { destruct pts; [contradiction | simpl; lia]. }
  destruct (grade_loop pts (length pts - 1) 1 pts) as (s' & Hs' & Hl' & Hi');
    [lia | lia | |].
  { intros i. unfold graded_upto. destruct (pts !! i); [|reflexivity]. simpl.
    by rewrite decide_False by lia. }
  replace (1 + (length pts - 1))%nat with (length pts) in Hi' by lia.
  destruct (lookup_lt_is_Some_2 pts 0) as [p0 Hp0]; [lia|].
  assert (Hs0 : s' !! 0%nat = Some p0).
  { rewrite Hi'. unfold graded_upto. rewrite Hp0. simpl.
    repeat case_decide; (reflexivity || lia). }
  unfold calculate_grades. rewrite Hs'. simpl. rewrite Hs0. simpl.
  eexists. split; [reflexivity|]. intros i.
  destruct (decide (i = 0%nat)) as [->|Hi].
  - rewrite list_lookup_insert_eq by lia. by rewrite Hp0.
  - rewrite list_lookup_insert_ne by done. rewrite Hi'. unfold graded_upto.
    destruct (pts !! i) as [curr|] eqn:Hcurr; [|reflexivity]. simpl.
    assert (Hlt : (i < length pts)%nat) by (by eapply lookup_lt_Some).
    rewrite decide_True by lia.
    destruct (lookup_lt_is_Some_2 pts (i - 1)) as [prev Hprev]; [lia|].
    rewrite Hprev. simpl. do 2 f_equal.
    destruct i as [|j]; [done|]. unfold grade_at.
    replace (S j - 1)%nat with j in Hprev by lia.
    by rewrite Hprev, Hcurr.
Qed.

Lemma grade_between_ignores_grades (g g' : R) (prev curr : ProfilePoint) :
  grade_between (set_grade g prev) (set_grade g' curr)
  = grade_between prev curr.
Proof. reflexivity. Qed.

(** X13: [calculate_grades] raises on an empty profile; on any other profile
    it changes nothing but the grades, and running it again on its result
    changes nothing at all. *)
Theorem calculate_grades_idempotent (pts : list ProfilePoint) :
  calculate_grades [] = None ∧
  (pts ≠ [] →
   ∃ pts', calculate_grades pts = Some pts' ∧
     (∀ i, pts' !! i = set_grade (grade_at pts i) <$> pts !! i) ∧
     calculate_grades pts' = Some pts').
Proof.
  split; [reflexivity|]. intros Hne.
  destruct (calculate_grades_lookup pts Hne) as (pts' & Hpts' & Hlook).
  exists pts'. split; [exact Hpts'|]. split; [exact Hlook|].
  assert (Hne' : pts' ≠ []).
  { intros ->. specialize (Hlook 0%nat).
    destruct pts; [done | discriminate]. }
  destruct (calculate_grades_lookup pts' Hne') as (pts'' & Hpts'' & Hlook').
  rewrite Hpts''. f_equal. apply list_eq. intros i.
  rewrite Hlook', Hlook.
  destruct (pts !! i) as [p|] eqn:Hp; [|reflexivity]. simpl. f_equal.
  assert (Hg : grade_at pts' i = grade_at pts i).
  { destruct i as [|j]; [reflexivity|]. unfold grade_at.
    rewrite !Hlook, Hp. by destruct (pts !! j). }
  rewrite Hg. reflexivity.
Qed.

Lemma calculate_grades_idempotent_witness :
  ∃ pts', calculate_grades short_climb = Some pts' ∧
          calculate_grades pts' = Some pts'.
Proof.
  destruct (calculate_grades_idempotent short_climb) as [_ H].
  destruct H as (pts' & H1 & _ & H2); [discriminate|].
  exists pts'. split; [exact H1 | exact H2].
Defined.

(** A loop invariant for the statistics loop. *)
Lemma stat_loop_invariant (pts : list ProfilePoint) (th : R)
    (I : nat → accumulators → Prop) (n a : nat) (acc : accumulators) :
  (1 <= a)%nat → (a + n <= length pts)%nat →
  I a acc →
  (∀ i acc prev curr acc',
     (a <= i < a + n)%nat → I i acc →
     pts !! (i - 1)%nat = Some prev → pts !! i = Some curr →
     stat_step pts th acc i = Some acc' → I (S i) acc') →
  ∃ acc', for_each (seq a n) (stat_step pts th) acc = Some acc' ∧
          I (a + n)%nat acc'.
Proof.
  revert a acc. induction n as [|n IH]; intros a acc Ha Hlen HI Hstep.
  - exists acc. split; [reflexivity|]. by rewrite Nat.add_0_r.
  - cbn [seq for_each].
    destruct (lookup_lt_is_Some_2 pts (a - 1)) as [prev Hprev]; [lia|].
    destruct (lookup_lt_is_Some_2 pts a) as [curr Hcurr]; [lia|].
    destruct (stat_step pts th acc a) as [acc1|] eqn:Hs.
    2:{ unfold stat_step in Hs. rewrite Hprev, Hcurr in Hs. discriminate. }
    simpl.
    destruct (IH (S a) acc1) as (acc' & Hloop & HI'); [lia | lia | | |].
    + eapply Hstep; eauto. lia.
    + intros i acc0 p c acc0' Hi. apply Hstep. lia.
    + exists acc'. split; [exact Hloop|].
      by replace (a + S n)%nat with (S a + n)%nat by lia.
Qed.

Lemma foldr_Rmin_bounds (l : list R) (a : R) :
  (foldr Rmin a l <= a ∧ ∀ x, x ∈ l → foldr Rmin a l <= x) ∧
  foldr Rmin a l ∈ a :: l.
Proof.
  induction l as [|y l [[IHa IHl] IHin]]; simpl.
  - split; [split; [lra | by intros x Hx%elem_of_nil] | by left].
  - split; [split|].
    + etransitivity; [apply Rmin_r | exact IHa].
    + intros x [->|Hx]%elem_of_cons; [apply Rmin_l|].
      etransitivity; [apply Rmin_r | by apply IHl].
    + destruct (Rle_dec y (foldr Rmin a l)).
      * rewrite Rmin_left by lra. right. left.
      * rewrite Rmin_right by lra.
        apply elem_of_cons in IHin as [Heq|Hin];
          [rewrite Heq; by left | by do 2 right].
Qed.

Lemma foldr_Rmax_bounds (l : list R) (a : R) :
  (a <= foldr Rmax a l ∧ ∀ x, x ∈ l → x <= foldr Rmax a l) ∧
  foldr Rmax a l ∈ a :: l.
Proof.
  induction l as [|y l [[IHa IHl] IHin]]; simpl.
  - split; [split; [lra | by intros x Hx%elem_of_nil] | by left].
  - split; [split|].
    + etransitivity; [exact IHa | apply Rmax_r].
    + intros x [->|Hx]%elem_of_cons; [apply Rmax_l|].
      etransitivity; [by apply IHl | apply Rmax_r].
    + destruct (Rle_dec y (foldr Rmax a l)).
      * rewrite Rmax_right by lra.
        apply elem_of_cons in IHin as [Heq|Hin];
          [rewrite Heq; by left | by do 2 right].
      * rewrite Rmax_left by lra. right. left.
Qed.

(** X14: in the statistics of a profile the elevation gain and loss are not
    negative; the minimum and maximum elevation are elevations of points of
    the profile and bound the elevation of every point; the two maximum
    grades are not negative and every grade from the second point on lies
    between minus the maximum downhill and the maximum uphill grade; the
    total distance is the distance of the last point. *)
Theorem profile_statistics_bounds (pts : list ProfilePoint) (th : R) :
  pts ≠ [] →
  ∃ st, calculate_profile_statistics pts th = Some st ∧
    0 <= elevationGain st ∧ 0 <= elevationLoss st ∧
    (∀ p, p ∈ pts → minElevation st <= elevation p <= maxElevation st) ∧
    (∃ p, p ∈ pts ∧ elevation p = minElevation st) ∧
    (∃ p, p ∈ pts ∧ elevation p = maxElevation st) ∧
    0 <= maxGradeUphill st ∧ 0 <= maxGradeDownhill st ∧
    (∀ i p, (1 <= i)%nat → pts !! i = Some p →
            - maxGradeDownhill st <= grade p <= maxGradeUphill st) ∧
    Some (totalDistance st) = distance <$> last pts.
Proof.
  intros Hne.
  assert (Hlen : (1 <= length pts)%nat).
  { destruct pts; [contradiction | simpl; lia]. }
  unfold calculate_profile_statistics.
  destruct (stat_loop_invariant pts th
              (λ k acc, 0 <= elevation_gain acc ∧ 0 <= elevation_loss acc ∧
                        0 <= max_grade_uphill acc ∧
                        max_grade_downhill acc <= 0 ∧
                        ∀ i p, (1 <= i < k)%nat → pts !! i = Some p →
                          max_grade_downhill acc <= grade p
                            <= max_grade_uphill acc)
              (length pts - 1) 1
              {| elevation_gain := 0; elevation_loss := 0;
                 max_grade_uphill := 0; max_grade_downhill := 0;
                 excessive_grade_distance := 0; excessive_segments := [] |})
    as (acc & Hloop & Hg & Hl & Hu & Hd & Hgr); [lia | lia | | |].
  { simpl. repeat split; try lra; intros; lia. }
  { clear. intros i acc prev curr acc' Hi (Hg & Hl & Hu & Hd & Hgr) Hprev Hcurr.
    unfold stat_step. rewrite Hprev, Hcurr. simpl. intros [= <-]. simpl.
    pose proof (Rabs_pos (elevation curr - elevation prev)).
    split; [case_decide; lra|]. split; [case_decide; lra|].
    split; [case_decide; lra|]. split; [case_decide; lra|].
    intros j p Hj Hp. destruct (decide (j = i)) as [->|Hji].
    - rewrite Hcurr in Hp. injection Hp as <-. repeat case_decide; lra.
    - specialize (Hgr j p ltac:(lia) Hp). repeat case_decide; lra. }
  rewrite Hloop. simpl.
  destruct (last pts) as [pl|] eqn:Hlast; [|by apply last_None in Hlast].
  destruct (lookup_lt_is_Some_2 pts 0) as [p0 Hp0]; [lia|].
  simpl. rewrite Hp0. simpl.
  eexists. split; [reflexivity|]. simpl.
  split; [exact Hg|]. split; [exact Hl|].
  destruct (foldr_Rmin_bounds (elevation <$> pts) (elevation p0))
    as [[_ Hmin] Hmin_in].
  destruct (foldr_Rmax_bounds (elevation <$> pts) (elevation p0))
    as [[_ Hmax] Hmax_in].
  assert (Hp0_in : elevation p0 ∈ elevation <$> pts).
  { apply list_elem_of_fmap. exists p0. split; [done|].
    by eapply list_elem_of_lookup_2. }
  split.
  { intros p Hp.
    assert (Hin : elevation p ∈ elevation <$> pts).
    { apply list_elem_of_fmap. by exists p. }
    split; [by apply Hmin | by apply Hmax]. }
  split.
  { apply elem_of_cons in Hmin_in as [Heq|Hin].
    - exists p0. split; [by eapply list_elem_of_lookup_2 | done].
    - apply list_elem_of_fmap in Hin as (p & Hp & Hin). by exists p. }
  split.
  { apply elem_of_cons in Hmax_in as [Heq|Hin].
    - exists p0. split; [by eapply list_elem_of_lookup_2 | done].
    - apply list_elem_of_fmap in Hin as (p & Hp & Hin). by exists p. }
  split; [exact Hu|]. split; [apply Rabs_pos|].
  split; [|reflexivity].
  intros i p Hi Hp.
  assert (Hlt : (i < length pts)%nat) by (by eapply lookup_lt_Some).
  specialize (Hgr i p ltac:(lia) Hp).
  rewrite Rabs_left1 by exact Hd. lra.
Qed.

Lemma profile_statistics_bounds_witness :
  short_climb ≠ [] ∧
  ∃ st, calculate_profile_statistics short_climb 8 = Some st ∧
        0 <= elevationGain st ∧ 0 <= maxGradeUphill st.
Proof.
  assert (Hne : short_climb ≠ []) by discriminate.
  split; [exact Hne|].
  destruct (profile_statistics_bounds short_climb 8 Hne)
    as (st & Hst & Hg & _ & _ & _ & _ & Hu & _).
  exists st. split; [exact Hst|]. split; [exact Hg | exact Hu].
Defined.

End ProfileBounds.
(** ** Excessive grades, and the profile pipeline *)

Section ExcessiveGrades.

Import ProfileOps.

Lemma foldr_Rplus_snoc (l : list R) (x : R) :
  foldr Rplus 0 (l ++ [x]) = foldr Rplus 0 l + x.
Proof. induction l as [|y l IH]; simpl; [lra | rewrite IH; lra]. Qed.

(** The excessive segments and distance left by the statistics loop. *)
Lemma excessive_grade_loop (pts : list ProfilePoint) (th : R) :
  pts ≠ [] →
  ∃ st, calculate_profile_statistics pts th = Some st ∧
    excessiveSegments st
      = omap (excessive_segment pts th) (seq 1 (length pts - 1)) ∧
    excessiveGradeDistance st
      = foldr Rplus 0 (segment_length <$> excessiveSegments st) ∧
    (excessiveSegments st = [] → excessiveGradePercent st = 0) ∧
    (nondecreasing pts → (∀ p, head pts = Some p → 0 <= distance p) →
     0 <= excessiveGradeDistance st <= totalDistance st ∧
     0 <= excessiveGradePercent st <= 100).
Proof.
  intros Hne.
  assert (Hlen : (1 <= length pts)%nat).
  { destruct pts; [contradiction | simpl; lia]. }
  unfold calculate_profile_statistics.
  destruct (stat_loop_invariant pts th
              (λ k acc,
                 excessive_segments acc
                   = omap (excessive_segment pts th) (seq 1 (k - 1)) ∧
                 excessive_grade_distance acc
                   = foldr Rplus 0 (segment_length <$> excessive_segments acc) ∧
                 (nondecreasing pts → ∀ p0 pk,
                    pts !! 0%nat = Some p0 → pts !! (k - 1)%nat = Some pk →
                    0 <= excessive_grade_distance acc
                      <= distance pk - distance p0))
              (length pts - 1) 1
              {| elevation_gain := 0; elevation_loss := 0;
                 max_grade_uphill := 0; max_grade_downhill := 0;
                 excessive_grade_distance := 0; excessive_segments := [] |})
    as (acc & Hloop & Hsegs & Hsum & Hmono); [lia | lia | | |].
  { simpl. split; [reflexivity|]. split; [reflexivity|].
    intros _ p0 pk H0 Hk. rewrite H0 in Hk. injection Hk as <-. lra. }
  { clear. intros i acc prev curr acc' Hi (Hsegs & Hsum & Hmono) Hprev Hcurr
      Hstep.
    unfold stat_step in Hstep. rewrite Hprev, Hcurr in Hstep.
    simpl in Hstep. injection Hstep as <-.
    cbn [excessive_segments excessive_grade_distance].
    assert (Hseq : seq 1 (S i - 1) = seq 1 (i - 1) ++ [i]).
    { replace (S i - 1)%nat with (S (i - 1)) by lia. rewrite seq_S.
      do 2 f_equal. lia. }
    assert (Hone : omap (excessive_segment pts th) [i]
                   = if decide (Rabs (grade curr) > th)
                     then [(distance prev, distance curr, round1 (grade curr))]
                     else []).
    { cbn [omap list_omap]. unfold excessive_segment.
      rewrite Hprev, Hcurr. simpl. by case_decide. }
    rewrite Hseq, omap_app, Hone.
    replace (S i - 1)%nat with i by lia.
    assert (Hdist : distance prev <= distance curr ∨ ¬ nondecreasing pts).
    { destruct (Rle_dec (distance prev) (distance curr)) as [Hle|Hgt];
        [by left | right]. intros Hnd. apply Hgt.
      apply (Hnd (i - 1)%nat); [exact Hprev|].
      by replace (S (i - 1)) with i by lia. }
    destruct (decide (Rabs (grade curr) > th)) as [Hex|Hex].
    - rewrite bool_decide_eq_true_2 by exact Hex.
      split; [by rewrite Hsegs|]. split.
      + rewrite fmap_app.
        change (segment_length <$>
                  [(distance prev, distance curr, round1 (grade curr))])
          with [segment_length
                  (distance prev, distance curr, round1 (grade curr))].
        rewrite foldr_Rplus_snoc, <- Hsum. reflexivity.
      + intros Hnd p0 pk H0 Hk. rewrite Hcurr in Hk. injection Hk as <-.
        specialize (Hmono Hnd p0 prev H0 Hprev).
        destruct Hdist as [Hle|Hno]; [lra | contradiction].
    - rewrite bool_decide_eq_false_2 by exact Hex.
      split; [by rewrite Hsegs, app_nil_r|]. split; [exact Hsum|].
      intros Hnd p0 pk H0 Hk. rewrite Hcurr in Hk. injection Hk as <-.
      specialize (Hmono Hnd p0 prev H0 Hprev).
      destruct Hdist as [Hle|Hno]; [lra | contradiction]. }
  rewrite Hloop. simpl.
  replace (1 + (length pts - 1) - 1)%nat with (length pts - 1)%nat
    in Hsegs, Hmono by lia.
  rewrite last_lookup.
  replace (Init.Nat.pred (length pts)) with (length pts - 1)%nat by lia.
  destruct (lookup_lt_is_Some_2 pts (length pts - 1)) as [pl Hpl]; [lia|].
  destruct (lookup_lt_is_Some_2 pts 0) as [p0 Hp0]; [lia|].
  rewrite Hpl. simpl. rewrite Hp0. simpl.
  eexists. split; [reflexivity|]. simpl.
  split; [exact Hsegs|]. split; [exact Hsum|]. split.
  - intros Hnil. rewrite Hsum, Hnil. simpl.
    case_decide; [|reflexivity]. unfold Rdiv. ring.
  - intros Hnd Hstart.
    specialize (Hmono Hnd p0 pl Hp0 Hpl).
    specialize (Hstart p0). rewrite head_lookup in Hstart.
    specialize (Hstart Hp0).
    split; [lra|]. case_decide as Hpos; [|lra].
    assert (Hq : 0 <= excessive_grade_distance acc / distance pl <= 1).
    { split.
      - apply Rmult_le_pos; [lra|]. left. by apply Rinv_0_lt_compat.
      - apply (Rmult_le_reg_r (distance pl)); [lra|].
        unfold Rdiv. rewrite Rmult_assoc, Rinv_l by lra. lra. }
    lra.
Qed.

(** X15: the excessive segments reported by the statistics are, in order,
    the steps whose grade exceeds the threshold in absolute value, and the
    excessive distance is the sum of their lengths; without such a step the
    excessive percentage is 0; when the distances do not decrease and start
    at a distance that is not negative, the excessive distance lies between
    0 and the total distance and the excessive percentage between 0 and
    100. *)
Theorem excessive_grade_spec (pts : list ProfilePoint) (th : R) :
  pts ≠ [] →
  ∃ st, calculate_profile_statistics pts th = Some st ∧
    excessiveSegments st
      = omap (excessive_segment pts th) (seq 1 (length pts - 1)) ∧
    excessiveGradeDistance st
      = foldr Rplus 0 (segment_length <$> excessiveSegments st) ∧
    (excessiveSegments st = [] → excessiveGradePercent st = 0) ∧
    (nondecreasing pts → (∀ p, head pts = Some p → 0 <= distance p) →
     0 <= excessiveGradeDistance st <= totalDistance st ∧
     0 <= excessiveGradePercent st <= 100).
Proof. apply excessive_grade_loop. Qed.

Lemma excessive_grade_spec_witness :
  short_climb ≠ [] ∧
  ∃ st, calculate_profile_statistics short_climb 8 = Some st ∧
        excessiveGradeDistance st
          = foldr Rplus 0 (segment_length <$> excessiveSegments st).
Proof.
  assert (Hne : short_climb ≠ []) by discriminate.
  split; [exact Hne|].
  destruct (excessive_grade_spec short_climb 8 Hne) as (st & Hst & _ & H & _).
  exists st. split; [exact Hst | exact H].
Defined.

End ExcessiveGrades.

Section ProfilePipeline.

Import ProfileOps ProfileLambda.



End ProfilePipeline.
(** ** Validation metrics *)

Section ValidationMetrics.

Import DemGenerator.

Lemma sample_error_nonneg (dem : dataset) (elevation : R) (coord : R * R)
    (e : R) :
  sample_error dem elevation coord = Some e → 0 <= e.
Proof.
  unfold sample_error. destruct coord as [lng lat].
  destruct (geo_to_pixel lng lat (GetGeoTransform dem)) as [px py].
  destruct (ProfileOps.shape (ReadAsArray dem)) as [rows columns].
  repeat case_decide; try discriminate. intros [= <-]. apply Rabs_pos.
Qed.

Lemma contour_errors_nonneg (dem : dataset) (c : contour) :
  Forall (λ e, 0 <= e) (contour_errors dem c).
Proof.
  unfold contour_errors. destruct (string_dec _ _) as [Hls|Hls]; [|constructor].
  apply Forall_forall. intros e He.
  apply list_elem_of_omap in He as (i & _ & He).
  destruct (coordinates c !! i) as [coord|]; [|discriminate]. simpl in He.
  by eapply sample_error_nonneg.
Qed.

Lemma errors_nonneg (dem : dataset) (contours : list contour) :
  Forall (λ e, 0 <= e) (concat (contour_errors dem <$> contours)).
Proof.
  apply Forall_concat, Forall_fmap, Forall_forall. intros c _.
  apply contour_errors_nonneg.
Qed.

Lemma mean_square_le (errors : list R) (M : R) :
  errors ≠ [] → 0 <= M → (∀ e, e ∈ errors → 0 <= e <= M) →
  sqrt (Rsum ((λ e, e ^ 2) <$> errors) / INR (length errors)) <= M.
Proof.
  intros Hne HM Hall.
  rewrite <- (sqrt_pow2 M) by exact HM. apply sqrt_le_1_alt.
  rewrite <- (length_fmap (λ e, e ^ 2) errors).
  apply mean_le_max.
  - by destruct errors.
  - intros x Hx. apply list_elem_of_fmap in Hx as (e & -> & He).
    destruct (Hall e He). simpl. nra.
Qed.

Lemma errors_metrics (errors : list R) (mx : R) :
  errors ≠ [] → (∀ e, e ∈ errors → 0 <= e <= mx) →
  let r := sqrt (Rsum ((λ e, e ^ 2) <$> errors) / INR (length errors)) in
  let pct := INR (length (filter (λ e, e <= tolerance) errors))
             / INR (length errors) * 100 in
  0 <= r <= mx ∧ 0 <= pct <= 100 ∧
  (pct = 100 → r <= tolerance) ∧ (mx <= 2 → r <= 2).
Proof.
  intros Hne Hmax r pct.
  assert (Hlen : (0 < length errors)%nat).
  { destruct errors; [done | simpl; lia]. }
  assert (Hmax0 : 0 <= mx).
  { destruct errors as [|e0 rest]; [done|].
    destruct (Hmax e0); [left | lra]. }
  assert (Hrmse : r <= mx) by (by apply mean_square_le).
  split; [split; [apply sqrt_pos | exact Hrmse]|].
  split.
  { apply (percent_of_bounds
             (length (filter (λ e, e <= tolerance) errors)) (length errors));
      [apply length_filter | exact Hlen]. }
  split; [|intros; lra].
  intros H100. apply mean_square_le; [done | unfold tolerance; lra|].
  intros e Hin. split; [by apply Hmax|].
  assert (Hall : length (filter (λ e, e <= tolerance) errors)
                 = length errors).
  { apply INR_eq.
    assert (Hl : 0 < INR (length errors)) by (by apply lt_0_INR).
    assert (Hd : INR (length (filter (λ e, e <= tolerance) errors))
                 = pct * (INR (length errors) / 100)).
    { unfold pct. field. lra. }
    rewrite Hd, H100. field. }
  destruct (decide (e <= tolerance)) as [Hle|Hgt]; [exact Hle|].
  exfalso.
  pose proof (length_filter_lt (λ e, e <= tolerance) errors e Hin Hgt).
  lia.
Qed.

(** X17: the metrics of [validate_dem] are consistent: the RMSE lies between
    0 and the maximum deviation, the match percentage between 0 and 100, and
    at least one sample was taken; when every sample is within the tolerance
    of 0.5 m the RMSE is at most 0.5, and a maximum deviation of at most 2
    gives an RMSE of at most 2. *)
Theorem validate_dem_metrics (dem : dataset) (contours : list contour)
    (m : metrics) :
  validate_dem dem contours = inr m →
  0 <= rmse m <= maxDeviation m ∧
  0 <= contourMatchPercentage m <= 100 ∧
  (1 <= sampleCount m)%nat ∧
  (contourMatchPercentage m = 100 → rmse m <= tolerance) ∧
  (maxDeviation m <= 2 → rmse m <= 2).
Proof.
  unfold validate_dem.
  pose proof (errors_nonneg dem contours) as Hpos.
  destruct (concat (contour_errors dem <$> contours)) as [|e0 rest] eqn:He;
    [discriminate|].
  rewrite Forall_forall in Hpos.
  destruct (errors_metrics (e0 :: rest) (fold_left Rmax rest e0))
    as (H1 & H2 & H3 & H4); [done | |].
  { intros e Hin. split; [by apply Hpos|]. by apply fold_left_Rmax_upper. }
  intros [= <-].
  split; [exact H1|]. split; [exact H2|]. split; [simpl; lia|].
  split; [exact H3 | exact H4].
Qed.

Lemma validate_dem_metrics_witness :
  ∃ m, validate_dem one_cell_dem [high_contour] = inr m ∧
       0 <= rmse m <= maxDeviation m.
Proof.
  destruct validate_one_cell as (m & Hm & _).
  exists m. split; [exact Hm|].
  destruct (validate_dem_metrics one_cell_dem [high_contour] m Hm) as [H _].
  exact H.
Defined.

Lemma range_step_length (n step : nat) :
  (0 < step)%nat → length (range_step n step) = ((n + step - 1) / step)%nat.
Proof.
  intros Hstep. unfold range_step. induction n as [|n IH].
  - simpl. symmetry. apply Nat.div_small. lia.
  - rewrite seq_S, filter_app, length_app, IH, Nat.add_0_l.
    rewrite filter_cons, filter_nil.
    replace (S n + step - 1)%nat with (n + step)%nat by lia.
    pose proof (Nat.div_mod_eq n step) as Hn.
    pose proof (Nat.mod_upper_bound n step ltac:(lia)) as Hr.
    set (q := (n / step)%nat) in *. set (r := (n mod step)%nat) in *.
    assert (Hq : (step * (q + 1) = step * q + step)%nat) by lia.
    case_decide as Hmod; cbn [length].
    + rewrite <- (Nat.div_unique (n + step - 1) step q (step - 1)) by lia.
      rewrite <- (Nat.div_unique (n + step) step (q + 1) 0) by lia.
      lia.
    + rewrite <- (Nat.div_unique (n + step - 1) step (q + 1) (r - 1)) by lia.
      rewrite <- (Nat.div_unique (n + step) step (q + 1) r) by lia.
      lia.
Qed.

Lemma omap_length_le {A B : Type} (f : A → option B) (l : list A) :
  (length (omap f l) <= length l)%nat.
Proof.
  induction l as [|x l IH]; [reflexivity|].
  cbn [omap list_omap]. destruct (f x); simpl; lia.
Qed.

(** X18: [validate_dem] samples at most 39 vertices of a contour line, so the
    sample count is at most 39 times the number of contours, and a contour
    whose geometry is not a [LineString] is not sampled. *)
Theorem validation_sample_bound (dem : dataset) (contours : list contour) :
  (∀ c, (length (contour_errors dem c) <= 39)%nat) ∧
  (∀ c, geometry_type c ≠ "LineString"%string → contour_errors dem c = []) ∧
  (∀ m, validate_dem dem contours = inr m →
        (sampleCount m <= 39 * length contours)%nat).
Proof.
  assert (Hone : ∀ c, (length (contour_errors dem c) <= 39)%nat).
  { intros c. unfold contour_errors.
    destruct (string_dec _ _) as [Hls|Hls]; [|simpl; lia].
    etransitivity; [apply omap_length_le|].
    set (n := length (coordinates c)).
    rewrite range_step_length by lia.
    apply Nat.Div0.div_le_upper_bound.
    pose proof (Nat.div_mod_eq n 20) as Hdiv.
    pose proof (Nat.mod_upper_bound n 20 ltac:(lia)) as Hmod.
    destruct (Nat.max_spec 1 (n / 20)) as [[Hlt ->]|[Hle ->]]; lia. }
  split; [exact Hone|]. split.
  { intros c Hc. unfold contour_errors.
    by destruct (string_dec _ _) as [Hls|Hls]. }
  intros m. unfold validate_dem.
  assert (Hlen : (length (concat (contour_errors dem <$> contours))
                  <= 39 * length contours)%nat).
  { induction contours as [|c cs IH]; [simpl; lia|].
    rewrite fmap_cons. simpl concat. rewrite length_app, length_cons.
    specialize (Hone c). lia. }
  destruct (concat (contour_errors dem <$> contours)) as [|e0 rest];
    [discriminate|].
  intros [= <-]. exact Hlen.
Qed.

Lemma validation_sample_bound_witness :
  ∃ m, validate_dem one_cell_dem [high_contour] = inr m ∧
       (sampleCount m <= 39 * 1)%nat.
Proof.
  destruct validate_one_cell as (m & Hm & _).
  exists m. split; [exact Hm|].
  destruct (validation_sample_bound one_cell_dem [high_contour])
    as (_ & _ & H).
  exact (H m Hm).
Defined.

End ValidationMetrics.
(** ** Pixel coordinates and the grid of the DEM *)

Section PixelGrid.

Import DemGenerator GdalOps.

Lemma floor_unique (x : R) (z : Z) : IZR z <= x < IZR z + 1 → floor x = z.
Proof.
  intros [Hlo Hhi]. destruct (floor_bounds x) as [Flo Fhi].
  assert ((floor x < z + 1)%Z) by (apply lt_IZR; rewrite plus_IZR; lra).
  assert ((z < floor x + 1)%Z) by (apply lt_IZR; rewrite plus_IZR; lra).
  lia.
Qed.

Lemma ceil_unique (x : R) (z : Z) : IZR z - 1 < x <= IZR z → ceil x = z.
Proof.
  intros [Hlo Hhi]. destruct (ceil_bounds x) as [Clo Chi].
  assert ((ceil x < z + 1)%Z) by (apply lt_IZR; rewrite plus_IZR; lra).
  assert ((z < ceil x + 1)%Z) by (apply lt_IZR; rewrite plus_IZR; lra).
  lia.
Qed.

Lemma trunc_small (x : R) : -1 < x < 1 → trunc x = 0%Z.
Proof.
  intros Hx. unfold trunc. case_decide.
  - apply floor_unique. simpl. lra.
  - apply ceil_unique. simpl. lra.
Qed.

Lemma trunc_nonneg (x : R) : 0 <= x → trunc x = floor x.
Proof. intros Hx. unfold trunc. by rewrite decide_True. Qed.

Lemma trunc_range (x : R) (n : Z) : 0 <= x < IZR n → (0 <= trunc x < n)%Z.
Proof.
  intros [Hlo Hhi]. rewrite trunc_nonneg by exact Hlo.
  destruct (floor_bounds x) as [Flo Fhi]. split.
  - assert ((-1 < floor x)%Z); [|lia].
    apply lt_IZR. simpl. lra.
  - apply lt_IZR. lra.
Qed.

(** X19: the validation truncates pixel coordinates toward zero, where the
    profile sampler takes the floor: the two agree from 0 on, but a vertex
    less than one pixel west or north of the raster is sampled by the
    validation at column or row 0, while the profile sampler rejects the same
    point as outside the DEM. *)
Theorem geo_to_pixel_truncates (gt : geotransform) (lng lat : R) :
  let '(x, y) := ProfileOps.geo_to_pixel lng lat gt in
  let '(px, py) := geo_to_pixel lng lat gt in
  (0 <= x → px = floor x) ∧ (0 <= y → py = floor y) ∧
  (-1 < x < 0 →
   px = 0%Z ∧
   ∀ data y' nodata,
     ProfileOps.bilinear_interpolation data x y' nodata = None) ∧
  (-1 < y < 0 →
   py = 0%Z ∧
   ∀ data x' nodata,
     ProfileOps.bilinear_interpolation data x' y nodata = None).
Proof.
  unfold ProfileOps.geo_to_pixel, geo_to_pixel. cbv zeta.
  split; [apply trunc_nonneg|]. split; [apply trunc_nonneg|].
  split; intros Hneg; (split; [apply trunc_small; lra|]);
    intros data c nodata; unfold ProfileOps.bilinear_interpolation;
    destruct (ProfileOps.shape data) as [height width];
    match goal with
    | H : -1 < ?v < 0 |- _ =>
        pose proof (proj2 (floor_neg_iff v) ltac:(lra))
    end;
    by rewrite decide_True by tauto.
Qed.

Lemma geo_to_pixel_truncates_witness :
  (geo_to_pixel (-1 / 2) 0 (GetGeoTransform one_cell_dem)).1 = 0%Z ∧
  ∀ data y' nodata,
    ProfileOps.bilinear_interpolation data
      (ProfileOps.geo_to_pixel (-1 / 2) 0 (GetGeoTransform one_cell_dem)).1
      y' nodata = None.
Proof.
  pose proof (geo_to_pixel_truncates (GetGeoTransform one_cell_dem) (-1 / 2) 0)
    as H.
  destruct (ProfileOps.geo_to_pixel (-1 / 2) 0 (GetGeoTransform one_cell_dem))
    as [x y] eqn:Hxy.
  destruct (geo_to_pixel (-1 / 2) 0 (GetGeoTransform one_cell_dem))
    as [px py].
  destruct H as (_ & _ & H & _). simpl. apply H.
  unfold ProfileOps.geo_to_pixel in Hxy. simpl in Hxy.
  injection Hxy as <- _. lra.
Defined.

(** X20: with the geotransform that [run_gdal_grid] and [create_geotiff] set
    for bounds and a grid of positive size, every point within the bounds,
    the eastern and southern edges excluded, falls on a pixel of the grid;
    the centre of pixel [(i, j)] is mapped back to [(i, j)], and the
    south-east corner of the bounds to [(width, height)], outside the
    grid. *)
Theorem grid_geotransform_pixels (b : bounds) (width height : Z) :
  (0 < width)%Z → (0 < height)%Z →
  minLng b < maxLng b → minLat b < maxLat b →
  ∃ gt, grid_geotransform b width height = Some gt ∧
    (∀ lng lat, minLng b <= lng < maxLng b → minLat b < lat <= maxLat b →
       let '(px, py) := geo_to_pixel lng lat gt in
       (0 <= px < width)%Z ∧ (0 <= py < height)%Z) ∧
    (∀ i j, (0 <= i < width)%Z → (0 <= j < height)%Z →
       geo_to_pixel (gt0 gt + (IZR i + 1 / 2) * gt1 gt)
                    (gt3 gt + (IZR j + 1 / 2) * gt5 gt) gt = (i, j)) ∧
    geo_to_pixel (maxLng b) (minLat b) gt = (width, height).
Proof.
  intros Hw Hh Hlng Hlat. unfold grid_geotransform.
  rewrite decide_False by lia. rewrite decide_False by lia.
  eexists. split; [reflexivity|].
  apply IZR_lt in Hw, Hh. simpl in Hw, Hh.
  unfold geo_to_pixel. cbn [gt0 gt1 gt3 gt5].
  set (W := IZR width) in *. set (H := IZR height) in *.
  set (dx := maxLng b - minLng b). set (dy := maxLat b - minLat b).
  assert (Hdx : 0 < dx) by (unfold dx; lra).
  assert (Hdy : 0 < dy) by (unfold dy; lra).
  split; [|split].
  - intros lng lat Hx Hy.
    assert (Ex : (lng - minLng b) / (dx / W) = (lng - minLng b) / dx * W).
    { field. lra. }
    assert (Ey : (lat - maxLat b) / (- dy / H) = (maxLat b - lat) / dx * 0
                                                 + (maxLat b - lat) / dy * H).
    { field. lra. }
    rewrite Ex, Ey. clear Ex Ey.
    assert (Qx : 0 <= (lng - minLng b) / dx < 1).
    { split.
      - apply Rmult_le_pos; [lra|]. left. by apply Rinv_0_lt_compat.
      - apply (Rmult_lt_reg_r dx); [lra|].
        unfold Rdiv. rewrite Rmult_assoc, Rinv_l by lra. unfold dx. lra. }
    assert (Qy : 0 <= (maxLat b - lat) / dy < 1).
    { split.
      - apply Rmult_le_pos; [lra|]. left. by apply Rinv_0_lt_compat.
      - apply (Rmult_lt_reg_r dy); [lra|].
        unfold Rdiv. rewrite Rmult_assoc, Rinv_l by lra. unfold dy. lra. }
    split; apply trunc_range; fold W H; nra.
  - intros i j Hi Hj.
    assert (Ex : (minLng b + (IZR i + 1 / 2) * (dx / W) - minLng b) / (dx / W)
                 = IZR i + 1 / 2) by (field; lra).
    assert (Ey : (maxLat b + (IZR j + 1 / 2) * (- dy / H) - maxLat b)
                 / (- dy / H) = IZR j + 1 / 2) by (field; lra).
    rewrite Ex, Ey.
    assert (0 <= IZR i) by (apply IZR_le; lia).
    assert (0 <= IZR j) by (apply IZR_le; lia).
    rewrite !trunc_nonneg by lra.
    f_equal; apply floor_unique; lra.
  - assert (Ex : dx / (dx / W) = W) by (field; lra).
    assert (Ey : (minLat b - maxLat b) / (- dy / H) = H)
      by (unfold dy; field; lra).
    rewrite Ex, Ey. rewrite !trunc_nonneg by lra.
    unfold W, H. by rewrite !floor_IZR.
Qed.

Lemma grid_geotransform_pixels_witness :
  ∃ gt, grid_geotransform (payload_bounds test_payload) 10 10 = Some gt ∧
        geo_to_pixel (maxLng (payload_bounds test_payload))
                     (minLat (payload_bounds test_payload)) gt
        = (10%Z, 10%Z).
Proof.
  destruct (grid_geotransform_pixels (payload_bounds test_payload) 10 10)
    as (gt & Hgt & _ & _ & Hcorner); [lia | lia | simpl; lra | simpl; lra |].
  exists gt. split; [exact Hgt | exact Hcorner].
Defined.

(** X21: [generate_dem] takes the grid width proportional to the absolute
    value of the centre latitude, so bounds centred on the equator give a
    grid of width 0, for which the pixel width of the geotransform is a
    division by zero; a resolution of 0 raises as well. *)
Theorem grid_dimensions_equator (b : bounds) (resolution : R) :
  (resolution = 0 → grid_dimensions b resolution = None) ∧
  (resolution ≠ 0 → minLat b + maxLat b = 0 →
   ∃ height, grid_dimensions b resolution = Some (0%Z, height) ∧
             grid_geotransform b 0 height = None).
Proof.
  unfold grid_dimensions. cbv zeta. split.
  - intros ->. by rewrite decide_True.
  - intros Hres Heq. rewrite decide_False by exact Hres.
    eexists. split; [|reflexivity].
    rewrite Heq.
    replace (0 / 2 * 3.14159 / 180) with 0 by lra.
    rewrite Rabs_R0.
    replace ((maxLng b - minLng b) * 111320 * 0 / resolution) with 0
      by (field; exact Hres).
    by rewrite trunc_0.
Qed.

Lemma grid_dimensions_equator_witness :
  ∃ height,
    grid_dimensions {| minLat := -1; maxLat := 1; minLng := 0; maxLng := 1 |} 1
      = Some (0%Z, height).
Proof.
  destruct (grid_dimensions_equator
              {| minLat := -1; maxLat := 1; minLng := 0; maxLng := 1 |} 1)
    as [_ H].
  destruct H as (height & Hdim & _); [lra | simpl; lra |].
  exists height. exact Hdim.
Defined.

Lemma fold_left_Rmin_le (l : list R) (a : R) : fold_left Rmin l a <= a.
Proof.
  revert a. induction l as [|x l IH]; intros a; simpl; [lra|].
  etransitivity; [apply IH | apply Rmin_l].
Qed.

Lemma fold_left_Rmin_lower (l : list R) (a x : R) :
  x ∈ a :: l → fold_left Rmin l a <= x.
Proof.
  revert a. induction l as [|y l IH]; intros a Hin; simpl.
  - apply list_elem_of_singleton in Hin. subst. lra.
  - apply elem_of_cons in Hin as [->|Hin].
    + etransitivity; [apply fold_left_Rmin_le | apply Rmin_l].
    + apply elem_of_cons in Hin as [->|Hin].
      * etransitivity; [apply fold_left_Rmin_le | apply Rmin_r].
      * apply IH. by apply list_elem_of_further.
Qed.

Lemma fold_left_Rmin_in (l : list R) (a : R) : fold_left Rmin l a ∈ a :: l.
Proof.
  revert a. induction l as [|y l IH]; intros a; simpl; [by left|].
  specialize (IH (Rmin a y)). apply elem_of_cons in IH as [Heq|Hin].
  - rewrite Heq. unfold Rmin. destruct (Rle_dec a y); [left | right; left].
  - by do 2 right.
Qed.

(** X22: [calculate_dem_stats] raises exactly when every cell is -9999;
    otherwise the minimum and the maximum are values of cells that are not
    -9999 and bound all such cells, and the average lies between them. *)
Theorem calculate_dem_stats_spec (array : grid) :
  (calculate_dem_stats array = None ↔
   Forall (λ v, v = -9999) (concat array)) ∧
  (∀ st, calculate_dem_stats array = Some st →
     dem_min st <= dem_avg st <= dem_max st ∧
     dem_min st ∈ concat array ∧ dem_min st ≠ -9999 ∧
     dem_max st ∈ concat array ∧ dem_max st ≠ -9999 ∧
     ∀ v, v ∈ concat array → v ≠ -9999 → dem_min st <= v <= dem_max st).
Proof.
  unfold calculate_dem_stats. cbv zeta.
  assert (Hvalid : ∀ v, v ∈ filter (λ v, v ≠ -9999) (concat array) ↔
                        v ≠ -9999 ∧ v ∈ concat array).
  { intros v. exact (list_elem_of_filter (λ v, v ≠ -9999) (concat array) v). }
  destruct (filter (λ v, v ≠ -9999) (concat array)) as [|v0 rest] eqn:Hf.
  - split; [|discriminate]. split; [|done]. intros _.
    apply Forall_forall. intros v Hv.
    destruct (decide (v = -9999)) as [|Hne]; [done|].
    exfalso. apply (elem_of_nil v). apply Hvalid. done.
  - split.
    { split; [discriminate|]. intros Hall. exfalso.
      destruct (proj1 (Hvalid v0) ltac:(left)) as [Hne Hin].
      rewrite Forall_forall in Hall. by apply Hne, Hall. }
    intros st [= <-]. cbn [dem_min dem_max dem_avg].
    pose proof (fold_left_Rmin_in rest v0) as Hmin.
    pose proof (fold_left_Rmax_in rest v0) as Hmax.
    apply Hvalid in Hmin as [Hmin1 Hmin2].
    apply Hvalid in Hmax as [Hmax1 Hmax2].
    split.
    { split.
      - apply mean_ge_min; [done|]. intros x. apply fold_left_Rmin_lower.
      - apply mean_le_max; [done|]. intros x. apply fold_left_Rmax_upper. }
    repeat split; try done.
    + apply fold_left_Rmin_lower. by apply Hvalid.
    + apply fold_left_Rmax_upper. by apply Hvalid.
Qed.

Lemma calculate_dem_stats_spec_witness :
  ∃ st, calculate_dem_stats (ReadAsArray ramp3) = Some st ∧
        dem_min st <= dem_avg st <= dem_max st.
Proof.
  destruct (calculate_dem_stats (ReadAsArray ramp3)) as [st|] eqn:Hst.
  - exists st. split; [reflexivity|].
    destruct (calculate_dem_stats_spec (ReadAsArray ramp3)) as [_ H].
    destruct (H st Hst) as [Hb _]. exact Hb.
  - exfalso.
    destruct (calculate_dem_stats_spec (ReadAsArray ramp3)) as [[H _] _].
    specialize (H Hst). simpl in H.
    apply Forall_cons in H as [H _]. lra.
Defined.

End PixelGrid.
(** ** What the DEM-generation handler reports and stores *)

Section HandlerOutcomes.

Import -(notations) DemGenerator.
Import DemLambda.
Local Open Scope string_scope.

Variable fetch_contours_from_postgis : string → string → result (list contour).
Variable generate_dem :
  list contour → bounds → R → string → string → result (dataset * Z * Z).
Variable calculate_dem_stats : dataset → result (R * R * R).
Variable upload_to_s3 : dataset → string → result unit.
Variable create_dem_record : payload → string → metrics → result string.
Variable format_2f : R → string.
Variable format_float : R → string.
Variable execute_update : string → job_update → result unit.
Variable select_startedAt : string → result (option (option R)).
Variable now : R.
Variable now_in_lookup : R.

Local Abbreviation handler :=
  (DemLambda.handler fetch_contours_from_postgis generate_dem
     calculate_dem_stats upload_to_s3 create_dem_record format_2f format_float
     execute_update select_startedAt now now_in_lookup).

Local Abbreviation get_job_start_time :=
  (DemLambda.get_job_start_time select_startedAt now_in_lookup).

Ltac in_log H :=
  repeat (apply elem_of_cons in H as [H|H]; [try discriminate H|]);
  try (by apply elem_of_nil in H).

Ltac logged :=
  repeat first [apply list_elem_of_here | apply list_elem_of_further].

Ltac pick :=
  apply list_elem_of_here + (apply list_elem_of_further; pick).

Ltac status_of_updates :=
  let u := fresh "u" in
  let H := fresh "H" in
  intros u H; in_log H; injection H as ->; vm_compute;
  first [reflexivity | discriminate | intros ?; discriminate].

Ltac verdict :=
  first
    [ status_of_updates
    | left; (split; [reflexivity|]); do 4 eexists;
      (split; [reflexivity|]); (split; [lra|]);
      (split; [reflexivity|]); (split; [reflexivity|]);
      (split; [reflexivity|]); (split; [reflexivity|]);
      (split; [reflexivity|]); split; logged
    | right; (split; [reflexivity|]); do 2 eexists;
      (split; [reflexivity|]); (split; [reflexivity|]);
      (split; [reflexivity|]); (split; [reflexivity|]);
      status_of_updates ].

Ltac upload_gate :=
  let s3 := fresh "s3" in
  let H := fresh "H" in
  intros s3 H; in_log H;
  do 5 eexists; repeat split; first [eassumption | reflexivity | lra].

Ltac record_fate :=
  let d := fresh "d" in
  let H := fresh "H" in
  intros d H; in_log H; injection H as ->;
  (split; [eexists; logged|]);
  first
    [ left; eexists; (split; [pick|]); split; reflexivity
    | right; left; eexists; reflexivity
    | right; right; left; reflexivity
    | right; right; right; do 2 eexists; eassumption ].

Ltac ends :=
  cbn -[job_update_for];
  match goal with
  | |- context [execute_update ?j (job_update_for "failed" ?a ?b ?c ?d)] =>
    destruct (execute_update j (job_update_for "failed" a b c d))
      as [?|[]] eqn:?
  | _ => idtac
  end;
  cbn -[job_update_for];
  (split; [verdict|split; [upload_gate | record_fate]]).

(** X23: whatever the collaborators and the job table do, the handler ends
    in one of three ways. With status 200 the first update reported the job
    as processing, the last one reports it completed with the DEM id, the
    RMSE is at most 2 and the DEM was uploaded and recorded. With status 500
    the last update reports the job failed with the error message of the
    response, and no update reports it completed. When the update of the
    [except] clause raises, the exception leaves the handler and every
    update made so far says processing. A DEM is uploaded only after it was
    validated with an RMSE of at most 2. A DEM record is made only after the
    upload, and it stays without a completed report only when the start time
    could not be read or the completed update raised. *)
Theorem handler_outcomes (p : payload) :
  let '(outcome, log) := handler p in
  match outcome with
  | inr (Response code body) =>
    (code = 200%nat ∧
     ∃ dem_id s3_path m u,
       body = inr (dem_id, s3_path, m) ∧ rmse m <= 2 ∧
       head log = Some (JobUpdated (job_update_for "processing" 0 None None None)) ∧
       last log = Some (JobUpdated u) ∧
       set_status u = "completed" ∧ set_progress u = 100%nat ∧
       set_demId u = Some dem_id ∧
       DemUploaded s3_path ∈ log ∧ DemRecorded dem_id ∈ log) ∨
    (code = 500%nat ∧
     ∃ message u,
       body = inl message ∧
       last log = Some (JobUpdated u) ∧
       set_status u = "failed" ∧ set_errorMessage u = Some message ∧
       ∀ u', JobUpdated u' ∈ log → set_status u' ≠ "completed")
  | inl e =>
    ∀ u, JobUpdated u ∈ log → set_status u = "processing"
  end ∧
  (∀ s3_path, DemUploaded s3_path ∈ log →
     ∃ contours dem width height m,
       fetch_contours_from_postgis (projectId p) (propertyBoundaryId p)
         = inr contours ∧
       generate_dem contours (payload_bounds p) (resolution p)
         (interpolationMethod p) (projectId p) = inr (dem, width, height) ∧
       validate_dem dem contours = inr m ∧ rmse m <= 2) ∧
  (∀ dem_id, DemRecorded dem_id ∈ log →
     (∃ s3_path, DemUploaded s3_path ∈ log) ∧
     ((∃ u, JobUpdated u ∈ log ∧ set_status u = "completed" ∧
            set_demId u = Some dem_id) ∨
      (∃ e, get_job_start_time (jobId p) = inl e) ∨
      get_job_start_time (jobId p) = inr None ∨
      (∃ t e, execute_update (jobId p)
                (job_update_for "completed" 100 (Some dem_id) (Some t) None)
              = inl e))).
Proof.
  unfold DemLambda.handler, DemLambda.run_job, DemLambda.update_job_status,
    DemLambda.get_job_start_time, DemLambda.processing_time_since,
    bind, lift, emit, raise, ret.
  cbn -[job_update_for].
  destruct (execute_update (jobId p) (job_update_for "processing" 0 _ _ _))
    as [e|[]] eqn:H0; [ends|]. cbn -[job_update_for].
  destruct (fetch_contours_from_postgis _ _) as [e|contours] eqn:Hfetch;
    [ends|]. cbn -[job_update_for].
  destruct (execute_update (jobId p) (job_update_for "processing" 20 _ _ _))
    as [e|[]] eqn:H20; [ends|]. cbn -[job_update_for].
  destruct contours as [|c contours];
    [rewrite decide_True by reflexivity; ends|].
  rewrite decide_False by discriminate. cbn -[job_update_for].
  destruct (generate_dem _ _ _ _ _) as [e|[[dem width] height]] eqn:Hgen;
    [ends|]. cbn -[job_update_for].
  destruct (execute_update (jobId p) (job_update_for "processing" 70 _ _ _))
    as [e|[]] eqn:H70; [ends|]. cbn -[job_update_for].
  destruct (validate_dem _ _) as [e|m] eqn:Hval; [ends|]. cbn -[job_update_for].
  destruct (execute_update (jobId p) (job_update_for "processing" 85 _ _ _))
    as [e|[]] eqn:H85; [ends|]. cbn -[job_update_for].
  case_decide as Hgate; [ends|]. cbn -[job_update_for].
  destruct (calculate_dem_stats dem) as [e|stats]; [ends|]. cbn -[job_update_for].
  destruct (upload_to_s3 _ _) as [e|[]]; [ends|]. cbn -[job_update_for].
  destruct (execute_update (jobId p) (job_update_for "processing" 95 _ _ _))
    as [e|[]] eqn:H95; [ends|]. cbn -[job_update_for].
  destruct (create_dem_record _ _ _) as [e|dem_id]; [ends|]. cbn -[job_update_for].
  destruct (select_startedAt (jobId p)) as [e|[[t|]|]] eqn:Hsel;
    cbn -[job_update_for].
  - ends.
  - destruct (execute_update (jobId p) (job_update_for "completed" 100 _ _ _))
      as [e|[]] eqn:Hdone; ends.
  - ends.
  - destruct (execute_update (jobId p) (job_update_for "completed" 100 _ _ _))
      as [e|[]] eqn:Hdone; ends.
Qed.

(** A DEM record made before the start time cannot be read stays in the
    database while the job is reported as failed with status 500. *)
Lemma record_survives_failed_completion (p : payload) (contours : list contour)
    (dem : dataset) (width height : Z) (m : metrics) (stats : R * R * R)
    (dem_id : string) (e : exn) :
  (∀ u, execute_update (jobId p) u = inr tt) →
  fetch_contours_from_postgis (projectId p) (propertyBoundaryId p)
    = inr contours →
  contours ≠ [] →
  generate_dem contours (payload_bounds p) (resolution p)
    (interpolationMethod p) (projectId p) = inr (dem, width, height) →
  validate_dem dem contours = inr m →
  rmse m <= 2 →
  calculate_dem_stats dem = inr stats →
  upload_to_s3 dem ("dems/" ++ projectId p ++ "/dem_"
                    ++ format_float (resolution p) ++ "m.tif") = inr tt →
  create_dem_record p ("dems/" ++ projectId p ++ "/dem_"
                       ++ format_float (resolution p) ++ "m.tif") m
    = inr dem_id →
  select_startedAt (jobId p) = inl e →
  (handler p).1 = inr (Response 500 (inl (exn_type e ++ ": " ++ exn_message e))) ∧
  DemRecorded dem_id ∈ (handler p).2 ∧
  last (handler p).2
    = Some (JobUpdated (job_update_for "failed" 0 None None
                          (Some (exn_type e ++ ": " ++ exn_message e)))).
Proof.
  intros Hok Hfetch Hne Hgen Hval Hrmse Hstats Hup Hrec Hsel.
  unfold DemLambda.handler, DemLambda.run_job, DemLambda.update_job_status,
    DemLambda.get_job_start_time, bind, lift, emit, raise, ret.
  cbn -[job_update_for]. rewrite !Hok. cbn -[job_update_for]. rewrite Hfetch.
  destruct contours as [|c contours]; [contradiction|].
  rewrite decide_False by discriminate. cbn -[job_update_for].
  rewrite Hgen. cbn -[job_update_for]. rewrite Hval. cbn -[job_update_for].
  rewrite decide_False by lra. cbn -[job_update_for].
  rewrite Hstats. cbn -[job_update_for]. cbn in Hup, Hrec.
  rewrite Hup. cbn -[job_update_for]. rewrite Hrec. cbn -[job_update_for].
  rewrite Hsel. cbn -[job_update_for]. rewrite Hok. cbn -[job_update_for].
  split; [reflexivity|]. split; [logged | reflexivity].
Qed.

(** With a job table that takes every update and knows the start time, the
    handler answers and reports as the handler of [DemGenerator]. *)
Lemma handler_reliable_job_table (p : payload) :
  (∀ u, execute_update (jobId p) u = inr tt) →
  (∃ started, select_startedAt (jobId p) = inr started ∧ started ≠ Some None) →
  (handler p).1
    = inr (DemGenerator.handler fetch_contours_from_postgis generate_dem
             calculate_dem_stats upload_to_s3 create_dem_record format_2f
             format_float p).1 ∧
  status_event <$> (handler p).2
    = (DemGenerator.handler fetch_contours_from_postgis generate_dem
         calculate_dem_stats upload_to_s3 create_dem_record format_2f
         format_float p).2.
Proof.
  intros Hok (started & Hsel & Hstarted).
  unfold DemLambda.handler, DemLambda.run_job, DemLambda.update_job_status,
    DemLambda.get_job_start_time, DemLambda.processing_time_since,
    DemGenerator.handler, DemGenerator.run_job,
    DemGenerator.update_job_status,
    bind, lift, emit, raise, ret,
    DemGenerator.bind, DemGenerator.lift, DemGenerator.emit,
    DemGenerator.raise, DemGenerator.ret.
  cbn -[job_update_for]. rewrite !Hok. cbn -[job_update_for].
  destruct (fetch_contours_from_postgis _ _) as [e|contours];
    [cbn -[job_update_for]; rewrite Hok; by vm_compute|].
  cbn -[job_update_for].
  destruct contours as [|c contours].
  { rewrite !decide_True by reflexivity. cbn -[job_update_for].
    rewrite Hok. by vm_compute. }
  rewrite !decide_False by discriminate. cbn -[job_update_for].
  destruct (generate_dem _ _ _ _ _) as [e|[[dem width] height]];
    [cbn -[job_update_for]; rewrite Hok; by vm_compute|].
  cbn -[job_update_for].
  destruct (validate_dem _ _) as [e|m];
    [cbn -[job_update_for]; rewrite Hok; by vm_compute|].
  cbn -[job_update_for].
  case_decide; [cbn -[job_update_for]; rewrite Hok; by vm_compute|].
  cbn -[job_update_for].
  destruct (calculate_dem_stats dem) as [e|stats];
    [cbn -[job_update_for]; rewrite Hok; by vm_compute|].
  cbn -[job_update_for].
  destruct (upload_to_s3 _ _) as [e|[]];
    [cbn -[job_update_for]; rewrite Hok; by vm_compute|].
  cbn -[job_update_for].
  destruct (create_dem_record _ _ _) as [e|dem_id];
    [cbn -[job_update_for]; rewrite Hok; by vm_compute|].
  cbn -[job_update_for]. rewrite Hsel.
  destruct started as [[t|]|]; [|done|]; cbn -[job_update_for];
    rewrite Hok; by vm_compute.
Qed.

End HandlerOutcomes.

Section HandlerOutcomesExample.

Import -(notations) DemGenerator.
Import DemLambda.
Local Open Scope string_scope.

(** The one sample of the example is on the DEM, so the RMSE is 0. *)
Lemma validate_level_contour :
  ∃ m, validate_dem one_cell_dem [level_contour] = inr m ∧ rmse m = 0.
Proof.
  assert (Herr : contour_errors one_cell_dem level_contour = [0]).
  { unfold contour_errors.
    destruct (string_dec (geometry_type level_contour) "LineString") as [_|Hn];
      [|by destruct Hn].
    cbn [level_contour coordinates contour_elevation length Nat.div Nat.max].
    unfold range_step. simpl.
    unfold sample_error, geo_to_pixel. simpl.
    replace ((0 - 0) / 1) with 0 by (unfold Rdiv; ring).
    replace ((0 - 0) / -1) with 0 by (unfold Rdiv; ring).
    rewrite trunc_0. simpl.
    unfold cell, lookup2. simpl.
    rewrite decide_True by lra.
    apply (f_equal (λ v, [v])).
    replace (0 - 0) with 0 by lra. apply Rabs_R0. }
  unfold validate_dem. cbn [fmap list_fmap concat]. rewrite Herr. simpl.
  eexists. split; [reflexivity|]. simpl.
  unfold Rsum. simpl.
  replace ((0 + 0 * (0 * 1)) / 1) with 0 by (unfold Rdiv; field).
  apply sqrt_0.
Qed.

(** The job of the example, with the connection lost after the DEM record
    was made: status 500, and the record is there. *)
Lemma handler_record_without_completion :
  let run := handler fetch_level generate_one_cell stats_ok upload_ok record_ok
               format_ten format_ten updates_ok connection_lost 0 0
               test_payload in
  run.1 = inr (Response 500
                 (inl "OperationalError: server closed the connection")) ∧
  DemRecorded "dem_1" ∈ run.2.
Proof.
  destruct validate_level_contour as (m & Hval & Hrmse).
  destruct (record_survives_failed_completion fetch_level generate_one_cell
              stats_ok upload_ok record_ok format_ten format_ten updates_ok
              connection_lost 0 0 test_payload [level_contour] one_cell_dem
              1%Z 1%Z m (0, 0, 0) "dem_1"
              (mk_exn "OperationalError" "server closed the connection"))
    as (Hcode & Hrec & _); try reflexivity; try done.
  { rewrite Hrmse. lra. }
Qed.

End HandlerOutcomesExample.
(** ** Statistics of a calculated slope raster *)

Section SlopePipeline.

Variable gaussian_filter : R → grid → grid.

Hypothesis gaussian_filter_shape :
  ∀ sigma h w a, has_shape h w a → has_shape h w (gaussian_filter sigma a).

Lemma has_shape_concat_length (h w : nat) (a : grid) :
  has_shape h w a → length (concat a) = (h * w)%nat.
Proof.
  intros [Hlen Hrows]. subst h. induction a as [|row a IH]; [reflexivity|].
  apply Forall_cons in Hrows as [Hrow Hrows].
  simpl. rewrite length_app, Hrow, IH by exact Hrows. reflexivity.
Qed.

(** X24: on a raster of at least two rows and two columns [calculate_slope]
    returns a raster without no-data cells, so the statistics taken of it
    count every cell of the raster; they exist, and the mean slope lies
    between 0 and the maximum slope. *)
Theorem slope_statistics_of_calculated (ds : dataset)
    (smoothing_enabled : bool) (k : Z) (th : SlopeOps.thresholds)
    (max_buildable_slope : R) :
  well_formed ds → (2 <= RasterYSize ds)%nat → (2 <= RasterXSize ds)%nat →
  ∃ slope st,
    SlopeOps.calculate_slope gaussian_filter ds smoothing_enabled k
      = Some slope ∧
    SlopeOps.calculate_slope_statistics slope th max_buildable_slope
      = Some st ∧
    SlopeOps.valid_cells slope = concat slope ∧
    length (SlopeOps.valid_cells slope)
      = (RasterYSize ds * RasterXSize ds)%nat ∧
    0 <= SlopeOps.meanSlope st <= SlopeOps.maxSlope st.
Proof.
  intros Hwf Hh Hw.
  destruct (calculate_slope_total gaussian_filter gaussian_filter_shape
              ds smoothing_enabled k Hwf Hh Hw) as [slope Hslope].
  pose proof (calculate_slope_edge gaussian_filter gaussian_filter_shape
                ds smoothing_enabled k slope Hwf Hslope)
    as (Hshape & Hall & _).
  assert (Hpos : all_cells (λ v, 0 <= v) slope).
  { apply Hall. unfold SlopeOps.slope_interior.
    apply fill_interior_all; [apply zeros_like_all; lra|].
    intros y x _. apply slope_percent_nonneg. }
  assert (Hflat : Forall (λ v, 0 <= v) (concat slope)).
  { by apply Forall_concat. }
  assert (Hvalid : SlopeOps.valid_cells slope = concat slope).
  { unfold SlopeOps.valid_cells.
    induction Hflat as [|v l Hv _ IH]; [reflexivity|].
    rewrite filter_cons, decide_True, IH; [reflexivity|].
    unfold SlopeOps.SLOPE_NODATA. lra. }
  assert (Hlen : length (concat slope)
                 = (RasterYSize ds * RasterXSize ds)%nat).
  { by apply has_shape_concat_length. }
  assert (Hne : SlopeOps.valid_cells slope ≠ []).
  { rewrite Hvalid. intros Hnil. rewrite Hnil in Hlen. simpl in Hlen. nia. }
  destruct (slope_maximum_helper slope th max_buildable_slope Hne)
    as (st & Hst & Hmean & Hmean0).
  { rewrite Hvalid. rewrite Forall_forall in Hflat. exact Hflat. }
  exists slope, st. split; [exact Hslope|]. split; [exact Hst|].
  split; [exact Hvalid|]. split; [by rewrite Hvalid|]. lra.
Qed.

End SlopePipeline.

Section SlopePipelineExample.

Lemma slope_statistics_of_calculated_witness :
  ∃ slope st,
    SlopeOps.calculate_slope no_filter ramp3 false 3 = Some slope ∧
    SlopeOps.calculate_slope_statistics slope default_thresholds 15
      = Some st ∧
    0 <= SlopeOps.meanSlope st <= SlopeOps.maxSlope st.
Proof.
  destruct (slope_statistics_of_calculated no_filter no_filter_shape ramp3
              false 3 default_thresholds 15 ramp3_well_formed)
    as (slope & st & H1 & H2 & _ & _ & H3); [simpl; lia | simpl; lia |].
  exists slope, st. split; [exact H1|]. split; [exact H2 | exact H3].
Defined.

End SlopePipelineExample.
(** ** Border cells of the aspect raster *)

Section AspectBorder.

Import AspectOps.

Lemma get2_at (h w : nat) (a : grid) (i j : Z) (y x : nat) :
  has_shape h w a → py_index h i = Some y → py_index w j = Some x →
  get2 a i j = lookup2 a y x.
Proof.
  intros [Hlen Hrows] Hi Hj. unfold get2, get_row, lookup2.
  rewrite Hlen, Hi. simpl.
  destruct (a !! y) as [row|] eqn:Hrow; [|reflexivity]. simpl.
  pose proof (Forall_lookup_1 _ _ _ _ Hrows Hrow) as Hw. simpl in Hw.
  by rewrite Hw, Hj.
Qed.

Lemma set2_at (h w : nat) (a : grid) (i j : Z) (y x : nat) (v : R) :
  has_shape h w a → py_index h i = Some y → py_index w j = Some x →
  ∃ a', set2 a i j v = Some a' ∧ has_shape h w a' ∧
    ∀ y' x', lookup2 a' y' x' =
             if decide (y' = y ∧ x' = x) then Some v else lookup2 a y' x'.
Proof.
  intros [Hlen Hrows] Hi Hj. unfold set2. rewrite Hlen, Hi. simpl.
  pose proof (py_index_lt _ _ _ Hi) as Hy.
  pose proof (py_index_lt _ _ _ Hj) as Hx.
  destruct (lookup_lt_is_Some_2 a y) as [row Hrow]; [lia|].
  rewrite Hrow. simpl.
  pose proof (Forall_lookup_1 _ _ _ _ Hrows Hrow) as Hw. simpl in Hw.
  rewrite Hw, Hj. simpl. eexists. split; [reflexivity|]. split.
  - split; [by rewrite length_insert|].
    apply Forall_insert; [done|]. by rewrite length_insert.
  - intros y' x'. unfold lookup2.
    destruct (decide (y' = y)) as [->|Hy'].
    + rewrite list_lookup_insert_eq by lia. simpl.
      destruct (decide (x' = x)) as [->|Hx'].
      * rewrite list_lookup_insert_eq by lia. by rewrite decide_True.
      * rewrite list_lookup_insert_ne by done.
        rewrite decide_False by tauto. by rewrite Hrow.
    + rewrite list_lookup_insert_ne by done. by rewrite decide_False by tauto.
Qed.

(** A guarded copy [if a[src] != -1: a[dst] = a[src]] into a cell that still
    holds -1 is a plain copy. *)
Lemma guarded_copy_at (h w : nat) (a : grid) (si sj di dj : Z)
    (sy sx dy dx : nat) :
  has_shape h w a →
  py_index h si = Some sy → py_index w sj = Some sx →
  py_index h di = Some dy → py_index w dj = Some dx →
  lookup2 a dy dx = Some (-1) →
  ∃ v a', get2 a si sj = Some v ∧
    (if decide (v ≠ -1) then set2 a di dj v else Some a) = Some a' ∧
    has_shape h w a' ∧
    ∀ y' x', lookup2 a' y' x' =
             if decide (y' = dy ∧ x' = dx) then lookup2 a sy sx
             else lookup2 a y' x'.
Proof.
  intros Hshape Hsi Hsj Hdi Hdj Hdst.
  rewrite (get2_at h w a si sj sy sx) by done.
  destruct (has_shape_lookup2 h w a sy sx Hshape) as [v Hv];
    [by eapply py_index_lt | by eapply py_index_lt |].
  rewrite Hv. exists v.
  destruct (decide (v ≠ -1)) as [Hne|Heq].
  - destruct (set2_at h w a di dj dy dx v Hshape Hdi Hdj)
      as (a' & Hset & Hshape' & Hlook).
    exists a'. split; [reflexivity|]. split; [exact Hset|].
    split; [exact Hshape'|]. exact Hlook.
  - apply dec_stable in Heq. subst v.
    exists a. split; [reflexivity|]. split; [reflexivity|].
    split; [exact Hshape|]. intros y' x'.
    case_decide as Hd; [|reflexivity]. destruct Hd as [-> ->]. exact Hdst.
Qed.

Lemma copy_rows_at_lookup (h w : nat) (a : grid) (x : nat) :
  has_shape h w a → (3 <= h)%nat → (x < w)%nat →
  lookup2 a 0 x = Some (-1) → lookup2 a (h - 1) x = Some (-1) →
  ∃ a', copy_rows_at h a x = Some a' ∧ has_shape h w a' ∧
    ∀ y' x', lookup2 a' y' x' =
             lookup2 a (if decide (x' = x) then edge_source h y' else y') x'.
Proof.
  intros Hshape Hh Hx Htop Hbottom. unfold copy_rows_at.
  destruct (guarded_copy_at h w a 1 (Z.of_nat x) 0 (Z.of_nat x) 1 x 0 x)
    as (v1 & a1 & Hget1 & Hset1 & Hshape1 & Hlook1);
    [done | apply (py_index_nat h 1); lia | by apply py_index_nat
    | apply (py_index_nat h 0); lia | by apply py_index_nat | done |].
  rewrite Hget1. simpl. rewrite Hset1. simpl.
  destruct (guarded_copy_at h w a1 (Z.of_nat h - 2) (Z.of_nat x)
              (Z.of_nat h - 1) (Z.of_nat x) (h - 2) x (h - 1) x)
    as (v2 & a2 & Hget2 & Hset2 & Hshape2 & Hlook2);
    [done | apply (py_index_from_end h 2); lia | by apply py_index_nat
    | apply (py_index_from_end h 1); lia | by apply py_index_nat | |].
  { rewrite Hlook1. by rewrite decide_False by lia. }
  rewrite Hget2. simpl. rewrite Hset2.
  exists a2. split; [reflexivity|]. split; [exact Hshape2|].
  intros y' x'. rewrite Hlook2, !Hlook1. unfold edge_source.
  repeat case_decide; try reflexivity; try lia; destruct_and?; subst;
    try reflexivity; try lia; exfalso; intuition lia.
Qed.

Lemma copy_columns_at_lookup (h w : nat) (a : grid) (y : nat) :
  has_shape h w a → (3 <= w)%nat → (y < h)%nat →
  lookup2 a y 0 = Some (-1) → lookup2 a y (w - 1) = Some (-1) →
  ∃ a', copy_columns_at w a y = Some a' ∧ has_shape h w a' ∧
    ∀ y' x', lookup2 a' y' x' =
             lookup2 a y' (if decide (y' = y) then edge_source w x' else x').
Proof.
  intros Hshape Hw Hy Hleft Hright. unfold copy_columns_at.
  destruct (guarded_copy_at h w a (Z.of_nat y) 1 (Z.of_nat y) 0 y 1 y 0)
    as (v1 & a1 & Hget1 & Hset1 & Hshape1 & Hlook1);
    [done | by apply py_index_nat | apply (py_index_nat w 1); lia
    | by apply py_index_nat | apply (py_index_nat w 0); lia | done |].
  rewrite Hget1. simpl. rewrite Hset1. simpl.
  destruct (guarded_copy_at h w a1 (Z.of_nat y) (Z.of_nat w - 2)
              (Z.of_nat y) (Z.of_nat w - 1) y (w - 2) y (w - 1))
    as (v2 & a2 & Hget2 & Hset2 & Hshape2 & Hlook2);
    [done | by apply py_index_nat | apply (py_index_from_end w 2); lia
    | by apply py_index_nat | apply (py_index_from_end w 1); lia | |].
  { rewrite Hlook1. by rewrite decide_False by lia. }
  rewrite Hget2. simpl. rewrite Hset2.
  exists a2. split; [reflexivity|]. split; [exact Hshape2|].
  intros y' x'. rewrite Hlook2, !Hlook1. unfold edge_source.
  repeat case_decide; try reflexivity; try lia; destruct_and?; subst;
    try reflexivity; try lia; exfalso; intuition lia.
Qed.

Lemma for_each_seq_invariant {S : Type} (body : S → nat → option S)
    (I : nat → S → Prop) (n a : nat) (s : S) :
  I a s →
  (∀ i s, (a <= i < a + n)%nat → I i s →
          ∃ s', body s i = Some s' ∧ I (Datatypes.S i) s') →
  ∃ s', for_each (seq a n) body s = Some s' ∧ I (a + n)%nat s'.
Proof.
  revert a s. induction n as [|n IH]; intros a s HI Hstep.
  - exists s. split; [reflexivity|]. by rewrite Nat.add_0_r.
  - cbn [seq for_each].
    destruct (Hstep a s ltac:(lia) HI) as (s1 & Hs1 & HI1).
    rewrite Hs1. simpl.
    destruct (IH (Datatypes.S a) s1 HI1) as (s' & Hs' & HI').
    { intros i s2 Hi. apply Hstep. lia. }
    exists s'. split; [exact Hs'|].
    by replace (a + Datatypes.S n)%nat with (Datatypes.S a + n)%nat by lia.
Qed.

Lemma aspect_interior_lookup (dem slope : dataset) (flat_threshold : R)
    (y x : nat) :
  (y < RasterYSize dem)%nat → (x < RasterXSize dem)%nat →
  lookup2 (aspect_interior dem slope flat_threshold) y x =
  Some (if decide (interior (RasterYSize dem) (RasterXSize dem) y x)
        then interior_aspect dem (ReadAsArray slope) flat_threshold y x
        else -1).
Proof.
  intros Hy Hx. unfold aspect_interior. rewrite fill_interior_lookup.
  unfold lookup2. rewrite lookup_replicate_2 by done. simpl.
  rewrite lookup_replicate_2 by done. simpl. reflexivity.
Qed.

Lemma edge_source_interior (n i : nat) :
  (3 <= n)%nat → (i < n)%nat →
  edge_source n i = nearest_interior n i ∧
  (1 <= edge_source n i ∧ edge_source n i + 1 < n)%nat.
Proof.
  intros Hn Hi. unfold edge_source, nearest_interior.
  repeat case_decide; lia.
Qed.

(** X25: on a DEM of at least three rows and three columns, with a slope
    raster of the same shape, every cell of the aspect raster carries the
    aspect of the nearest interior cell, the flat value -1 included: the
    guarded copies of the two edge loops leave the same raster as plain
    copies would. *)
Theorem calculate_aspect_border (dem slope : dataset) (flat_threshold : R)
    (y x : nat) :
  well_formed dem →
  has_shape (RasterYSize dem) (RasterXSize dem) (ReadAsArray slope) →
  (3 <= RasterYSize dem)%nat → (3 <= RasterXSize dem)%nat →
  (y < RasterYSize dem)%nat → (x < RasterXSize dem)%nat →
  ∃ aspect, calculate_aspect dem slope flat_threshold = Some aspect ∧
    lookup2 aspect y x =
    Some (interior_aspect dem (ReadAsArray slope) flat_threshold
            (nearest_interior (RasterYSize dem) y)
            (nearest_interior (RasterXSize dem) x)).
Proof.
  intros _ Hslope Hh Hw Hy Hx. unfold calculate_aspect. cbv zeta.
  rewrite decide_True by (by apply has_shape_slope_readable).
  pose proof (aspect_interior_shape dem slope flat_threshold) as Hs0.
  pose proof (aspect_interior_lookup dem slope flat_threshold) as Hl0.
  set (s0 := aspect_interior dem slope flat_threshold) in *.
  set (h := RasterYSize dem) in *. set (w := RasterXSize dem) in *.
  assert (Hborder : ∀ y' x', (y' < h)%nat → (x' < w)%nat →
            ¬ interior h w y' x' → lookup2 s0 y' x' = Some (-1)).
  { intros y' x' Hy' Hx' Hni. rewrite Hl0 by done. by rewrite decide_False. }
  destruct (for_each_seq_invariant (copy_rows_at h)
              (λ k s, has_shape h w s ∧
                      ∀ y' x', lookup2 s y' x' =
                        lookup2 s0 (if decide (x' < k)%nat
                                    then edge_source h y' else y') x')
              w 0 s0) as (s1 & Hloop1 & Hs1 & Hl1).
  { split; [exact Hs0|]. intros y' x'. by rewrite decide_False by lia. }
  { intros k s Hk [Hs Hl].
    destruct (copy_rows_at_lookup h w s k Hs Hh) as (s' & Hs' & Hshape' & Hl');
      [lia | | |].
    - rewrite Hl. rewrite decide_False by lia.
      apply Hborder; [lia | lia | unfold interior; lia].
    - rewrite Hl. rewrite decide_False by lia.
      apply Hborder; [lia | lia | unfold interior; lia].
    - exists s'. split; [exact Hs'|]. split; [exact Hshape'|].
      intros y' x'. rewrite Hl', Hl.
      repeat case_decide; try reflexivity; try lia.
      all: unfold edge_source in *; repeat case_decide; try reflexivity; lia. }
  rewrite Hloop1. simpl. simpl in Hl1.
  destruct (for_each_seq_invariant (copy_columns_at w)
              (λ k s, has_shape h w s ∧
                      ∀ y' x', lookup2 s y' x' =
                        lookup2 s1 y' (if decide (y' < k)%nat
                                       then edge_source w x' else x'))
              h 0 s1) as (s2 & Hloop2 & Hs2 & Hl2).
  { split; [exact Hs1|]. intros y' x'. by rewrite decide_False by lia. }
  { intros k s Hk [Hs Hl].
    destruct (edge_source_interior h k Hh ltac:(lia)) as [_ Hek].
    destruct (copy_columns_at_lookup h w s k Hs Hw)
      as (s' & Hs' & Hshape' & Hl'); [lia | | |].
    - rewrite Hl. rewrite decide_False by lia. rewrite Hl1.
      rewrite decide_True by lia.
      apply Hborder; [lia | lia | unfold interior; lia].
    - rewrite Hl. rewrite decide_False by lia. rewrite Hl1.
      rewrite decide_True by lia.
      apply Hborder; [lia | lia | unfold interior; lia].
    - exists s'. split; [exact Hs'|]. split; [exact Hshape'|].
      intros y' x'. rewrite Hl', Hl.
      repeat case_decide; try reflexivity; try lia.
      all: unfold edge_source in *; repeat case_decide; try reflexivity; lia. }
  rewrite Hloop2. exists s2. split; [reflexivity|]. simpl in Hl2.
  destruct (edge_source_interior h y Hh Hy) as [Hey Hiy].
  destruct (edge_source_interior w x Hw Hx) as [Hex Hix].
  rewrite Hl2. rewrite decide_True by lia.
  rewrite Hl1. rewrite decide_True by lia.
  rewrite Hl0 by lia. rewrite decide_True by (unfold interior; lia).
  by rewrite Hey, Hex.
Qed.

Lemma calculate_aspect_border_witness :
  ∃ aspect, calculate_aspect ramp3 ramp3 2 = Some aspect ∧
    lookup2 aspect 0 0 =
    Some (interior_aspect ramp3 (ReadAsArray ramp3) 2
            (nearest_interior (RasterYSize ramp3) 0)
            (nearest_interior (RasterXSize ramp3) 0)).
Proof.
  apply (calculate_aspect_border ramp3 ramp3 2 0 0 ramp3_well_formed
           ramp3_well_formed); simpl; lia.
Defined.

End AspectBorder.
(** ** Circular mean of a raster of one aspect *)

Section UniformAspect.

Import AspectOps.

Lemma tan_shift (x : R) : cos x ≠ 0 → sin (x + PI) / cos (x + PI) = tan x.
Proof. intros Hc. rewrite neg_sin, neg_cos. unfold tan. by field. Qed.

Lemma sin_turn (x : R) : sin (x + 2 * PI) = sin x.
Proof.
  replace (x + 2 * PI) with (x + PI + PI) by lra.
  rewrite !neg_sin. lra.
Qed.

Lemma cos_turn (x : R) : cos (x + 2 * PI) = cos x.
Proof.
  replace (x + 2 * PI) with (x + PI + PI) by lra.
  rewrite !neg_cos. lra.
Qed.

(** The angle of the point [(cos r, sin r)], for [r] within one turn. *)
Lemma atan2_sin_cos (r : R) :
  0 <= r < 2 * PI →
  atan2 (sin r) (cos r) = if decide (r <= PI) then r else r - 2 * PI.
Proof.
  intros [Hlo Hhi]. pose proof PI_RGT_0 as Hpi. unfold atan2.
  destruct (Rlt_dec r (PI / 2)) as [H1|H1].
  { (* first quadrant *)
    pose proof (cos_gt_0 r ltac:(lra) ltac:(lra)) as Hc.
    rewrite decide_True by exact Hc. rewrite (decide_True (P := r <= PI)) by lra.
    change (sin r / cos r) with (tan r). apply atan_tan. lra. }
  destruct (Req_dec_T r (PI / 2)) as [->|H2].
  { rewrite cos_PI2, sin_PI2.
    rewrite decide_False by lra. rewrite decide_False by lra.
    rewrite decide_True by lra. by rewrite decide_True by lra. }
  destruct (Rle_dec r PI) as [H3|H3].
  { (* second quadrant *)
    pose proof (cos_lt_0 r ltac:(lra) ltac:(lra)) as Hc.
    pose proof (sin_ge_0 r ltac:(lra) ltac:(lra)) as Hs.
    rewrite decide_False by lra. rewrite decide_True by exact Hc.
    rewrite decide_True by exact Hs. rewrite (decide_True (P := r <= PI)) by lra.
    replace r with (r - PI + PI) at 1 2 by lra.
    rewrite tan_shift.
    - rewrite atan_tan by lra. lra.
    - pose proof (cos_gt_0 (r - PI) ltac:(lra) ltac:(lra)). lra. }
  destruct (Rlt_dec r (3 * (PI / 2))) as [H4|H4].
  { (* third quadrant *)
    pose proof (cos_lt_0 r ltac:(lra) ltac:(lra)) as Hc.
    pose proof (sin_lt_0 r ltac:(lra) ltac:(lra)) as Hs.
    rewrite decide_False by lra. rewrite decide_True by exact Hc.
    rewrite decide_False by lra. rewrite (decide_False (P := r <= PI)) by lra.
    replace r with (r - PI + PI) at 1 2 by lra.
    rewrite tan_shift.
    - rewrite atan_tan by lra. lra.
    - pose proof (cos_gt_0 (r - PI) ltac:(lra) ltac:(lra)). lra. }
  destruct (Req_dec_T r (3 * (PI / 2))) as [->|H5].
  { rewrite cos_3PI2, sin_3PI2.
    rewrite decide_False by lra. rewrite decide_False by lra.
    rewrite decide_False by lra. rewrite decide_True by lra.
    rewrite decide_False by lra. lra. }
  (* fourth quadrant *)
  assert (Hs : sin r = sin (r - 2 * PI)).
  { rewrite <- (sin_turn (r - 2 * PI)). f_equal. lra. }
  assert (Hc : cos r = cos (r - 2 * PI)).
  { rewrite <- (cos_turn (r - 2 * PI)). f_equal. lra. }
  pose proof (cos_gt_0 (r - 2 * PI) ltac:(lra) ltac:(lra)) as Hpos.
  rewrite Hs, Hc. rewrite decide_True by exact Hpos.
  rewrite (decide_False (P := r <= PI)) by lra.
  change (sin (r - 2 * PI) / cos (r - 2 * PI)) with (tan (r - 2 * PI)).
  apply atan_tan. lra.
Qed.

Lemma foldr_Rplus_replicate (n : nat) (v : R) :
  foldr Rplus 0 (replicate n v) = INR n * v.
Proof.
  induction n as [|n IH]; [simpl; lra|].
  cbn [replicate foldr]. rewrite IH, S_INR. lra.
Qed.

Lemma mean_of_replicate (f : R → R) (n : nat) (a : R) :
  mean_of f (replicate (S n) a) = f (radians a).
Proof.
  unfold mean_of. rewrite fmap_replicate, foldr_Rplus_replicate.
  rewrite length_replicate. field.
  pose proof (pos_INR n). rewrite S_INR. lra.
Qed.

(** X26: the circular mean of a list that repeats one bearing of [0, 360) is
    that bearing, so the statistics of a raster all of whose cells have the
    same bearing report it as the circular mean aspect. *)
Theorem circular_mean_of_uniform (a : R) (n : nat) :
  0 <= a < 360 →
  _calculate_circular_mean (replicate (S n) a) = Some a ∧
  ∀ aspect, concat aspect = replicate (S n) a →
    ∃ st, calculate_aspect_statistics aspect = Some st ∧
          circularMeanAspect st = Some a.
Proof.
  intros Ha. pose proof PI_RGT_0 as Hpi.
  assert (Hmean : _calculate_circular_mean (replicate (S n) a) = Some a).
  { cbn [replicate]. rewrite circular_mean_unfold. cbv zeta.
    change (a :: replicate n a) with (replicate (S n) a).
    rewrite !mean_of_replicate.
    assert (Hr : 0 <= radians a < 2 * PI).
    { unfold radians. split.
      - apply Rmult_le_pos; [|lra]. apply Rmult_le_pos; lra.
      - apply (Rmult_lt_reg_r (180 / PI)).
        + apply Rdiv_lt_0_compat; lra.
        + replace (a * PI / 180 * (180 / PI)) with a by (field; lra).
          replace (2 * PI * (180 / PI)) with 360 by (field; lra). lra. }
    rewrite (atan2_sin_cos _ Hr).
    assert (Hd : degrees (radians a) = a).
    { unfold degrees, radians. field. lra. }
    assert (Hd' : degrees (radians a - 2 * PI) = a - 360).
    { unfold degrees, radians. field. lra. }
    f_equal. destruct (decide (radians a <= PI)) as [Hle|Hle].
    - rewrite Hd. by rewrite decide_False by lra.
    - rewrite Hd'. rewrite decide_True by lra. lra. }
  split; [exact Hmean|].
  intros aspect Hcells. unfold calculate_aspect_statistics.
  pose proof (count_angle_loop (concat aspect) zero_counts [])
    as (_ & _ & _ & Hvalid).
  destruct (fold_left count_angle (concat aspect) (zero_counts, []))
    as [c valid] eqn:Hfold.
  simpl in Hvalid. rewrite Hcells in *.
  rewrite decide_False by (rewrite length_replicate; lia).
  eexists. split; [reflexivity|]. cbn [circularMeanAspect].
  assert (Hall : valid = replicate (S n) a).
  { rewrite Hvalid. clear -Ha.
    induction (S n) as [|k IH]; [reflexivity|].
    cbn [replicate]. rewrite filter_cons, decide_True by lra.
    by rewrite IH. }
  rewrite Hall. exact Hmean.
Qed.

Lemma circular_mean_of_uniform_witness :
  _calculate_circular_mean (replicate 4 270) = Some 270.
Proof.
  destruct (circular_mean_of_uniform 270 3) as [H _]; [lra|]. exact H.
Defined.

End UniformAspect.
